(** * ZumoBuzzer on the ESP32: melody sequencer, note playback and tone driver

    A shallow embedding of [ZumoBuzzer.cpp] (the Arduino-ESP32 3.x port): the
    file-level statics become one record, every function becomes a function
    on that record, and the LEDC channel and the one-shot hardware timer are
    modelled by the two small records the driver calls act on.

    Integer types follow the ESP32 ABI: [unsigned char] is 8 bits wide and
    [unsigned int] 32 bits wide; every assignment writes the wrap-around out
    with [u8] or [u32]. *)

From Stdlib Require Import ZArith List String Ascii Bool Lia.
Import ListNotations.
Open Scope Z_scope.

(** ** Characters

    A [char] is its code as an integer.  Character literals are written
    between double quotes in [zchar_scope] and stand for that code. *)

Definition zchar_of_byte (b : Byte.byte) : Z := Z.of_N (Byte.to_N b).
Definition zchar_to_byte (z : Z) : option Byte.byte := None.

Declare Scope zchar_scope.
Delimit Scope zchar_scope with zc.
String Notation Z zchar_of_byte zchar_to_byte : zchar_scope.
Open Scope zchar_scope.

(** The characters of a string literal, as the bytes of a C string without
    its terminating NUL. *)
Definition melody (s : string) : list Z :=
  map (fun a => Z.of_N (N_of_ascii a)) (list_ascii_of_string s).

(** ** Fixed-width unsigned arithmetic *)

Definition u8 (z : Z) : Z := z mod 256.
Definition u32 (z : Z) : Z := z mod 4294967296.
Definition u64 (z : Z) : Z := z mod 18446744073709551616.

(** ** Faults

    Behaviour the C standard leaves undefined ends the run with a fault. *)

Inductive fault : Type :=
| DivByZero      (* integer division by zero *)
| OutOfBounds    (* read beyond the terminating NUL of the melody *)
| NullPointer    (* read through a null melody pointer *)
| OutOfFuel.     (* the loop bound of the model was too small *)

Inductive result (A : Type) : Type :=
| Ok (a : A)
| Fault (f : fault).

Arguments Ok {A} a.
Arguments Fault {A} f.

Definition bind {A B : Type} (r : result A) (k : A -> result B) : result B :=
  match r with
  | Ok a => k a
  | Fault f => Fault f
  end.

Notation "x <- r ;; k" := (bind r (fun x => k))
  (at level 61, r at next level, right associativity).

(** ** Peripherals *)

(** The LEDC channel attached to the buzzer pin: the frequency it was
    configured with and the duty last written. *)
Record ledc_pin : Type := {
  pwm_freq : Z;
  pwm_duty : Z
}.

(** The general-purpose timer behind [s_timer]: whether it counts, its
    counter, and the one-shot alarm value in microseconds when one is set. *)
Record hw_timer : Type := {
  tm_running : bool;
  tm_counter : Z;
  tm_alarm : option Z
}.

(** ** The statics of ZumoBuzzer.cpp

    [buzzerSequence] is the read cursor: [None] is the null pointer and
    [Some l] points at the first character of [l], the characters that
    remain before the terminating NUL ([Some []] points at the NUL). *)
Record state : Type := {
  buzzerInitialized : Z;
  buzzerFinished : Z;
  buzzerSequence : option (list Z);
  buzzerTimeout_ms : Z;
  play_mode_setting : Z;
  use_program_space : Z;
  octave : Z;
  whole_note_duration : Z;
  note_type : Z;
  duration : Z;
  volume : Z;
  staccato : Z;
  staccato_rest_duration : Z;
  s_timer : option hw_timer;
  s_noteElapsed : bool;
  s_ledcAttached : bool;
  s_currFreq : Z;
  pwm : ledc_pin
}.

Definition set_buzzerInitialized (v : Z) (s : state) : state :=
  {| buzzerInitialized := v; buzzerFinished := buzzerFinished s;
     buzzerSequence := buzzerSequence s;
     buzzerTimeout_ms := buzzerTimeout_ms s;
     play_mode_setting := play_mode_setting s;
     use_program_space := use_program_space s; octave := octave s;
     whole_note_duration := whole_note_duration s; note_type := note_type s;
     duration := duration s; volume := volume s; staccato := staccato s;
     staccato_rest_duration := staccato_rest_duration s;
     s_timer := s_timer s; s_noteElapsed := s_noteElapsed s;
     s_ledcAttached := s_ledcAttached s; s_currFreq := s_currFreq s;
     pwm := pwm s |}.

Definition set_buzzerFinished (v : Z) (s : state) : state :=
  {| buzzerInitialized := buzzerInitialized s; buzzerFinished := v;
     buzzerSequence := buzzerSequence s;
     buzzerTimeout_ms := buzzerTimeout_ms s;
     play_mode_setting := play_mode_setting s;
     use_program_space := use_program_space s; octave := octave s;
     whole_note_duration := whole_note_duration s; note_type := note_type s;
     duration := duration s; volume := volume s; staccato := staccato s;
     staccato_rest_duration := staccato_rest_duration s;
     s_timer := s_timer s; s_noteElapsed := s_noteElapsed s;
     s_ledcAttached := s_ledcAttached s; s_currFreq := s_currFreq s;
     pwm := pwm s |}.

Definition set_buzzerSequence (v : option (list Z)) (s : state) : state :=
  {| buzzerInitialized := buzzerInitialized s;
     buzzerFinished := buzzerFinished s; buzzerSequence := v;
     buzzerTimeout_ms := buzzerTimeout_ms s;
     play_mode_setting := play_mode_setting s;
     use_program_space := use_program_space s; octave := octave s;
     whole_note_duration := whole_note_duration s; note_type := note_type s;
     duration := duration s; volume := volume s; staccato := staccato s;
     staccato_rest_duration := staccato_rest_duration s;
     s_timer := s_timer s; s_noteElapsed := s_noteElapsed s;
     s_ledcAttached := s_ledcAttached s; s_currFreq := s_currFreq s;
     pwm := pwm s |}.

Definition set_buzzerTimeout_ms (v : Z) (s : state) : state :=
  {| buzzerInitialized := buzzerInitialized s;
     buzzerFinished := buzzerFinished s; buzzerSequence := buzzerSequence s;
     buzzerTimeout_ms := v; play_mode_setting := play_mode_setting s;
     use_program_space := use_program_space s; octave := octave s;
     whole_note_duration := whole_note_duration s; note_type := note_type s;
     duration := duration s; volume := volume s; staccato := staccato s;
     staccato_rest_duration := staccato_rest_duration s;
     s_timer := s_timer s; s_noteElapsed := s_noteElapsed s;
     s_ledcAttached := s_ledcAttached s; s_currFreq := s_currFreq s;
     pwm := pwm s |}.

Definition set_play_mode_setting (v : Z) (s : state) : state :=
  {| buzzerInitialized := buzzerInitialized s;
     buzzerFinished := buzzerFinished s; buzzerSequence := buzzerSequence s;
     buzzerTimeout_ms := buzzerTimeout_ms s; play_mode_setting := v;
     use_program_space := use_program_space s; octave := octave s;
     whole_note_duration := whole_note_duration s; note_type := note_type s;
     duration := duration s; volume := volume s; staccato := staccato s;
     staccato_rest_duration := staccato_rest_duration s;
     s_timer := s_timer s; s_noteElapsed := s_noteElapsed s;
     s_ledcAttached := s_ledcAttached s; s_currFreq := s_currFreq s;
     pwm := pwm s |}.

Definition set_use_program_space (v : Z) (s : state) : state :=
  {| buzzerInitialized := buzzerInitialized s;
     buzzerFinished := buzzerFinished s; buzzerSequence := buzzerSequence s;
     buzzerTimeout_ms := buzzerTimeout_ms s;
     play_mode_setting := play_mode_setting s; use_program_space := v;
     octave := octave s; whole_note_duration := whole_note_duration s;
     note_type := note_type s; duration := duration s; volume := volume s;
     staccato := staccato s;
     staccato_rest_duration := staccato_rest_duration s;
     s_timer := s_timer s; s_noteElapsed := s_noteElapsed s;
     s_ledcAttached := s_ledcAttached s; s_currFreq := s_currFreq s;
     pwm := pwm s |}.

Definition set_octave (v : Z) (s : state) : state :=
  {| buzzerInitialized := buzzerInitialized s;
     buzzerFinished := buzzerFinished s; buzzerSequence := buzzerSequence s;
     buzzerTimeout_ms := buzzerTimeout_ms s;
     play_mode_setting := play_mode_setting s;
     use_program_space := use_program_space s; octave := v;
     whole_note_duration := whole_note_duration s; note_type := note_type s;
     duration := duration s; volume := volume s; staccato := staccato s;
     staccato_rest_duration := staccato_rest_duration s;
     s_timer := s_timer s; s_noteElapsed := s_noteElapsed s;
     s_ledcAttached := s_ledcAttached s; s_currFreq := s_currFreq s;
     pwm := pwm s |}.

Definition set_whole_note_duration (v : Z) (s : state) : state :=
  {| buzzerInitialized := buzzerInitialized s;
     buzzerFinished := buzzerFinished s; buzzerSequence := buzzerSequence s;
     buzzerTimeout_ms := buzzerTimeout_ms s;
     play_mode_setting := play_mode_setting s;
     use_program_space := use_program_space s; octave := octave s;
     whole_note_duration := v; note_type := note_type s;
     duration := duration s; volume := volume s; staccato := staccato s;
     staccato_rest_duration := staccato_rest_duration s;
     s_timer := s_timer s; s_noteElapsed := s_noteElapsed s;
     s_ledcAttached := s_ledcAttached s; s_currFreq := s_currFreq s;
     pwm := pwm s |}.

Definition set_note_type (v : Z) (s : state) : state :=
  {| buzzerInitialized := buzzerInitialized s;
     buzzerFinished := buzzerFinished s; buzzerSequence := buzzerSequence s;
     buzzerTimeout_ms := buzzerTimeout_ms s;
     play_mode_setting := play_mode_setting s;
     use_program_space := use_program_space s; octave := octave s;
     whole_note_duration := whole_note_duration s; note_type := v;
     duration := duration s; volume := volume s; staccato := staccato s;
     staccato_rest_duration := staccato_rest_duration s;
     s_timer := s_timer s; s_noteElapsed := s_noteElapsed s;
     s_ledcAttached := s_ledcAttached s; s_currFreq := s_currFreq s;
     pwm := pwm s |}.

Definition set_duration (v : Z) (s : state) : state :=
  {| buzzerInitialized := buzzerInitialized s;
     buzzerFinished := buzzerFinished s; buzzerSequence := buzzerSequence s;
     buzzerTimeout_ms := buzzerTimeout_ms s;
     play_mode_setting := play_mode_setting s;
     use_program_space := use_program_space s; octave := octave s;
     whole_note_duration := whole_note_duration s; note_type := note_type s;
     duration := v; volume := volume s; staccato := staccato s;
     staccato_rest_duration := staccato_rest_duration s;
     s_timer := s_timer s; s_noteElapsed := s_noteElapsed s;
     s_ledcAttached := s_ledcAttached s; s_currFreq := s_currFreq s;
     pwm := pwm s |}.

Definition set_volume (v : Z) (s : state) : state :=
  {| buzzerInitialized := buzzerInitialized s;
     buzzerFinished := buzzerFinished s; buzzerSequence := buzzerSequence s;
     buzzerTimeout_ms := buzzerTimeout_ms s;
     play_mode_setting := play_mode_setting s;
     use_program_space := use_program_space s; octave := octave s;
     whole_note_duration := whole_note_duration s; note_type := note_type s;
     duration := duration s; volume := v; staccato := staccato s;
     staccato_rest_duration := staccato_rest_duration s;
     s_timer := s_timer s; s_noteElapsed := s_noteElapsed s;
     s_ledcAttached := s_ledcAttached s; s_currFreq := s_currFreq s;
     pwm := pwm s |}.

Definition set_staccato (v : Z) (s : state) : state :=
  {| buzzerInitialized := buzzerInitialized s;
     buzzerFinished := buzzerFinished s; buzzerSequence := buzzerSequence s;
     buzzerTimeout_ms := buzzerTimeout_ms s;
     play_mode_setting := play_mode_setting s;
     use_program_space := use_program_space s; octave := octave s;
     whole_note_duration := whole_note_duration s; note_type := note_type s;
     duration := duration s; volume := volume s; staccato := v;
     staccato_rest_duration := staccato_rest_duration s;
     s_timer := s_timer s; s_noteElapsed := s_noteElapsed s;
     s_ledcAttached := s_ledcAttached s; s_currFreq := s_currFreq s;
     pwm := pwm s |}.

Definition set_staccato_rest_duration (v : Z) (s : state) : state :=
  {| buzzerInitialized := buzzerInitialized s;
     buzzerFinished := buzzerFinished s; buzzerSequence := buzzerSequence s;
     buzzerTimeout_ms := buzzerTimeout_ms s;
     play_mode_setting := play_mode_setting s;
     use_program_space := use_program_space s; octave := octave s;
     whole_note_duration := whole_note_duration s; note_type := note_type s;
     duration := duration s; volume := volume s; staccato := staccato s;
     staccato_rest_duration := v; s_timer := s_timer s;
     s_noteElapsed := s_noteElapsed s; s_ledcAttached := s_ledcAttached s;
     s_currFreq := s_currFreq s; pwm := pwm s |}.

Definition set_s_timer (v : option hw_timer) (s : state) : state :=
  {| buzzerInitialized := buzzerInitialized s;
     buzzerFinished := buzzerFinished s; buzzerSequence := buzzerSequence s;
     buzzerTimeout_ms := buzzerTimeout_ms s;
     play_mode_setting := play_mode_setting s;
     use_program_space := use_program_space s; octave := octave s;
     whole_note_duration := whole_note_duration s; note_type := note_type s;
     duration := duration s; volume := volume s; staccato := staccato s;
     staccato_rest_duration := staccato_rest_duration s; s_timer := v;
     s_noteElapsed := s_noteElapsed s; s_ledcAttached := s_ledcAttached s;
     s_currFreq := s_currFreq s; pwm := pwm s |}.

Definition set_s_noteElapsed (v : bool) (s : state) : state :=
  {| buzzerInitialized := buzzerInitialized s;
     buzzerFinished := buzzerFinished s; buzzerSequence := buzzerSequence s;
     buzzerTimeout_ms := buzzerTimeout_ms s;
     play_mode_setting := play_mode_setting s;
     use_program_space := use_program_space s; octave := octave s;
     whole_note_duration := whole_note_duration s; note_type := note_type s;
     duration := duration s; volume := volume s; staccato := staccato s;
     staccato_rest_duration := staccato_rest_duration s;
     s_timer := s_timer s; s_noteElapsed := v;
     s_ledcAttached := s_ledcAttached s; s_currFreq := s_currFreq s;
     pwm := pwm s |}.

Definition set_s_ledcAttached (v : bool) (s : state) : state :=
  {| buzzerInitialized := buzzerInitialized s;
     buzzerFinished := buzzerFinished s; buzzerSequence := buzzerSequence s;
     buzzerTimeout_ms := buzzerTimeout_ms s;
     play_mode_setting := play_mode_setting s;
     use_program_space := use_program_space s; octave := octave s;
     whole_note_duration := whole_note_duration s; note_type := note_type s;
     duration := duration s; volume := volume s; staccato := staccato s;
     staccato_rest_duration := staccato_rest_duration s;
     s_timer := s_timer s; s_noteElapsed := s_noteElapsed s;
     s_ledcAttached := v; s_currFreq := s_currFreq s; pwm := pwm s |}.

Definition set_s_currFreq (v : Z) (s : state) : state :=
  {| buzzerInitialized := buzzerInitialized s;
     buzzerFinished := buzzerFinished s; buzzerSequence := buzzerSequence s;
     buzzerTimeout_ms := buzzerTimeout_ms s;
     play_mode_setting := play_mode_setting s;
     use_program_space := use_program_space s; octave := octave s;
     whole_note_duration := whole_note_duration s; note_type := note_type s;
     duration := duration s; volume := volume s; staccato := staccato s;
     staccato_rest_duration := staccato_rest_duration s;
     s_timer := s_timer s; s_noteElapsed := s_noteElapsed s;
     s_ledcAttached := s_ledcAttached s; s_currFreq := v; pwm := pwm s |}.

Definition set_pwm (v : ledc_pin) (s : state) : state :=
  {| buzzerInitialized := buzzerInitialized s;
     buzzerFinished := buzzerFinished s; buzzerSequence := buzzerSequence s;
     buzzerTimeout_ms := buzzerTimeout_ms s;
     play_mode_setting := play_mode_setting s;
     use_program_space := use_program_space s; octave := octave s;
     whole_note_duration := whole_note_duration s; note_type := note_type s;
     duration := duration s; volume := volume s; staccato := staccato s;
     staccato_rest_duration := staccato_rest_duration s;
     s_timer := s_timer s; s_noteElapsed := s_noteElapsed s;
     s_ledcAttached := s_ledcAttached s; s_currFreq := s_currFreq s;
     pwm := v |}.

(** [p != 0] for the melody cursor. *)
Definition non_null (p : option (list Z)) : bool :=
  match p with
  | Some _ => true
  | None => false
  end.

(** ** The lexer

    The melody cursor only ever moves forward, so the functions below take
    the characters that remain and return the ones that are left.  Reading at
    the empty list reads the terminating NUL.  The flag [use_program_space]
    only selects between [pgm_read_byte] and a plain load, which read the
    same byte on this target. *)

Definition tolower (c : Z) : Z :=
  if ("A" <=? c) && (c <=? "Z") then c + ("a" - "A") else c.

(** [currentCharacter]: the lower-cased character under the cursor, after
    the cursor has been moved over any spaces. *)
Fixpoint currentCharacter (l : list Z) : Z * list Z :=
  match l with
  | [] => (0, [])
  | c0 :: l' =>
      let c := tolower c0 in
      if c =? " " then currentCharacter l' else (c, l)
  end.

Definition is_digit (c : Z) : bool := ("0" <=? c) && (c <=? "9").

(** The loop of [getNumber], entered with [arg] accumulated so far:
    [while (c >= '0' && c <= '9') { arg = arg * 10 + (c - '0');
    buzzerSequence++; c = currentCharacter(); }]. *)
Fixpoint getNumber_from (arg : Z) (l : list Z) : Z * list Z :=
  match l with
  | [] => (arg, [])
  | c0 :: l' =>
      let c := tolower c0 in
      if c =? " " then getNumber_from arg l'
      else if is_digit c then getNumber_from (u32 (arg * 10 + (c - "0"))) l'
      else (arg, l)
  end.

Definition getNumber (l : list Z) : Z * list Z := getNumber_from 0 l.

(** [while (c == '+' || c == '#') { buzzerSequence++; note++;
    c = currentCharacter(); }] *)
Fixpoint sharps (note : Z) (l : list Z) : Z * list Z :=
  match l with
  | [] => (note, [])
  | c0 :: l' =>
      let c := tolower c0 in
      if c =? " " then sharps note l'
      else if (c =? "+") || (c =? "#") then sharps (u8 (note + 1)) l'
      else (note, l)
  end.

(** [while (c == '-') { buzzerSequence++; note--; c = currentCharacter(); }] *)
Fixpoint flats (note : Z) (l : list Z) : Z * list Z :=
  match l with
  | [] => (note, [])
  | c0 :: l' =>
      let c := tolower c0 in
      if c =? " " then flats note l'
      else if c =? "-" then flats (u8 (note - 1)) l'
      else (note, l)
  end.

(** [while (currentCharacter() == '.') { buzzerSequence++;
    tmp_duration += dot_add; dot_add /= 2; }] *)
Fixpoint dots (tmp_duration dot_add : Z) (l : list Z) : Z * list Z :=
  match l with
  | [] => (tmp_duration, [])
  | c0 :: l' =>
      let c := tolower c0 in
      if c =? " " then dots tmp_duration dot_add l'
      else if c =? "." then dots (u32 (tmp_duration + dot_add)) (dot_add / 2) l'
      else (tmp_duration, l)
  end.

(** ** Driver calls of the Arduino-ESP32 core *)

Definition ledcWrite (duty : Z) (st : state) : state :=
  set_pwm {| pwm_freq := pwm_freq (pwm st); pwm_duty := duty |} st.

Definition ledcAttach (freq : Z) (st : state) : state :=
  set_pwm {| pwm_freq := freq; pwm_duty := 0 |} st.

Definition ledcChangeFrequency (freq : Z) (st : state) : state :=
  set_pwm {| pwm_freq := freq; pwm_duty := pwm_duty (pwm st) |} st.

(** [timerBegin] hands out a counting timer without an alarm. *)
Definition timerBegin : hw_timer :=
  {| tm_running := true; tm_counter := 0; tm_alarm := None |}.

Definition timerStop (t : hw_timer) : hw_timer :=
  {| tm_running := false; tm_counter := tm_counter t; tm_alarm := tm_alarm t |}.

Definition timerWrite (v : Z) (t : hw_timer) : hw_timer :=
  {| tm_running := tm_running t; tm_counter := v; tm_alarm := tm_alarm t |}.

Definition timerAlarm (us : Z) (t : hw_timer) : hw_timer :=
  {| tm_running := tm_running t; tm_counter := tm_counter t;
     tm_alarm := Some us |}.

Definition timerStart (t : hw_timer) : hw_timer :=
  {| tm_running := true; tm_counter := tm_counter t; tm_alarm := tm_alarm t |}.

(** ** Timer and LEDC helpers *)

Definition LEDC_RES_BITS : Z := 12.
Definition LEDC_DUTY_MAX : Z := u32 (Z.shiftl 1 LEDC_RES_BITS - 1).

(** The interrupt handler of the one-shot timer. *)
Definition onTimerDone (st : state) : state :=
  let st := ledcWrite 0 st in
  let st := set_buzzerFinished 1 st in
  set_s_noteElapsed true st.

(** [if (!s_timer) { s_timer = timerBegin(1000000); ... }] *)
Definition timer_of (st : state) : hw_timer :=
  match s_timer st with
  | Some t => t
  | None => timerBegin
  end.

Definition armOneShotTimer (dur_ms : Z) (st : state) : state :=
  let t := timer_of st in
  let t := timerStop t in
  let t := timerWrite 0 t in
  let us := u64 (dur_ms * 1000) in
  let t := timerAlarm us t in
  let t := timerStart t in
  set_s_timer (Some t) st.

Definition ledcEnsureSetup (freq : Z) (st : state) : state :=
  if negb (s_ledcAttached st) then
    let st := ledcAttach freq st in
    let st := set_s_ledcAttached true st in
    set_s_currFreq freq st
  else if negb (freq =? s_currFreq st) then
    let st := ledcChangeFrequency freq st in
    set_s_currFreq freq st
  else st.

(** [freq] is a [uint32_t] and [vol0_15] a [uint8_t]; the callers below pass
    values of these widths. *)
Definition ledcSetTone (freq vol0_15 : Z) (st : state) : state :=
  let freq := if freq <? 40 then 40 else freq in
  let freq := if freq >? 10000 then 10000 else freq in
  let st := ledcEnsureSetup freq st in
  if vol0_15 =? 0 then ledcWrite 0 st
  else
    let duty := u32 (vol0_15 * LEDC_DUTY_MAX) / 15 in
    ledcWrite duty st.

(** ** The constants of ZumoBuzzer.h

    The header is not part of the sources at hand, so the macros the port
    uses from it are taken as parameters: every definition and theorem of
    the section below holds for any values of them. *)
Record Header : Type := {
  PLAY_AUTOMATIC : Z;
  DIV_BY_10 : Z;
  SILENT_NOTE : Z;
  NOTE_C : Z -> Z;
  NOTE_D : Z -> Z;
  NOTE_E : Z -> Z;
  NOTE_F : Z -> Z;
  NOTE_G : Z -> Z;
  NOTE_A : Z -> Z;
  NOTE_B : Z -> Z
}.

(** The state at program start, from the initialisers of the statics. *)
Definition initial_state (hdr : Header) : state :=
  {| buzzerInitialized := 0; buzzerFinished := 1; buzzerSequence := None;
     buzzerTimeout_ms := 0; play_mode_setting := PLAY_AUTOMATIC hdr;
     use_program_space := 0; octave := 4; whole_note_duration := 2000;
     note_type := 4; duration := 500; volume := 15; staccato := 0;
     staccato_rest_duration := 0; s_timer := None; s_noteElapsed := false;
     s_ledcAttached := false; s_currFreq := 0;
     pwm := {| pwm_freq := 0; pwm_duty := 0 |} |}.

Section Buzzer.

Variable hdr : Header.

(** *** Single notes *)

Definition init2 (st : state) : state :=
  let st := ledcEnsureSetup 1000 st in
  let st := ledcWrite 0 st in
  let st := set_s_timer (Some (timer_of st)) st in
  let st := set_buzzerFinished 1 st in
  set_s_noteElapsed false st.

Definition init (st : state) : state :=
  if buzzerInitialized st =? 0 then init2 (set_buzzerInitialized 1 st)
  else st.

(** The volume [playFrequency] settles on: [vol = vol_in;
    if (vol > 15) vol = 15;]. *)
Definition clamp_volume (vol_in : Z) : Z :=
  if vol_in >? 15 then 15 else vol_in.

(** The frequency in Hz [playFrequency] passes on, from the argument that
    may carry the [DIV_BY_10] flag. *)
Definition normalize_frequency (freq : Z) : Z :=
  let multiplier := if Z.land freq (u32 (DIV_BY_10 hdr)) =? 0 then 1 else 10 in
  let freq :=
    if multiplier =? 10 then Z.land freq (u32 (Z.lnot (DIV_BY_10 hdr)))
    else freq in
  let minHz := 40 * multiplier in
  let freq := if freq <? minHz then minHz else freq in
  let freq := if (multiplier =? 1) && (freq >? 10000) then 10000 else freq in
  if multiplier =? 10 then u32 (freq + 5) / 10 else freq.

(** The arguments arrive converted to the parameter types [unsigned int],
    [unsigned int] and [unsigned char]. *)
Definition playFrequency (freq dur vol_in : Z) (st : state) : state :=
  let freq := u32 freq in
  let dur := u32 dur in
  let vol_in := u8 vol_in in
  let st := init st in
  let freq := normalize_frequency freq in
  let vol := clamp_volume vol_in in
  let st :=
    if vol =? 0 then ledcSetTone 1000 0 st else ledcSetTone freq vol st in
  let st := set_buzzerFinished 0 st in
  let st := set_s_noteElapsed false st in
  let st := set_buzzerTimeout_ms dur st in
  armOneShotTimer dur st.

(** The base table, in tenths of a hertz, of the lowest twelve notes. *)
Definition base_frequency (k : Z) : Z :=
  if k =? 0 then 412 else if k =? 1 then 437 else if k =? 2 then 463
  else if k =? 3 then 490 else if k =? 4 then 519 else if k =? 5 then 550
  else if k =? 6 then 583 else if k =? 7 then 617 else if k =? 8 then 654
  else if k =? 9 then 693 else if k =? 10 then 734 else if k =? 11 then 778
  else 0.

(** The frequency argument [playNote] computes for a sounded note. *)
Definition note_frequency (note : Z) : Z :=
  let offset_note := u8 (note - 16) in
  let offset_note :=
    if note <=? 16 then 0
    else if offset_note >? 95 then 95 else offset_note in
  let exponent := u8 (offset_note / 12) in
  let freq := base_frequency (offset_note - exponent * 12) in
  if exponent <? 7 then
    let freq := u32 (Z.shiftl freq exponent) in
    if exponent >? 1 then u32 (freq + 5) / 10
    else u32 (freq + DIV_BY_10 hdr)
  else u32 (freq * 64 + 2) / 5.

(** [note] and [vol] are [unsigned char], [dur] is [unsigned int]. *)
Definition playNote (note dur vol : Z) (st : state) : state :=
  let note := u8 note in
  let dur := u32 dur in
  let vol := u8 vol in
  if (note =? SILENT_NOTE hdr) || (vol =? 0) then playFrequency 1000 dur 0 st
  else
    let freq := note_frequency note in
    let vol := if vol >? 15 then 15 else vol in
    playFrequency freq dur vol st.

Definition isPlaying (st : state) : bool :=
  (buzzerFinished st =? 0) || non_null (buzzerSequence st).

(** *** The sequencer *)

(** What one pass through the [switch] of [nextNote] leads to. *)
Inductive token_result : Type :=
| Continue (st : state) (tmp_octave : Z) (l : list Z)
    (* goto parse_character *)
| Note (st : state) (tmp_octave : Z) (note rest : Z) (l : list Z)
    (* break: a note letter or a rest was read *)
| Stop (st : state)
    (* default: the session ends *)
| Crash (f : fault).

(** From the label [parse_character] to the end of the [switch], with the
    cursor at [l].  [note] and [rest] are still 0 here. *)
Definition parse_token (st : state) (tmp_octave : Z) (l : list Z)
  : token_result :=
  let '(c, l1) := currentCharacter l in
  let l2 := tl l1 in                      (* buzzerSequence++ *)
  if c =? ">" then Continue st (u8 (tmp_octave + 1)) l2
  else if c =? "<" then Continue st (u8 (tmp_octave - 1)) l2
  else if c =? "a" then Note st tmp_octave (u8 (NOTE_A hdr 0)) 0 l2
  else if c =? "b" then Note st tmp_octave (u8 (NOTE_B hdr 0)) 0 l2
  else if c =? "c" then Note st tmp_octave (u8 (NOTE_C hdr 0)) 0 l2
  else if c =? "d" then Note st tmp_octave (u8 (NOTE_D hdr 0)) 0 l2
  else if c =? "e" then Note st tmp_octave (u8 (NOTE_E hdr 0)) 0 l2
  else if c =? "f" then Note st tmp_octave (u8 (NOTE_F hdr 0)) 0 l2
  else if c =? "g" then Note st tmp_octave (u8 (NOTE_G hdr 0)) 0 l2
  else if c =? "l" then
    let '(n, l3) := getNumber l2 in
    let st := set_note_type n st in
    if note_type st =? 0 then Crash DivByZero
    else
      let st := set_duration (whole_note_duration st / note_type st) st in
      Continue st tmp_octave l3
  else if c =? "m" then
    let '(c', l3) := currentCharacter l2 in
    let st :=
      if c' =? "l" then set_staccato 0 st
      else set_staccato_rest_duration 0 (set_staccato 1 st) in
    match l3 with
    | _ :: l4 => Continue st tmp_octave l4
    | [] => Crash OutOfBounds   (* the cursor moved beyond the NUL *)
    end
  else if c =? "o" then
    let '(n, l3) := getNumber l2 in
    let st := set_octave (u8 n) st in
    Continue st (octave st) l3
  else if c =? "r" then Note st tmp_octave 0 1 l2
  else if c =? "t" then
    let '(n, l3) := getNumber l2 in
    if n =? 0 then Crash DivByZero
    else
      let st := set_whole_note_duration (u32 (60 * 400 / n * 10)) st in
      if note_type st =? 0 then Crash DivByZero
      else
        let st := set_duration (whole_note_duration st / note_type st) st in
        Continue st tmp_octave l3
  else if c =? "v" then
    let '(n, l3) := getNumber l2 in
    Continue (set_volume n st) tmp_octave l3
  else if c =? "!" then
    let st := set_octave 4 st in
    let st := set_whole_note_duration 2000 st in
    let st := set_note_type 4 st in
    let st := set_duration 500 st in
    let st := set_volume 15 st in
    let st := set_staccato 0 st in
    Continue st (octave st) l2
  else Stop (set_buzzerSequence None st).

(** Lines 340 to 345: the staccato split and the call of [playNote]. *)
Definition dispatch_note (st : state) (note rest tmp_duration : Z) : state :=
  let st :=
    if staccato st =? 0 then st
    else set_staccato_rest_duration (u8 (tmp_duration / 2)) st in
  let tmp_duration :=
    if staccato st =? 0 then tmp_duration
    else u32 (tmp_duration - staccato_rest_duration st) in
  playNote (if rest =? 0 then note else SILENT_NOTE hdr) tmp_duration
           (volume st) st.

(** The duration a note starts from: the default, or the whole note divided
    by the number written after the note. *)
Definition explicit_duration (st : state) (l : list Z)
  : result (Z * list Z) :=
  let c := fst (currentCharacter l) in
  if ("0" <? c) && (c <? "9") then
    let '(n, l') := getNumber l in
    if n =? 0 then Fault DivByZero
    else Ok (whole_note_duration st / n, l')
  else Ok (duration st, l).

(** From the end of the [switch] to the end of [nextNote]. *)
Definition parse_note (st : state) (tmp_octave note rest : Z) (l : list Z)
  : result state :=
  let note := u8 (note + tmp_octave * 12) in
  let '(note, l) := sharps note l in
  let '(note, l) := flats note l in
  r <- explicit_duration st l ;;
  let '(tmp_duration, l) := r in
  let dot_add := tmp_duration / 2 in
  let '(tmp_duration, l) := dots tmp_duration dot_add l in
  let st := set_buzzerSequence (Some l) st in
  Ok (dispatch_note st note rest tmp_duration).

(** The loop formed by the [goto]s back to [parse_character]; every pass
    consumes a character, so [fuel] beyond the length of [l] is never used
    up. *)
Fixpoint parse_character (fuel : nat) (st : state) (tmp_octave : Z)
  (l : list Z) : result state :=
  match fuel with
  | O => Fault OutOfFuel
  | S fuel' =>
      match parse_token st tmp_octave l with
      | Continue st' tmp_octave' l' => parse_character fuel' st' tmp_octave' l'
      | Note st' tmp_octave' note rest l' =>
          parse_note st' tmp_octave' note rest l'
      | Stop st' => Ok st'
      | Crash f => Fault f
      end
  end.

(** The parser entered at [parse_character] with the cursor at [l]. *)
Definition parse_from (st : state) (tmp_octave : Z) (l : list Z)
  : result state :=
  parse_character (S (List.length l)) st tmp_octave l.

Definition nextNote (st : state) : result state :=
  if negb (staccato st =? 0) && negb (staccato_rest_duration st =? 0) then
    let st' := playNote (SILENT_NOTE hdr) (staccato_rest_duration st) 0 st in
    Ok (set_staccato_rest_duration 0 st')
  else
    match buzzerSequence st with
    | Some l => parse_from st (octave st) l
    | None => Fault NullPointer
    end.

Definition play (notes : list Z) (st : state) : result state :=
  let st := set_buzzerSequence (Some notes) st in
  let st := set_use_program_space 0 st in
  let st := set_staccato_rest_duration 0 st in
  nextNote st.

Definition playFromProgramSpace (notes_p : list Z) (st : state)
  : result state :=
  let st := set_buzzerSequence (Some notes_p) st in
  let st := set_use_program_space 1 st in
  let st := set_staccato_rest_duration 0 st in
  nextNote st.

Definition stopPlaying (st : state) : state :=
  let st := ledcWrite 0 st in
  let st :=
    match s_timer st with
    | Some t => set_s_timer (Some (timerStop t)) st
    | None => st
    end in
  let st := set_buzzerFinished 1 st in
  set_buzzerSequence None st.

Definition automatic (st : state) : bool :=
  play_mode_setting st =? PLAY_AUTOMATIC hdr.

Definition playCheck (st : state) : result (state * bool) :=
  st <- (if s_noteElapsed st then
           let st := set_s_noteElapsed false st in
           if non_null (buzzerSequence st) && automatic st then nextNote st
           else Ok st
         else Ok st) ;;
  st <- (if negb (buzzerFinished st =? 0) && non_null (buzzerSequence st)
            && automatic st
         then nextNote st else Ok st) ;;
  Ok (st, non_null (buzzerSequence st)).

Definition playMode (mode : Z) (st : state) : result state :=
  let st := set_play_mode_setting (u8 mode) st in
  if u8 mode =? PLAY_AUTOMATIC hdr then
    r <- playCheck st ;; Ok (fst r)
  else Ok st.

End Buzzer.

(** ** A concrete header *)

(** Modelled from the spec: ZumoBuzzer.h is missing from the sources.  The
    note offsets are the ones the spec lists for octave 0 (c=0, d=2, e=4,
    f=5, g=7, a=9, b=11, twelve semitones per octave); the tenths-of-hertz
    flag is a high bit of a 16-bit frequency, the silent note is the largest
    [unsigned char], and the automatic play mode is mode 0.  The theorems
    about the code do not depend on these values; the worked examples are
    evaluated with them. *)
Definition zumo_header : Header :=
  {| PLAY_AUTOMATIC := 0;
     DIV_BY_10 := Z.shiftl 1 15;
     SILENT_NOTE := 255;
     NOTE_C := fun x => 0 + x * 12;
     NOTE_D := fun x => 2 + x * 12;
     NOTE_E := fun x => 4 + x * 12;
     NOTE_F := fun x => 5 + x * 12;
     NOTE_G := fun x => 7 + x * 12;
     NOTE_A := fun x => 9 + x * 12;
     NOTE_B := fun x => 11 + x * 12 |}.

Definition default_state : state := initial_state zumo_header.

(** * The UART link of Pixy2UART.h

    [Link2UART::recv] polls the serial port.  The port is modelled by the
    results its next calls of [read] are going to return, in order: a byte,
    or -1 when nothing has arrived yet; with the list used up, nothing
    arrives any more.  The delay between two polls takes time and changes
    nothing else. *)

Definition u16 (z : Z) : Z := z mod 65536.

(** [Serial2.read()] *)
Definition serial_read (rx : list Z) : Z * list Z :=
  match rx with
  | [] => (-1, [])
  | c :: rx' => (c, rx')
  end.

(** The inner [while (true)] loop of [recv], entered with [spins] such that
    [retries] = 200 - [spins]: read; leave the loop with the byte if there
    is one; give up if [spins++ >= 200]; poll again otherwise. *)
Fixpoint wait_byte (retries : nat) (rx : list Z) : option Z * list Z :=
  let '(c, rx') := serial_read rx in
  if c >=? 0 then (Some c, rx')
  else
    match retries with
    | O => (None, rx')
    | S retries' => wait_byte retries' rx'
    end.

(** What a call of [recv] leaves behind: the value returned, the bytes
    written to [buf] (from index 0 on), the checksum accumulated in [*cs],
    and the port. *)
Record recv_result : Type := {
  recv_ret : Z;
  recv_buf : list Z;
  recv_cs : Z;
  recv_rx : list Z
}.

(** The [for] loop of [recv] with [n] bytes still to come, [buf] written
    and [cs] accumulated so far; [len] is the value returned at the end. *)
Fixpoint recv_loop (len : Z) (n : nat) (buf : list Z) (cs : Z) (rx : list Z)
  : recv_result :=
  match n with
  | O => {| recv_ret := len; recv_buf := buf; recv_cs := cs; recv_rx := rx |}
  | S n' =>
      match wait_byte 200 rx with
      | (None, rx') =>
          {| recv_ret := -1; recv_buf := buf; recv_cs := cs; recv_rx := rx' |}
      | (Some c, rx') =>
          let b := u8 c in
          recv_loop len n' (buf ++ [b]) (u16 (cs + b)) rx'
      end
  end.

(** [recv(buf, len, cs)], with [len] a [uint8_t] and [cs] not null. *)
Definition recv (len : Z) (rx : list Z) : recv_result :=
  recv_loop (u8 len) (Z.to_nat (u8 len)) [] 0 rx.

(** * Vocabulary of the statements *)

Definition in_u8 (z : Z) : Prop := 0 <= z < 256.
Definition in_u32 (z : Z) : Prop := 0 <= z < 4294967296.

(** The timer as [armOneShotTimer] leaves it: counting from zero towards a
    one-shot alarm. *)
Definition armed (us : Z) : hw_timer :=
  {| tm_running := true; tm_counter := 0; tm_alarm := Some us |}.

(** Whether the duration timer is counting. *)
Definition timer_running (st : state) : bool :=
  match s_timer st with
  | Some t => tm_running t
  | None => false
  end.

(** The part of the state the sequencer owns and the playback primitives
    leave alone. *)
Definition sequencer_view (st : state) :=
  (buzzerSequence st, use_program_space st, play_mode_setting st,
   octave st, whole_note_duration st, note_type st, duration st,
   volume st, staccato st, staccato_rest_duration st).

(** The timing bookkeeping of a note. *)
Definition timing_view (st : state) :=
  (buzzerFinished st, s_noteElapsed st, buzzerTimeout_ms st, s_timer st).

(** A decimal digit character. *)
Definition digit (c : Z) : Prop := "0" <= c <= "9".

(** The number a digit sequence denotes, most significant digit first,
    starting from [acc]. *)
Definition digits_value_from (acc : Z) (ds : list Z) : Z :=
  fold_left (fun a d => a * 10 + (d - "0")) ds acc.

Definition digits_value (ds : list Z) : Z := digits_value_from 0 ds.

(** The total a run of dots adds: the pending increment, then half of it,
    then a quarter, and so on, each by truncating division. *)
Fixpoint dot_increments (dot_add : Z) (k : nat) : Z :=
  match k with
  | O => 0
  | S k' => dot_add + dot_increments (dot_add / 2) k'
  end.

(** The net shift a run of [>] and [<] tokens asks for. *)
Definition octave_shift (ts : list Z) : Z :=
  Z.of_nat (count_occ Z.eq_dec ts ">") - Z.of_nat (count_occ Z.eq_dec ts "<").

(** The (lower-cased) characters the [switch] has a case for. *)
Definition token_start (c : Z) : bool :=
  existsb (fun x => c =? x)
    [">"; "<"; "a"; "b"; "c"; "d"; "e"; "f"; "g"; "l"; "m"; "o"; "r"; "t";
     "v"; "!"].

(** The (lower-cased) characters that start a note or a rest. *)
Definition note_letter (c : Z) : bool :=
  existsb (fun x => c =? x) ["a"; "b"; "c"; "d"; "e"; "f"; "g"; "r"].

(** The note number of octave 0 that the [switch] of [nextNote] assigns for
    a (lower-cased) note letter; nothing for any other character. *)
Definition letter_note (hdr : Header) (c : Z) : option Z :=
  if c =? "a" then Some (NOTE_A hdr 0)
  else if c =? "b" then Some (NOTE_B hdr 0)
  else if c =? "c" then Some (NOTE_C hdr 0)
  else if c =? "d" then Some (NOTE_D hdr 0)
  else if c =? "e" then Some (NOTE_E hdr 0)
  else if c =? "f" then Some (NOTE_F hdr 0)
  else if c =? "g" then Some (NOTE_G hdr 0)
  else None.

(** The values of the music settings fit the C types of their variables,
    and the note type is not 0. *)
Record wf_state (st : state) : Prop := {
  wf_octave : in_u8 (octave st);
  wf_whole : in_u32 (whole_note_duration st);
  wf_note_type : 0 < note_type st < 4294967296;
  wf_duration : in_u32 (duration st);
  wf_volume : in_u32 (volume st);
  wf_staccato : in_u8 (staccato st);
  wf_rest : in_u8 (staccato_rest_duration st);
  wf_timeout : in_u32 (buzzerTimeout_ms st)
}.

(** A pending expiry is only ever recorded together with the finished
    flag. *)
Definition flags_ok (st : state) : Prop :=
  s_noteElapsed st = true -> buzzerFinished st <> 0.

Definition invariant (st : state) : Prop := wf_state st /\ flags_ok st.

(** The states the program can be in: after any sequence of calls of the
    public functions and expiries of the timer that did not fault. *)
Inductive reachable (hdr : Header) : state -> Prop :=
| reach_start : reachable hdr (initial_state hdr)
| reach_play notes st st' :
    reachable hdr st -> play hdr notes st = Ok st' -> reachable hdr st'
| reach_playFromProgramSpace notes st st' :
    reachable hdr st -> playFromProgramSpace hdr notes st = Ok st' ->
    reachable hdr st'
| reach_playCheck st st' b :
    reachable hdr st -> playCheck hdr st = Ok (st', b) -> reachable hdr st'
| reach_playMode mode st st' :
    reachable hdr st -> playMode hdr mode st = Ok st' -> reachable hdr st'
| reach_stopPlaying st : reachable hdr st -> reachable hdr (stopPlaying st)
| reach_playNote note dur vol st :
    reachable hdr st -> reachable hdr (playNote hdr note dur vol st)
| reach_playFrequency freq dur vol st :
    reachable hdr st -> reachable hdr (playFrequency hdr freq dur vol st)
| reach_onTimerDone st : reachable hdr st -> reachable hdr (onTimerDone st).

(** Everything but the music settings and the cursor: what the [switch] of
    [nextNote] never writes. *)
Definition driver_view (st : state) :=
  (buzzerInitialized st, buzzerFinished st, buzzerTimeout_ms st,
   play_mode_setting st, use_program_space st, s_timer st, s_noteElapsed st,
   s_ledcAttached st, s_currFreq st, pwm st).

(** Whether [nextNote] would play a pending staccato rest. *)
Definition rest_pending (st : state) : bool :=
  negb (staccato st =? 0) && negb (staccato_rest_duration st =? 0).

(** What is left to do of a session: two steps for every remaining
    character, one more for a pending staccato rest. *)
Definition remaining_work (st : state) : nat :=
  match buzzerSequence st with
  | Some l => 2 * List.length l + (if rest_pending st then 1 else 0)
  | None => 0
  end.

(** The caller's loop while a melody plays: the timer of the current note
    expires, then [playCheck] is polled; this is repeated, at most [n]
    times, for as long as [playCheck] reports an active session. *)
Fixpoint run_melody (hdr : Header) (n : nat) (st : state)
  : result (state * bool) :=
  match n with
  | O => Ok (st, non_null (buzzerSequence st))
  | S n' =>
      r <- playCheck hdr (onTimerDone st) ;;
      if snd r then run_melody hdr n' (fst r) else Ok r
  end.

(** The LEDC bookkeeping is consistent: once the pin is attached,
    [s_currFreq] is the frequency the channel runs at and lies in the band
    [ledcSetTone] clamps to; the duty never exceeds the 12-bit full scale. *)
Definition ledc_ok (st : state) : Prop :=
  (s_ledcAttached st = true ->
   pwm_freq (pwm st) = s_currFreq st /\ 40 <= s_currFreq st <= 10000) /\
  0 <= pwm_duty (pwm st) <= LEDC_DUTY_MAX.

(** The default note duration is the whole note divided by the note type. *)
Definition default_duration_ok (st : state) : Prop :=
  duration st = whole_note_duration st / note_type st.

(** [ledcSetTone]'s clamp of the frequency to 40 Hz .. 10 kHz. *)
Definition clamp_frequency (freq : Z) : Z :=
  let freq := if freq <? 40 then 40 else freq in
  if freq >? 10000 then 10000 else freq.

(** The frequency in Hz a sounded note ends up with: [playNote]'s table
    value, as [playFrequency] normalises it and [ledcSetTone] clamps it. *)
Definition note_hz (hdr : Header) (note : Z) : Z :=
  clamp_frequency (normalize_frequency hdr (u32 (note_frequency hdr note))).

(** A sharp sign and a flat sign. *)
Definition sharp_sign (c : Z) : Prop := c = "+" \/ c = "#".
Definition flat_sign (c : Z) : Prop := c = "-".

(** Two facts that go together through every call: the LEDC bookkeeping is
    consistent and the default duration is the whole note divided by the
    note type. *)
Definition settled (st : state) : Prop :=
  ledc_ok st /\ default_duration_ok st.

(** A melody without its spaces and in lower case. *)
Fixpoint canon (l : list Z) : list Z :=
  match l with
  | [] => []
  | c :: l' => if tolower c =? " " then canon l' else tolower c :: canon l'
  end.

(** The same state with the rest of the melody brought into that form. *)
Definition canon_state (st : state) : state :=
  set_buzzerSequence (option_map canon (buzzerSequence st)) st.

Definition map_result {A B : Type} (f : A -> B) (r : result A) : result B :=
  match r with
  | Ok a => Ok (f a)
  | Fault e => Fault e
  end.

(** A result of the [switch] with another state and another cursor in
    it. *)
Definition map_token (f : state -> state) (g : list Z -> list Z)
  (r : token_result) : token_result :=
  match r with
  | Continue st o l => Continue (f st) o (g l)
  | Note st o note rest l => Note (f st) o note rest (g l)
  | Stop st => Stop (f st)
  | Crash e => Crash e
  end.

(** What the port delivers for one byte that arrives after [gap] polls
    that found nothing. *)
Definition arrival (item : nat * Z) : list Z :=
  repeat (-1) (fst item) ++ [snd item].

(** A byte that arrives in time: after at most 200 empty polls. *)
Definition in_time (item : nat * Z) : Prop :=
  (fst item <= 200)%nat /\ in_u8 (snd item).

(** The 16-bit checksum of a list of bytes. *)
Definition checksum (bytes : list Z) : Z :=
  u16 (fold_left Z.add bytes 0).

(** * Proof automation *)

Ltac case_ifs :=
  repeat match goal with
         | |- context [if ?b then _ else _] => destruct b
         end.

Ltac split_ifs :=
  repeat match goal with
         | H : context [if ?b then _ else _] |- _ => destruct b eqn:?
         end.

(** * Properties *)

(** ** Fixed-width arithmetic *)

Lemma u8_range (z : Z) : in_u8 (u8 z).
Proof. unfold in_u8, u8. apply Z.mod_pos_bound. lia. Qed.

Lemma u32_range (z : Z) : in_u32 (u32 z).
Proof. unfold in_u32, u32. apply Z.mod_pos_bound. lia. Qed.

Lemma u8_id (z : Z) : in_u8 z -> u8 z = z.
Proof. unfold in_u8, u8. intros H. apply Z.mod_small. exact H. Qed.

Lemma u32_id (z : Z) : in_u32 z -> u32 z = z.
Proof. unfold in_u32, u32. intros H. apply Z.mod_small. exact H. Qed.

Lemma u64_id (z : Z) : 0 <= z < 18446744073709551616 -> u64 z = z.
Proof. unfold u64. intros H. apply Z.mod_small. exact H. Qed.

Lemma u32_idem (z : Z) : u32 (u32 z) = u32 z.
Proof. apply u32_id, u32_range. Qed.

Lemma u8_idem (z : Z) : u8 (u8 z) = u8 z.
Proof. apply u8_id, u8_range. Qed.

Lemma in_u32_div (a b : Z) : in_u32 a -> 0 < b -> in_u32 (a / b).
Proof.
  unfold in_u32. intros Ha Hb. split.
  - apply Z.div_pos; lia.
  - apply Z.le_lt_trans with a; [|lia].
    apply Z.div_le_upper_bound; nia.
Qed.

(** ** The lexer *)

(** Lower-casing twice is lower-casing once. *)
Lemma tolower_idem c : tolower (tolower c) = tolower c.
Proof.
  unfold tolower.
  destruct (("A" <=? c) && (c <=? "Z")) eqn:E1.
  - apply andb_true_iff in E1.
    destruct (Z.leb_spec "A" (c + ("a" - "A"))); [|reflexivity].
    destruct (Z.leb_spec (c + ("a" - "A")) "Z"); [lia|reflexivity].
  - rewrite E1. reflexivity.
Qed.

(** A character that survives lower-casing and is not a space is returned
    by [currentCharacter] where it stands. *)
Lemma currentCharacter_cons (c : Z) (l : list Z) :
  tolower c <> " " -> currentCharacter (c :: l) = (tolower c, c :: l).
Proof.
  intros H. simpl. destruct (Z.eqb_spec (tolower c) " ") as [E|_].
  - contradiction.
  - reflexivity.
Qed.

Lemma currentCharacter_space (l : list Z) :
  currentCharacter (" " :: l) = currentCharacter l.
Proof. reflexivity. Qed.

Lemma currentCharacter_not_space (l : list Z) :
  fst (currentCharacter l) <> " ".
Proof.
  induction l as [|c l IH]; simpl.
  - discriminate.
  - destruct (Z.eqb_spec (tolower c) " ") as [E|N]; simpl; assumption.
Qed.

Lemma currentCharacter_length (l : list Z) :
  (List.length (snd (currentCharacter l)) <= List.length l)%nat.
Proof.
  induction l as [|c l IH]; simpl.
  - lia.
  - destruct (tolower c =? " "); simpl; lia.
Qed.

(** The cursor [currentCharacter] leaves is a fixed point: a second call
    reads the same character and does not move. *)
Lemma currentCharacter_idem (l : list Z) :
  currentCharacter (snd (currentCharacter l)) = currentCharacter l.
Proof.
  induction l as [|c l IH]; simpl.
  - reflexivity.
  - destruct (Z.eqb_spec (tolower c) " ") as [E|N]; simpl.
    + exact IH.
    + destruct (Z.eqb_spec (tolower c) " "); [contradiction|reflexivity].
Qed.

(** At the terminating NUL the cursor stays; elsewhere the character read
    is the lower-cased head of what is left. *)
Lemma currentCharacter_shape (l : list Z) :
  match snd (currentCharacter l) with
  | [] => fst (currentCharacter l) = 0
  | c0 :: _ => fst (currentCharacter l) = tolower c0
  end.
Proof.
  induction l as [|c l IH]; simpl.
  - reflexivity.
  - destruct (tolower c =? " "); simpl; [exact IH | reflexivity].
Qed.

(** The loops below are written by recursion on the remaining characters;
    these equations give them the shape of the source: read with
    [currentCharacter], test, advance the cursor by one. *)
Lemma getNumber_from_eq (arg : Z) (l : list Z) :
  getNumber_from arg l =
    let '(c, l1) := currentCharacter l in
    if is_digit c then getNumber_from (u32 (arg * 10 + (c - "0"))) (tl l1)
    else (arg, l1).
Proof.
  induction l as [|c0 l IH]; simpl.
  - reflexivity.
  - destruct (Z.eqb_spec (tolower c0) " ") as [E|N].
    + exact IH.
    + destruct (is_digit (tolower c0)); reflexivity.
Qed.

Lemma sharps_eq (note : Z) (l : list Z) :
  sharps note l =
    let '(c, l1) := currentCharacter l in
    if (c =? "+") || (c =? "#") then sharps (u8 (note + 1)) (tl l1)
    else (note, l1).
Proof.
  induction l as [|c0 l IH]; simpl.
  - reflexivity.
  - destruct (Z.eqb_spec (tolower c0) " ") as [E|N].
    + exact IH.
    + destruct ((tolower c0 =? "+") || (tolower c0 =? "#")); reflexivity.
Qed.

Lemma flats_eq (note : Z) (l : list Z) :
  flats note l =
    let '(c, l1) := currentCharacter l in
    if c =? "-" then flats (u8 (note - 1)) (tl l1) else (note, l1).
Proof.
  induction l as [|c0 l IH]; simpl.
  - reflexivity.
  - destruct (Z.eqb_spec (tolower c0) " ") as [E|N].
    + exact IH.
    + destruct (tolower c0 =? "-"); reflexivity.
Qed.

Lemma dots_eq (tmp_duration dot_add : Z) (l : list Z) :
  dots tmp_duration dot_add l =
    let '(c, l1) := currentCharacter l in
    if c =? "." then
      dots (u32 (tmp_duration + dot_add)) (dot_add / 2) (tl l1)
    else (tmp_duration, l1).
Proof.
  induction l as [|c0 l IH]; simpl.
  - reflexivity.
  - destruct (Z.eqb_spec (tolower c0) " ") as [E|N].
    + exact IH.
    + destruct (tolower c0 =? "."); reflexivity.
Qed.

(** ** Termination of the parser *)

Lemma getNumber_from_length (l : list Z) :
  forall arg,
    (List.length (snd (getNumber_from arg l)) <= List.length l)%nat.
Proof.
  induction l as [|c l IH]; intros arg; simpl.
  - lia.
  - destruct (tolower c =? " ").
    + specialize (IH arg). lia.
    + destruct (is_digit (tolower c)); simpl.
      * specialize (IH (u32 (arg * 10 + (tolower c - "0")))). lia.
      * lia.
Qed.

Lemma getNumber_length (l : list Z) :
  (List.length (snd (getNumber l)) <= List.length l)%nat.
Proof. apply getNumber_from_length. Qed.

Section Termination.

Variable hdr : Header.

(** Every pass through the [switch] that jumps back has consumed at least
    one character. *)
Lemma parse_token_Continue_length st o l st' o' l' :
  parse_token hdr st o l = Continue st' o' l' ->
  (List.length l' < List.length l)%nat.
Proof.
  unfold parse_token.
  pose proof (currentCharacter_length l) as Hlen.
  pose proof (currentCharacter_shape l) as Hshape.
  destruct (currentCharacter l) as [c l1]. simpl in Hlen, Hshape.
  destruct l1 as [|c0 l2].
  - subst c. simpl. discriminate.
  - simpl tl. simpl in Hlen. clear Hshape.
    pose proof (getNumber_length l2) as Hnum.
    pose proof (currentCharacter_length l2) as Hcur.
    destruct (getNumber l2) as [n l3].
    destruct (currentCharacter l2) as [c' l3'].
    simpl in Hnum, Hcur.
    intros H. split_ifs; try discriminate;
      try (injection H as <- <- <-; lia).
    + destruct l3' as [|x l4]; [discriminate|].
      injection H as <- <- <-. simpl in Hcur. lia.
    + destruct l3' as [|x l4]; [discriminate|].
      injection H as <- <- <-. simpl in Hcur. lia.
Qed.

(** The only faults a pass can raise are the two undefined behaviours. *)
Lemma parse_token_Crash st o l f :
  parse_token hdr st o l = Crash f -> f = DivByZero \/ f = OutOfBounds.
Proof.
  unfold parse_token.
  destruct (currentCharacter l) as [c l1].
  destruct (getNumber (tl l1)) as [n l3].
  destruct (currentCharacter (tl l1)) as [c' l3'].
  intros H. split_ifs; try discriminate;
    try (injection H as <-; auto);
    destruct l3'; try discriminate; injection H as <-; auto.
Qed.

(** Fuel beyond the number of remaining characters makes no difference. *)
Lemma parse_character_fuel :
  forall f1 f2 st o l,
    (List.length l < f1)%nat -> (List.length l < f2)%nat ->
    parse_character hdr f1 st o l = parse_character hdr f2 st o l.
Proof.
  induction f1 as [|f1 IH]; intros f2 st o l H1 H2.
  - lia.
  - destruct f2 as [|f2]; [lia|]. simpl.
    destruct (parse_token hdr st o l) as [st' o' l'| | |] eqn:E;
      try reflexivity.
    apply parse_token_Continue_length in E.
    apply IH; lia.
Qed.

(** The parser, unfolded once: one pass of the [switch], then what the pass
    leads to. *)
Lemma parse_from_eq st o l :
  parse_from hdr st o l =
    match parse_token hdr st o l with
    | Continue st' o' l' => parse_from hdr st' o' l'
    | Note st' o' note rest l' => parse_note hdr st' o' note rest l'
    | Stop st' => Ok st'
    | Crash f => Fault f
    end.
Proof.
  unfold parse_from at 1. simpl.
  destruct (parse_token hdr st o l) as [st' o' l'| | |] eqn:E;
    try reflexivity.
  apply parse_token_Continue_length in E.
  unfold parse_from. apply parse_character_fuel; lia.
Qed.

Lemma parse_note_no_OutOfFuel st o note rest l :
  parse_note hdr st o note rest l <> Fault OutOfFuel.
Proof.
  unfold parse_note, explicit_duration.
  destruct (sharps _ l) as [n1 l1].
  destruct (flats n1 l1) as [n2 l2].
  destruct (("0" <? fst (currentCharacter l2)) &&
            (fst (currentCharacter l2) <? "9")).
  - destruct (getNumber l2) as [n l3].
    destruct (n =? 0); simpl; [discriminate|].
    destruct (dots _ _ l3); discriminate.
  - simpl. destruct (dots _ _ l2); discriminate.
Qed.

(** The parser always comes back: with a state, or with one of the two
    undefined behaviours, never for want of fuel. *)
Lemma parse_from_total :
  forall n st o l,
    (List.length l < n)%nat -> parse_from hdr st o l <> Fault OutOfFuel.
Proof.
  induction n as [|n IH]; intros st o l Hn.
  - lia.
  - rewrite parse_from_eq.
    destruct (parse_token hdr st o l) as [st' o' l'| | |f] eqn:E.
    + apply parse_token_Continue_length in E. apply IH. lia.
    + apply parse_note_no_OutOfFuel.
    + discriminate.
    + apply parse_token_Crash in E. destruct E; subst; discriminate.
Qed.

Lemma nextNote_total st : nextNote hdr st <> Fault OutOfFuel.
Proof.
  unfold nextNote.
  destruct (negb (staccato st =? 0) && negb (staccato_rest_duration st =? 0)).
  - discriminate.
  - destruct (buzzerSequence st) as [l|]; [|discriminate].
    apply parse_from_total with (S (List.length l)). lia.
Qed.

End Termination.

(** ** Single notes: what a call of [playFrequency] leaves behind *)

Lemma armOneShotTimer_timer dur st :
  s_timer (armOneShotTimer dur st) = Some (armed (u64 (dur * 1000))).
Proof. reflexivity. Qed.

Lemma ledcEnsureSetup_view freq st :
  sequencer_view (ledcEnsureSetup freq st) = sequencer_view st /\
  timing_view (ledcEnsureSetup freq st) = timing_view st /\
  buzzerInitialized (ledcEnsureSetup freq st) = buzzerInitialized st.
Proof. unfold ledcEnsureSetup. case_ifs; repeat split. Qed.

Lemma ledcSetTone_view freq vol st :
  sequencer_view (ledcSetTone freq vol st) = sequencer_view st /\
  timing_view (ledcSetTone freq vol st) = timing_view st /\
  buzzerInitialized (ledcSetTone freq vol st) = buzzerInitialized st.
Proof.
  unfold ledcSetTone.
  match goal with
  | |- context [ledcEnsureSetup ?f st] =>
      destruct (ledcEnsureSetup_view f st) as (H1 & H2 & H3);
      generalize dependent (ledcEnsureSetup f st)
  end.
  intros s H1 H2 H3. destruct (vol =? 0); repeat split; assumption.
Qed.

Lemma ledcSetTone_duty freq vol st :
  pwm_duty (pwm (ledcSetTone freq vol st)) = u32 (vol * LEDC_DUTY_MAX) / 15.
Proof.
  unfold ledcSetTone. destruct (Z.eqb_spec vol 0) as [->|_]; reflexivity.
Qed.

Section Playback.

Variable hdr : Header.

Lemma init_view st :
  sequencer_view (init st) = sequencer_view st.
Proof.
  unfold init, init2. destruct (buzzerInitialized st =? 0); [|reflexivity].
  destruct (ledcEnsureSetup_view 1000 (set_buzzerInitialized 1 st))
    as (H & _ & _).
  exact H.
Qed.

Lemma playFrequency_view freq dur vol st :
  sequencer_view (playFrequency hdr freq dur vol st) = sequencer_view st.
Proof.
  unfold playFrequency. rewrite <- (init_view st).
  generalize (init st). intros s.
  destruct (clamp_volume (u8 vol) =? 0);
    match goal with
    | |- context [ledcSetTone ?f ?v s] =>
        destruct (ledcSetTone_view f v s) as (H & _ & _); exact H
    end.
Qed.

Lemma playFrequency_timing freq dur vol st :
  timing_view (playFrequency hdr freq dur vol st) =
    (0, false, u32 dur, Some (armed (u64 (u32 dur * 1000)))).
Proof. reflexivity. Qed.

Lemma playFrequency_duty freq dur vol st :
  pwm_duty (pwm (playFrequency hdr freq dur vol st)) =
    u32 (clamp_volume (u8 vol) * LEDC_DUTY_MAX) / 15.
Proof.
  unfold playFrequency. simpl.
  destruct (Z.eqb_spec (clamp_volume (u8 vol)) 0) as [E|_].
  - rewrite E. apply ledcSetTone_duty.
  - apply ledcSetTone_duty.
Qed.

Lemma playNote_view note dur vol st :
  sequencer_view (playNote hdr note dur vol st) = sequencer_view st.
Proof.
  unfold playNote. case_ifs; apply playFrequency_view.
Qed.

Lemma playNote_timing note dur vol st :
  timing_view (playNote hdr note dur vol st) =
    (0, false, u32 dur, Some (armed (u64 (u32 dur * 1000)))).
Proof.
  unfold playNote. case_ifs; rewrite playFrequency_timing, u32_idem;
    reflexivity.
Qed.


End Playback.

(** ** Numbers in the melody *)

Lemma tolower_digit c : digit c -> tolower c = c.
Proof.
  unfold digit, tolower. intros H.
  destruct (Z.leb_spec "A" c); [lia|]. reflexivity.
Qed.

Lemma is_digit_true c : digit c -> is_digit c = true.
Proof. unfold digit, is_digit. intros H. apply andb_true_iff. lia. Qed.

Lemma is_digit_false c : ~ digit c -> is_digit c = false.
Proof.
  unfold digit, is_digit. intros H. apply andb_false_iff.
  destruct (Z.leb_spec "0" c); [|auto].
  destruct (Z.leb_spec c "9"); [lia|auto].
Qed.

Lemma digits_value_from_nonneg ds :
  Forall digit ds -> forall acc, 0 <= acc -> 0 <= digits_value_from acc ds.
Proof.
  unfold digits_value_from.
  induction 1 as [|d ds Hd _ IH]; intros acc Hacc; simpl.
  - exact Hacc.
  - apply IH. unfold digit in Hd. lia.
Qed.

(** Reading stops at the first character, spaces apart, that is not a
    digit; what was read is the denoted number modulo 2^32. *)
Lemma getNumber_from_digits ds rest :
  Forall digit ds ->
  is_digit (fst (currentCharacter rest)) = false ->
  forall arg,
    getNumber_from (u32 arg) (ds ++ rest) =
      (u32 (digits_value_from arg ds), snd (currentCharacter rest)).
Proof.
  intros Hds Hrest.
  induction Hds as [|d ds Hd _ IH]; intros arg.
  - simpl. rewrite getNumber_from_eq.
    destruct (currentCharacter rest) as [c l1]. simpl in Hrest.
    rewrite Hrest. reflexivity.
  - simpl. rewrite (tolower_digit d Hd).
    destruct (Z.eqb_spec d " ") as [E|_].
    + unfold digit in Hd. lia.
    + rewrite (is_digit_true d Hd).
      replace (u32 (u32 arg * 10 + (d - "0")))
        with (u32 (arg * 10 + (d - "0"))).
      * rewrite IH. reflexivity.
      * unfold u32.
        rewrite (Z.add_mod (arg * 10)), (Z.mul_mod arg) by lia.
        rewrite (Z.add_mod (_ * 10)), (Z.mul_mod (arg mod _)) by lia.
        rewrite Z.mod_mod by lia. reflexivity.
Qed.

Lemma getNumber_digits ds rest :
  Forall digit ds ->
  is_digit (fst (currentCharacter rest)) = false ->
  getNumber (ds ++ rest) =
    (u32 (digits_value ds), snd (currentCharacter rest)).
Proof.
  intros Hds Hrest. unfold getNumber, digits_value.
  change 0 with (u32 0) at 1.
  apply getNumber_from_digits; assumption.
Qed.

(** Without a digit under the cursor the number read is 0. *)
Lemma getNumber_no_digit l :
  is_digit (fst (currentCharacter l)) = false ->
  getNumber l = (0, snd (currentCharacter l)).
Proof.
  intros H. apply (getNumber_digits [] l (Forall_nil _) H).
Qed.

(** ** Tokens that set the playback state *)

Section Tokens.

Variable hdr : Header.

(** How the [switch] sees a character that is not a space. *)
Lemma parse_token_head st o c l :
  tolower c <> " " ->
  parse_token hdr st o (c :: l) =
    parse_token hdr st o (tolower c :: l) /\
  currentCharacter (c :: l) = (tolower c, c :: l).
Proof.
  intros H. split.
  - unfold parse_token.
    rewrite (currentCharacter_cons c l H).
    rewrite currentCharacter_cons by (rewrite tolower_idem; exact H).
    rewrite tolower_idem. reflexivity.
  - apply currentCharacter_cons. exact H.
Qed.

(** [play] clears the pending staccato rest, so it always starts parsing at
    the first character of the melody. *)
Lemma play_parses notes st :
  play hdr notes st =
    parse_from hdr
      (set_staccato_rest_duration 0
         (set_use_program_space 0 (set_buzzerSequence (Some notes) st)))
      (octave st) notes.
Proof.
  unfold play, nextNote. simpl. rewrite andb_false_r. reflexivity.
Qed.

(** [nextNote] parses from the cursor unless a staccato rest is pending. *)
Lemma nextNote_parses st l :
  buzzerSequence st = Some l ->
  staccato st = 0 \/ staccato_rest_duration st = 0 ->
  nextNote hdr st = parse_from hdr st (octave st) l.
Proof.
  intros Hl Hs. unfold nextNote. rewrite Hl.
  destruct Hs as [-> | ->]; simpl; [|rewrite andb_false_r]; reflexivity.
Qed.

Lemma tempo_value_range n : 0 < n -> in_u32 (60 * 400 / n * 10).
Proof.
  intros Hn. unfold in_u32.
  assert (0 <= 60 * 400 / n) by (apply Z.div_pos; lia).
  assert (60 * 400 / n <= 60 * 400)
    by (apply Z.div_le_upper_bound; nia).
  lia.
Qed.

(** C4, as the code has it: a tempo token [t<number>] whose number reads as
    n > 0 sets the whole-note duration to 60 * 400 / n * 10, dividing before
    the multiplication by 10, and recomputes the default duration as the new
    whole-note duration divided by the note type; parsing then goes on
    behind the number.  The number is read into an [unsigned int], so n is
    the denoted number modulo 2^32, not the denoted number.  The note type
    is never 0 in a state the program can be in, since setting it to 0
    faults. *)
Theorem tempo_token st o c ds rest :
  tolower c = "t" ->
  Forall digit ds ->
  is_digit (fst (currentCharacter rest)) = false ->
  0 < u32 (digits_value ds) ->
  note_type st <> 0 ->
  let n := u32 (digits_value ds) in
  let whole := 60 * 400 / n * 10 in
  let st' := set_duration (whole / note_type st)
               (set_whole_note_duration whole st) in
  parse_token hdr st o (c :: ds ++ rest) =
    Continue st' o (snd (currentCharacter rest)) /\
  whole_note_duration st' = 60 * 400 / n * 10 /\
  duration st' = whole_note_duration st' / note_type st' /\
  parse_from hdr st o (c :: ds ++ rest) =
    parse_from hdr st' o (snd (currentCharacter rest)).
Proof.
  intros Hc Hds Hrest Hn Hnt n whole st'.
  assert (Htok : parse_token hdr st o (c :: ds ++ rest) =
                 Continue st' o (snd (currentCharacter rest))).
  { destruct (parse_token_head st o c (ds ++ rest)) as [-> _].
    { rewrite Hc. discriminate. }
    rewrite Hc. unfold parse_token.
    rewrite currentCharacter_cons by discriminate.
    change (tolower "t") with "t". simpl tl.
    rewrite (getNumber_digits ds rest Hds Hrest). fold n.
    cbn -[Z.div Z.mul u32 getNumber currentCharacter].
    destruct (Z.eqb_spec n 0) as [E|_]; [lia|].
    destruct (Z.eqb_spec (note_type st) 0) as [E|_]; [contradiction|].
    rewrite (u32_id (60 * 400 / n * 10)) by (apply tempo_value_range; lia).
    reflexivity. }
  split; [exact Htok|].
  split; [reflexivity|].
  split; [reflexivity|].
  rewrite parse_from_eq, Htok. reflexivity.
Qed.

(** C10, as the code has it: when the character after an [l] or [t] token,
    spaces skipped, is not a decimal digit, the number read is 0 and the
    duration computation that follows divides by zero (by the note type 0
    for [l], in 60 * 400 / 0 for [t]); [play] reaches that division when the
    melody starts with the token. *)
Theorem missing_number_divides_by_zero st o c l :
  tolower c = "l" \/ tolower c = "t" ->
  is_digit (fst (currentCharacter l)) = false ->
  fst (getNumber l) = 0 /\
  parse_token hdr st o (c :: l) = Crash DivByZero /\
  play hdr (c :: l) st = Fault DivByZero.
Proof.
  intros Hc Hl.
  assert (Hnum : getNumber l = (0, snd (currentCharacter l)))
    by (apply getNumber_no_digit; exact Hl).
  assert (Htok : forall s o', parse_token hdr s o' (c :: l) = Crash DivByZero).
  { intros s o'.
    destruct (parse_token_head s o' c l) as [-> _].
    { destruct Hc as [-> | ->]; discriminate. }
    destruct Hc as [-> | ->]; unfold parse_token;
      rewrite currentCharacter_cons by discriminate;
      simpl tl; rewrite Hnum; reflexivity. }
  split; [rewrite Hnum; reflexivity|].
  split; [apply Htok|].
  rewrite play_parses, parse_from_eq, Htok. reflexivity.
Qed.

(** *** Octave shifts *)

Lemma u8_add_l a b : u8 (u8 a + b) = u8 (a + b).
Proof. unfold u8. apply Z.add_mod_idemp_l. lia. Qed.

(** The octave the parser works with is an [unsigned char] that [>] and
    [<] increment and decrement without any check.  After a run of such
    tokens it is the starting value plus the net shift, reduced modulo 256,
    and parsing goes on with that value and the state as it was. *)
Lemma parse_from_octave_run st o ts rest :
  in_u8 o ->
  Forall (fun c => c = ">" \/ c = "<") ts ->
  parse_from hdr st o (ts ++ rest) =
    parse_from hdr st (u8 (o + octave_shift ts)) rest.
Proof.
  intros Ho Hts.
  revert o Ho. induction Hts as [|c ts Hc _ IH]; intros o Ho.
  - unfold octave_shift. simpl. rewrite Z.add_0_r, u8_id by exact Ho.
    reflexivity.
  - simpl app. rewrite parse_from_eq.
    destruct Hc as [-> | ->]; cbn [parse_token currentCharacter];
      change (tolower _) with 62 || change (tolower _) with 60;
      cbn -[parse_from u8 Z.add Z.sub octave_shift];
      rewrite IH by apply u8_range; rewrite u8_add_l;
      f_equal; f_equal; unfold octave_shift; simpl count_occ.
    + destruct (Z.eq_dec 62 62) as [_|N]; [|contradiction].
      destruct (Z.eq_dec 62 60) as [E|_]; [discriminate|]. lia.
    + destruct (Z.eq_dec 60 62) as [E|_]; [discriminate|].
      destruct (Z.eq_dec 60 60) as [_|N]; [|contradiction]. lia.
Qed.

(** *** Characters that start no token *)

Lemma parse_token_unrecognized st o c rest :
  tolower c <> " " ->
  token_start (tolower c) = false ->
  parse_token hdr st o (c :: rest) = Stop (set_buzzerSequence None st).
Proof.
  intros Hsp Htok.
  destruct (parse_token_head st o c rest Hsp) as [-> _].
  unfold parse_token.
  rewrite currentCharacter_cons by (rewrite tolower_idem; exact Hsp).
  rewrite tolower_idem.
  unfold token_start in Htok. simpl in Htok.
  repeat (apply orb_false_iff in Htok; destruct Htok as [? Htok]).
  repeat match goal with
         | H : (tolower c =? _) = false |- _ => rewrite H; clear H
         end.
  reflexivity.
Qed.

(** At a character that starts no token the parser clears the cursor and
    returns. *)
Lemma nextNote_unrecognized st c rest :
  buzzerSequence st = Some (c :: rest) ->
  tolower c <> " " ->
  token_start (tolower c) = false ->
  staccato st = 0 \/ staccato_rest_duration st = 0 ->
  nextNote hdr st = Ok (set_buzzerSequence None st).
Proof.
  intros Hl Hsp Htok Hs.
  rewrite (nextNote_parses st (c :: rest) Hl Hs), parse_from_eq.
  rewrite (parse_token_unrecognized st _ c rest Hsp Htok). reflexivity.
Qed.

(** C6, as the code has it: a character that starts no token (case and
    spaces apart) ends the session when the parser reaches it.  The cursor is
    cleared to null and nothing else changes, so no error is recorded and
    the outcome is the one of the terminating NUL.  [isPlaying] then reports
    exactly whether an earlier tone is still sounding: it is false as soon
    as [buzzerFinished] is set, which is the case whenever [playCheck]
    called the parser. *)
Theorem unrecognized_ends_session st c rest :
  buzzerSequence st = Some (c :: rest) ->
  tolower c <> " " ->
  token_start (tolower c) = false ->
  staccato st = 0 \/ staccato_rest_duration st = 0 ->
  nextNote hdr st = Ok (set_buzzerSequence None st) /\
  buzzerSequence (set_buzzerSequence None st) = None /\
  isPlaying (set_buzzerSequence None st) = (buzzerFinished st =? 0) /\
  nextNote hdr (set_buzzerSequence (Some []) st) = nextNote hdr st.
Proof.
  intros Hl Hsp Htok Hs.
  pose proof (nextNote_unrecognized st c rest Hl Hsp Htok Hs) as H1.
  split; [exact H1|].
  split; [reflexivity|].
  split.
  - unfold isPlaying. simpl. apply orb_false_r.
  - rewrite H1.
    rewrite (nextNote_parses (set_buzzerSequence (Some []) st) []);
      [reflexivity | reflexivity | exact Hs].
Qed.

End Tokens.

(** ** Single notes and stopping *)

Section Notes.

Variable hdr : Header.

(** C7: [playFrequency] with volume 0 writes duty 0, so the output is
    silent, and still arms the one-shot timer for the whole duration (in
    microseconds), records the duration and marks the note as in progress;
    this bookkeeping is the one every other volume gets. *)
Theorem silent_note_is_timed freq dur st :
  in_u32 dur ->
  let st' := playFrequency hdr freq dur 0 st in
  pwm_duty (pwm st') = 0 /\
  s_timer st' = Some (armed (dur * 1000)) /\
  buzzerTimeout_ms st' = dur /\
  buzzerFinished st' = 0 /\
  s_noteElapsed st' = false /\
  isPlaying st' = true /\
  forall vol,
    timing_view (playFrequency hdr freq dur vol st) = timing_view st'.
Proof.
  intros Hd st'.
  assert (Hus : u64 (u32 dur * 1000) = dur * 1000).
  { rewrite (u32_id dur Hd). apply u64_id. unfold in_u32 in Hd. lia. }
  split; [unfold st'; rewrite playFrequency_duty; reflexivity|].
  split.
  { transitivity (Some (armed (u64 (u32 dur * 1000)))); [reflexivity|].
    rewrite Hus. reflexivity. }
  split.
  { transitivity (u32 dur); [reflexivity|]. apply u32_id. exact Hd. }
  repeat (split; [reflexivity|]).
  intros vol. unfold st'. rewrite !playFrequency_timing. reflexivity.
Qed.

Lemma clamp_volume_range v : in_u8 v -> 0 <= clamp_volume v <= 15.
Proof.
  unfold in_u8, clamp_volume. intros H.
  destruct (Z.gtb_spec v 15); lia.
Qed.

(** C8: a volume above 15 passed to [playFrequency] is replaced by 15
    before the tone is set: the call behaves as the one with volume 15 and
    the duty written is the one of volume 15, the full scale.  For any
    volume argument the tone is set by [ledcSetTone] with a volume between
    0 and 15. *)
Theorem volume_is_clamped freq dur vol st :
  15 < vol < 256 ->
  playFrequency hdr freq dur vol st = playFrequency hdr freq dur 15 st /\
  pwm_duty (pwm (playFrequency hdr freq dur vol st)) =
    15 * LEDC_DUTY_MAX / 15 /\
  pwm_duty (pwm (playFrequency hdr freq dur vol st)) = LEDC_DUTY_MAX /\
  forall v, exists f' v',
    0 <= v' <= 15 /\
    playFrequency hdr freq dur v st =
      armOneShotTimer (u32 dur)
        (set_buzzerTimeout_ms (u32 dur)
           (set_s_noteElapsed false
              (set_buzzerFinished 0 (ledcSetTone f' v' (init st))))).
Proof.
  intros Hv.
  assert (Hc : clamp_volume (u8 vol) = 15).
  { rewrite u8_id by (unfold in_u8; lia). unfold clamp_volume.
    destruct (Z.gtb_spec vol 15); [reflexivity|lia]. }
  split; [|split; [|split]].
  - unfold playFrequency. rewrite Hc. reflexivity.
  - rewrite playFrequency_duty, Hc. reflexivity.
  - rewrite playFrequency_duty, Hc. reflexivity.
  - intros v. unfold playFrequency.
    pose proof (clamp_volume_range (u8 v) (u8_range v)) as Hr.
    destruct (clamp_volume (u8 v) =? 0) eqn:E.
    + exists 1000, 0. split; [lia|reflexivity].
    + exists (normalize_frequency hdr (u32 freq)), (clamp_volume (u8 v)).
      split; [exact Hr|reflexivity].
Qed.

(** C5, as the code has it: in every state [stopPlaying] writes duty 0,
    stops the timer, and leaves the session inactive, so that [isPlaying]
    is false at once.  A second [stopPlaying] changes nothing.  [playCheck]
    on the stopped session returns false and changes nothing but the
    note-elapsed flag, which it clears when an expiry was still pending. *)
Theorem stop_is_final st :
  let s := stopPlaying st in
  pwm_duty (pwm s) = 0 /\
  timer_running s = false /\
  buzzerSequence s = None /\
  isPlaying s = false /\
  stopPlaying s = s /\
  playCheck hdr s =
    Ok (if s_noteElapsed st then set_s_noteElapsed false s else s, false).
Proof.
  intros s. unfold s, stopPlaying, timer_running, playCheck, ledcWrite.
  destruct st as [? ? ? ? ? ? ? ? ? ? ? ? ? tm el ? ? ?].
  destruct tm as [t|]; destruct el; simpl; repeat split; reflexivity.
Qed.

End Notes.

(** ** Notes *)

Lemma sequencer_view_fields st st' :
  sequencer_view st' = sequencer_view st ->
  buzzerSequence st' = buzzerSequence st /\
  octave st' = octave st /\
  whole_note_duration st' = whole_note_duration st /\
  note_type st' = note_type st /\
  duration st' = duration st /\
  volume st' = volume st /\
  staccato st' = staccato st /\
  staccato_rest_duration st' = staccato_rest_duration st.
Proof.
  unfold sequencer_view. intros H. injection H. intros.
  repeat split; assumption.
Qed.

Lemma timing_view_fields st a b c d :
  timing_view st = (a, b, c, d) ->
  buzzerFinished st = a /\ s_noteElapsed st = b /\
  buzzerTimeout_ms st = c /\ s_timer st = d.
Proof.
  unfold timing_view. intros H. injection H. intros. repeat split; assumption.
Qed.

Lemma sharps_stop note l :
  fst (currentCharacter l) <> "+" ->
  fst (currentCharacter l) <> "#" ->
  sharps note l = (note, snd (currentCharacter l)).
Proof.
  intros H1 H2. rewrite sharps_eq.
  destruct (currentCharacter l) as [c l1]. simpl in *.
  destruct (Z.eqb_spec c "+"); [contradiction|].
  destruct (Z.eqb_spec c "#"); [contradiction|]. reflexivity.
Qed.

Lemma flats_stop note l :
  fst (currentCharacter l) <> "-" ->
  flats note l = (note, snd (currentCharacter l)).
Proof.
  intros H1. rewrite flats_eq.
  destruct (currentCharacter l) as [c l1]. simpl in *.
  destruct (Z.eqb_spec c "-"); [contradiction|]. reflexivity.
Qed.

Lemma dots_stop tmp_duration dot_add l :
  fst (currentCharacter l) <> "." ->
  dots tmp_duration dot_add l = (tmp_duration, snd (currentCharacter l)).
Proof.
  intros H1. rewrite dots_eq.
  destruct (currentCharacter l) as [c l1]. simpl in *.
  destruct (Z.eqb_spec c "."); [contradiction|]. reflexivity.
Qed.

(** The dot rule, in closed form for one dot: a dot adds the pending
    increment and halves it for the next dot. *)
Lemma dots_dot tmp_duration dot_add l :
  dots tmp_duration dot_add ("." :: l) =
    dots (u32 (tmp_duration + dot_add)) (dot_add / 2) l.
Proof. reflexivity. Qed.


Section NoteParsing.

Variable hdr : Header.

Lemma parse_token_note st o c l :
  note_letter (tolower c) = true ->
  exists note rest, parse_token hdr st o (c :: l) = Note st o note rest l.
Proof.
  intros H.
  assert (Hsp : tolower c <> " ").
  { intros E. rewrite E in H. discriminate. }
  destruct (parse_token_head hdr st o c l Hsp) as [-> _].
  unfold note_letter in H. simpl in H.
  repeat (apply orb_true_iff in H; destruct H as [H|H]);
    try discriminate;
    apply Z.eqb_eq in H; rewrite H; eexists; eexists; reflexivity.
Qed.

(** What [dispatch_note] leaves behind when staccato is off. *)
Lemma dispatch_note_plain st note rest d :
  staccato st = 0 ->
  in_u32 d ->
  let st' := dispatch_note hdr st note rest d in
  buzzerTimeout_ms st' = d /\
  s_timer st' = Some (armed (d * 1000)) /\
  sequencer_view st' = sequencer_view st.
Proof.
  intros Hs Hd st'. unfold st', dispatch_note.
  do 2 (rewrite Hs; change (0 =? 0) with true; cbv iota).
  match goal with
  | |- context [playNote hdr ?n d ?v st] =>
      pose proof (playNote_timing hdr n d v st) as Ht;
      pose proof (playNote_view hdr n d v st) as Hv
  end.
  apply timing_view_fields in Ht. destruct Ht as (_ & _ & H3 & H4).
  rewrite H3, H4, (u32_id d Hd), u64_id by (unfold in_u32 in Hd; lia).
  repeat split; assumption.
Qed.


(** C3: with a whole note of 2000 ms and staccato off, as at program start,
    the melody "c4." is played for 750 ms: 2000 / 4 = 500 for the quarter
    note, plus the increment 500 / 2 = 250 for its dot, which is one and a
    half times the quarter note.  The dot rule is the one of [dots]: each dot
    adds the pending increment, which starts at half the duration, and
    halves it, with truncating division. *)
Theorem dotted_quarter_note st :
  whole_note_duration st = 2000 ->
  staccato st = 0 ->
  exists st',
    play hdr (melody "c4.") st = Ok st' /\
    buzzerTimeout_ms st' = 750 /\
    s_timer st' = Some (armed 750000) /\
    2 * buzzerTimeout_ms st' = 3 * (whole_note_duration st / 4) /\
    buzzerTimeout_ms st' =
      fst (dots (whole_note_duration st / 4)
             (whole_note_duration st / 4 / 2) ["."]) /\
    buzzerSequence st' = Some [].
Proof.
  intros Hw Hs.
  rewrite play_parses.
  change (melody "c4.") with ["c"; "4"; "."].
  set (s := set_staccato_rest_duration 0 _).
  rewrite parse_from_eq.
  replace (parse_token hdr s (octave st) ["c"; "4"; "."])
    with (Note s (octave st) (u8 (NOTE_C hdr 0)) 0 ["4"; "."])
    by reflexivity.
  unfold parse_note.
  set (note := u8 (_ + _)).
  replace (sharps note ["4"; "."]) with (note, ["4"; "."]) by reflexivity.
  replace (flats note ["4"; "."]) with (note, ["4"; "."]) by reflexivity.
  replace (explicit_duration s ["4"; "."])
    with (@Ok (Z * list Z) (whole_note_duration st / 4, ["."]))
    by reflexivity.
  cbn [bind]. rewrite Hw.
  replace (dots (2000 / 4) (2000 / 4 / 2) ["."]) with (750, @nil Z)
    by reflexivity.
  set (s1 := set_buzzerSequence (Some []) s).
  destruct (dispatch_note_plain s1 note 0 750) as (H1 & H2 & H3).
  { exact Hs. }
  { unfold in_u32. lia. }
  apply sequencer_view_fields in H3. destruct H3 as (H3 & _).
  eexists. split; [reflexivity|].
  rewrite H1, H2, H3. repeat split.
Qed.

(** *** Staccato *)

(** What [dispatch_note] stores and plays when staccato is on: the rest is
    half the duration cut down to an [unsigned char], the note gets what is
    left of the duration. *)
Lemma dispatch_note_staccato st note rest d :
  staccato st <> 0 ->
  in_u32 d ->
  let st1 := dispatch_note hdr st note rest d in
  staccato_rest_duration st1 = u8 (d / 2) /\
  buzzerTimeout_ms st1 = d - u8 (d / 2) /\
  staccato st1 = staccato st /\
  buzzerSequence st1 = buzzerSequence st.
Proof.
  intros Hs Hd st1. unfold st1, dispatch_note.
  destruct (Z.eqb_spec (staccato st) 0) as [E|_]; [contradiction|].
  cbn [staccato set_staccato_rest_duration].
  destruct (Z.eqb_spec (staccato st) 0) as [E|_]; [contradiction|].
  cbn [staccato_rest_duration set_staccato_rest_duration].
  set (s := set_staccato_rest_duration _ st).
  match goal with
  | |- context [playNote hdr ?n ?t ?v s] =>
      pose proof (playNote_timing hdr n t v s) as Ht;
      pose proof (playNote_view hdr n t v s) as Hv
  end.
  apply timing_view_fields in Ht. destruct Ht as (_ & _ & H3 & _).
  apply sequencer_view_fields in Hv.
  destruct Hv as (V1 & _ & _ & _ & _ & _ & V7 & V8).
  rewrite H3, V1, V7, V8, u32_idem.
  pose proof (u8_range (d / 2)) as Hr. unfold in_u8 in Hr.
  assert (Hle : u8 (d / 2) <= d / 2).
  { unfold u8. apply Z.mod_le; [|lia].
    apply Z.div_pos; unfold in_u32 in Hd; lia. }
  assert (Hhalf : d / 2 <= d).
  { apply Z.div_le_upper_bound; unfold in_u32 in Hd; lia. }
  repeat split.
  apply u32_id. unfold in_u32 in *. lia.
Qed.


(** With a computed duration below 2 ms there is nothing to hold back: no
    rest is pending afterwards and the next [nextNote] parses at once. *)
Lemma staccato_no_rest st note rest d l :
  staccato st <> 0 ->
  in_u32 d ->
  d / 2 = 0 ->
  buzzerSequence st = Some l ->
  let st1 := dispatch_note hdr st note rest d in
  staccato_rest_duration st1 = 0 /\
  nextNote hdr st1 = parse_from hdr st1 (octave st1) l.
Proof.
  intros Hs Hd Hhalf Hl st1.
  destruct (dispatch_note_staccato st note rest d Hs Hd)
    as (H1 & _ & _ & H4).
  fold st1 in H1, H4. rewrite Hhalf in H1. change (u8 0) with 0 in H1.
  split; [exact H1|].
  apply nextNote_parses; [rewrite H4; exact Hl | right; exact H1].
Qed.

End NoteParsing.

(** * The settings stay within their types *)

Create HintDb ranges.

Lemma in_u8_const z : 0 <= z < 256 -> in_u8 z.
Proof. intros H. exact H. Qed.

Lemma in_u32_const z : 0 <= z < 4294967296 -> in_u32 z.
Proof. intros H. exact H. Qed.

#[local] Hint Resolve u8_range u32_range in_u32_div : ranges.
#[local] Hint Extern 2 (in_u8 _) => apply in_u8_const; lia : ranges.
#[local] Hint Extern 2 (in_u32 _) => apply in_u32_const; lia : ranges.

Lemma getNumber_from_range l :
  forall arg, in_u32 arg -> in_u32 (fst (getNumber_from arg l)).
Proof.
  induction l as [|c l IH]; intros arg Harg; simpl.
  - exact Harg.
  - destruct (tolower c =? " "); [apply IH; exact Harg|].
    destruct (is_digit (tolower c)); [apply IH; apply u32_range|exact Harg].
Qed.

Lemma getNumber_range l : in_u32 (fst (getNumber l)).
Proof. apply getNumber_from_range. unfold in_u32. lia. Qed.

Lemma wf_initial hdr : wf_state (initial_state hdr).
Proof. constructor; simpl; auto with ranges; lia. Qed.

(** Well-formedness only looks at the sequencer's settings and the recorded
    duration. *)
Lemma wf_state_view st st' :
  sequencer_view st' = sequencer_view st ->
  in_u32 (buzzerTimeout_ms st') ->
  wf_state st -> wf_state st'.
Proof.
  intros Hv Ht [H1 H2 H3 H4 H5 H6 H7 H8].
  apply sequencer_view_fields in Hv.
  destruct Hv as (_ & V2 & V3 & V4 & V5 & V6 & V7 & V8).
  constructor; rewrite ?V2, ?V3, ?V4, ?V5, ?V6, ?V7, ?V8; assumption.
Qed.

Section Invariant.

Variable hdr : Header.

Lemma playFrequency_wf freq dur vol st :
  wf_state st -> wf_state (playFrequency hdr freq dur vol st).
Proof.
  apply wf_state_view; [apply playFrequency_view|].
  pose proof (playFrequency_timing hdr freq dur vol st) as Ht.
  apply timing_view_fields in Ht. destruct Ht as (_ & _ & -> & _).
  apply u32_range.
Qed.

Lemma playNote_wf note dur vol st :
  wf_state st -> wf_state (playNote hdr note dur vol st).
Proof.
  apply wf_state_view; [apply playNote_view|].
  pose proof (playNote_timing hdr note dur vol st) as Ht.
  apply timing_view_fields in Ht. destruct Ht as (_ & _ & -> & _).
  apply u32_range.
Qed.

Lemma stopPlaying_wf st : wf_state st -> wf_state (stopPlaying st).
Proof.
  intros [H1 H2 H3 H4 H5 H6 H7 H8]. unfold stopPlaying.
  destruct (s_timer (ledcWrite 0 st)); constructor; assumption.
Qed.

Lemma onTimerDone_wf st : wf_state st -> wf_state (onTimerDone st).
Proof. intros [H1 H2 H3 H4 H5 H6 H7 H8]. constructor; assumption. Qed.

Lemma set_buzzerSequence_wf p st :
  wf_state st -> wf_state (set_buzzerSequence p st).
Proof. intros [H1 H2 H3 H4 H5 H6 H7 H8]. constructor; assumption. Qed.

Lemma dispatch_note_wf st note rest d :
  wf_state st -> wf_state (dispatch_note hdr st note rest d).
Proof.
  intros H. unfold dispatch_note. apply playNote_wf.
  destruct (staccato st =? 0); [exact H|].
  destruct H as [H1 H2 H3 H4 H5 H6 H7 H8].
  constructor; simpl; auto with ranges.
Qed.

Lemma parse_note_wf st o note rest l st' :
  wf_state st -> parse_note hdr st o note rest l = Ok st' -> wf_state st'.
Proof.
  intros H. unfold parse_note.
  destruct (sharps _ l) as [n1 l1]. destruct (flats n1 l1) as [n2 l2].
  destruct (explicit_duration st l2) as [[t l3]|f]; [|discriminate].
  cbn [bind]. destruct (dots t (t / 2) l3) as [t' l4].
  intros E. injection E as <-.
  apply dispatch_note_wf, set_buzzerSequence_wf, H.
Qed.

Lemma parse_token_wf st o l :
  wf_state st ->
  match parse_token hdr st o l with
  | Continue st' _ _ => wf_state st'
  | Note st' _ _ _ _ => wf_state st'
  | Stop st' => wf_state st'
  | Crash _ => True
  end.
Proof.
  intros H. pose proof H as [H1 H2 H3 H4 H5 H6 H7 H8].
  unfold parse_token.
  destruct (currentCharacter l) as [c l1].
  pose proof (getNumber_range (tl l1)) as Hn.
  destruct (getNumber (tl l1)) as [n l3]. simpl in Hn.
  destruct (currentCharacter (tl l1)) as [c' l3'].
  repeat match goal with
         | |- context [if ?b then _ else _] => destruct b eqn:?
         end;
    try exact H; try exact I;
    try (destruct l3'; [exact I|]);
    try (apply set_buzzerSequence_wf; exact H);
    simpl in *;
    constructor; simpl; auto with ranges.
  all: repeat match goal with
              | E : (_ =? _) = false |- _ => apply Z.eqb_neq in E
              | E : (_ =? _) = true |- _ => apply Z.eqb_eq in E
              end.
  - unfold in_u32 in Hn. lia.
  - apply in_u32_div; [exact H2|]. unfold in_u32 in Hn. lia.
  - apply in_u32_div; [apply u32_range|]. lia.
  - lia.
Qed.

(** The [switch] leaves the timing bookkeeping alone. *)
Lemma parse_token_timing st o l :
  match parse_token hdr st o l with
  | Continue st' _ _ => timing_view st' = timing_view st
  | Note st' _ _ _ _ => timing_view st' = timing_view st
  | Stop st' => timing_view st' = timing_view st
  | Crash _ => True
  end.
Proof.
  unfold parse_token.
  destruct (currentCharacter l) as [c l1].
  destruct (getNumber (tl l1)) as [n l3].
  destruct (currentCharacter (tl l1)) as [c' l3'].
  repeat match goal with
         | |- context [if ?b then _ else _] => destruct b
         end;
    try reflexivity; try exact I;
    destruct l3'; try exact I; reflexivity.
Qed.

Lemma flags_ok_timing st st' :
  timing_view st' = timing_view st -> flags_ok st -> flags_ok st'.
Proof.
  unfold flags_ok, timing_view. intros H. injection H as -> -> _ _. auto.
Qed.

Lemma parse_note_flags st o note rest l st' :
  parse_note hdr st o note rest l = Ok st' -> flags_ok st'.
Proof.
  unfold parse_note.
  destruct (sharps _ l) as [n1 l1]. destruct (flats n1 l1) as [n2 l2].
  destruct (explicit_duration st l2) as [[t l3]|f]; [|discriminate].
  cbn [bind]. destruct (dots t (t / 2) l3) as [t' l4].
  intros E. injection E as <-. unfold dispatch_note.
  match goal with
  | |- flags_ok (playNote hdr ?n ?d ?v ?s) =>
      pose proof (playNote_timing hdr n d v s) as Ht
  end.
  apply timing_view_fields in Ht. destruct Ht as (_ & Ht & _).
  unfold flags_ok. rewrite Ht. discriminate.
Qed.

Lemma parse_from_invariant :
  forall n st o l st',
    (List.length l < n)%nat ->
    invariant st -> parse_from hdr st o l = Ok st' -> invariant st'.
Proof.
  induction n as [|n IH]; intros st o l st' Hn [Hwf Hfl]; [lia|].
  rewrite parse_from_eq.
  pose proof (parse_token_wf st o l Hwf) as Hw.
  pose proof (parse_token_timing st o l) as Ht.
  destruct (parse_token hdr st o l) as [s1 o1 l1|s1 o1 nt rs l1|s1|f] eqn:E.
  - apply parse_token_Continue_length in E.
    apply IH; [lia|]. split; [exact Hw|].
    apply (flags_ok_timing st s1 Ht Hfl).
  - intros H. split.
    + apply (parse_note_wf s1 o1 nt rs l1 _ Hw H).
    + apply (parse_note_flags s1 o1 nt rs l1 _ H).
  - intros H. injection H as <-. split; [exact Hw|].
    apply (flags_ok_timing st s1 Ht Hfl).
  - discriminate.
Qed.

Lemma nextNote_invariant st st' :
  invariant st -> nextNote hdr st = Ok st' -> invariant st'.
Proof.
  intros [Hwf Hfl]. unfold nextNote.
  destruct (negb (staccato st =? 0) && negb (staccato_rest_duration st =? 0)).
  - intros H. injection H as <-.
    pose proof (playNote_wf (SILENT_NOTE hdr) (staccato_rest_duration st) 0
                  st Hwf) as [H1 H2 H3 H4 H5 H6 H7 H8].
    pose proof (playNote_timing hdr (SILENT_NOTE hdr)
                  (staccato_rest_duration st) 0 st) as Ht.
    apply timing_view_fields in Ht. destruct Ht as (_ & Ht & _).
    split.
    + constructor; simpl; auto with ranges.
    + unfold flags_ok. simpl. rewrite Ht. discriminate.
  - destruct (buzzerSequence st) as [l|]; [|discriminate].
    apply parse_from_invariant with (S (List.length l)); [lia|].
    split; assumption.
Qed.

Lemma play_invariant notes st st' :
  invariant st -> play hdr notes st = Ok st' -> invariant st'.
Proof.
  intros [[H1 H2 H3 H4 H5 H6 H7 H8] Hfl]. unfold play.
  apply nextNote_invariant. split.
  - constructor; simpl; auto with ranges.
  - exact Hfl.
Qed.

Lemma bind_Ok {A B : Type} (r : result A) (k : A -> result B) (b : B) :
  bind r k = Ok b -> exists a, r = Ok a /\ k a = Ok b.
Proof.
  destruct r as [a|f]; simpl; [|discriminate]. intros H. exists a. auto.
Qed.

Lemma playCheck_invariant st st' b :
  invariant st -> playCheck hdr st = Ok (st', b) -> invariant st'.
Proof.
  intros Hinv. unfold playCheck. intros H.
  apply bind_Ok in H. destruct H as (s1 & E1 & H).
  apply bind_Ok in H. destruct H as (s2 & E2 & H).
  injection H as <- _.
  assert (H1 : invariant s1).
  { destruct (s_noteElapsed st) eqn:El.
    - assert (Hi : invariant (set_s_noteElapsed false st)).
      { destruct Hinv as [[H1 H2 H3 H4 H5 H6 H7 H8] Hfl]. split.
        - constructor; assumption.
        - unfold flags_ok. simpl. discriminate. }
      destruct (non_null _ && automatic _ _).
      + apply (nextNote_invariant _ _ Hi E1).
      + injection E1 as <-. exact Hi.
    - injection E1 as <-. exact Hinv. }
  destruct (negb (buzzerFinished s1 =? 0) && non_null (buzzerSequence s1)
            && automatic hdr s1).
  - apply (nextNote_invariant _ _ H1 E2).
  - injection E2 as <-. exact H1.
Qed.

Lemma dots_range l :
  forall t a, in_u32 t -> in_u32 (fst (dots t a l)).
Proof.
  induction l as [|c l IH]; intros t a Ht; simpl.
  - exact Ht.
  - destruct (tolower c =? " "); [apply IH; exact Ht|].
    destruct (tolower c =? "."); [apply IH; apply u32_range|exact Ht].
Qed.

(** Every note the parser gets through is handed to [dispatch_note], with
    a duration that fits an [unsigned int]. *)
Lemma parse_note_dispatches st o note rest l st' :
  wf_state st ->
  parse_note hdr st o note rest l = Ok st' ->
  exists l' note' d,
    in_u32 d /\
    st' = dispatch_note hdr (set_buzzerSequence (Some l') st) note' rest d.
Proof.
  intros Hwf. unfold parse_note, explicit_duration.
  destruct (sharps _ l) as [n1 l1]. destruct (flats n1 l1) as [n2 l2].
  pose proof (getNumber_range l2) as Hn.
  destruct (getNumber l2) as [n l3]. simpl in Hn.
  assert (Hd : forall t l4, in_u32 t ->
            Ok (dispatch_note hdr
                  (set_buzzerSequence (Some (snd (dots t (t / 2) l4))) st)
                  n2 rest (fst (dots t (t / 2) l4))) = Ok st' ->
            exists l' note' d,
              in_u32 d /\
              st' = dispatch_note hdr (set_buzzerSequence (Some l') st)
                      note' rest d).
  { intros t l4 Ht E. injection E as <-.
    eexists. eexists. eexists.
    split; [apply dots_range; exact Ht|reflexivity]. }
  destruct (("0" <? fst (currentCharacter l2)) &&
            (fst (currentCharacter l2) <? "9")).
  - destruct (Z.eqb_spec n 0) as [E|N]; [discriminate|]. cbn [bind].
    specialize (Hd (whole_note_duration st / n) l3).
    destruct (dots _ _ l3) as [t' l4]. apply Hd.
    apply in_u32_div; [apply Hwf|]. unfold in_u32 in Hn. lia.
  - cbn [bind]. specialize (Hd (duration st) l2).
    destruct (dots _ _ l2) as [t' l4]. apply Hd. apply Hwf.
Qed.

(** The ways the parser comes back with a state: it has ended the session
    without touching the timing bookkeeping, or it has parsed a note and
    handed it to [dispatch_note]. *)
Lemma parse_from_cases :
  forall n st o l st',
    (List.length l < n)%nat ->
    wf_state st -> parse_from hdr st o l = Ok st' ->
    (buzzerSequence st' = None /\ timing_view st' = timing_view st) \/
    (exists s l' note rest d,
        wf_state s /\ timing_view s = timing_view st /\ in_u32 d /\
        st' = dispatch_note hdr (set_buzzerSequence (Some l') s) note rest d).
Proof.
  induction n as [|n IH]; intros st o l st' Hn Hwf; [lia|].
  rewrite parse_from_eq.
  pose proof (parse_token_wf st o l Hwf) as Hw.
  pose proof (parse_token_timing st o l) as Ht.
  destruct (parse_token hdr st o l) as [s1 o1 l1|s1 o1 nt rs l1|s1|f] eqn:E.
  - apply parse_token_Continue_length in E. intros H.
    destruct (IH s1 o1 l1 st' ltac:(lia) Hw H)
      as [[H1 H2]|(s & l' & nt & rs & d & H1 & H2 & H3 & H4)].
    + left. split; [exact H1|]. rewrite H2. exact Ht.
    + right. exists s, l', nt, rs, d. rewrite H2. auto.
  - intros H. right.
    destruct (parse_note_dispatches s1 o1 nt rs l1 st' Hw H)
      as (l' & nt' & d & H1 & H2).
    exists s1, l', nt', rs, d. auto.
  - intros H. injection H as <-. left. split; [|exact Ht].
    unfold parse_token in E.
    destruct (currentCharacter l) as [c l2].
    destruct (getNumber (tl l2)) as [n0 l3].
    destruct (currentCharacter (tl l2)) as [c' l3'].
    split_ifs; try discriminate;
      try (destruct l3'; discriminate).
    injection E as <-. reflexivity.
  - discriminate.
Qed.

(** [nextNote] has played the pending staccato rest, or ended the session,
    or dispatched a freshly parsed note. *)
Lemma nextNote_cases st st' :
  wf_state st -> nextNote hdr st = Ok st' ->
  st' = set_staccato_rest_duration 0
          (playNote hdr (SILENT_NOTE hdr) (staccato_rest_duration st) 0 st) \/
  (buzzerSequence st' = None /\ timing_view st' = timing_view st) \/
  (exists s l' note rest d,
      wf_state s /\ timing_view s = timing_view st /\ in_u32 d /\
      st' = dispatch_note hdr (set_buzzerSequence (Some l') s) note rest d).
Proof.
  intros Hwf. unfold nextNote.
  destruct (negb (staccato st =? 0) && negb (staccato_rest_duration st =? 0)).
  - intros H. injection H as <-. left. reflexivity.
  - destruct (buzzerSequence st) as [l|]; [|discriminate].
    intros H. right.
    apply (parse_from_cases (S (List.length l)) st (octave st) l st');
      [lia | exact Hwf | exact H].
Qed.

Lemma playFromProgramSpace_invariant notes st st' :
  invariant st -> playFromProgramSpace hdr notes st = Ok st' -> invariant st'.
Proof.
  intros [[H1 H2 H3 H4 H5 H6 H7 H8] Hfl]. unfold playFromProgramSpace.
  apply nextNote_invariant. split.
  - constructor; simpl; auto with ranges.
  - exact Hfl.
Qed.

Lemma playMode_invariant mode st st' :
  invariant st -> playMode hdr mode st = Ok st' -> invariant st'.
Proof.
  intros Hinv. unfold playMode.
  assert (Hi : invariant (set_play_mode_setting (u8 mode) st)).
  { destruct Hinv as [[H1 H2 H3 H4 H5 H6 H7 H8] Hfl]. split.
    - constructor; assumption.
    - exact Hfl. }
  destruct (u8 mode =? PLAY_AUTOMATIC hdr).
  - intros H. apply bind_Ok in H. destruct H as ([s b] & E & H).
    injection H as <-. apply (playCheck_invariant _ _ _ Hi E).
  - intros H. injection H as <-. exact Hi.
Qed.

(** In every reachable state the settings fit their types, the note type is
    not 0, and a pending expiry comes with the finished flag. *)
Lemma reachable_invariant st : reachable hdr st -> invariant st.
Proof.
  induction 1 as [|notes st st' _ IH E|notes st st' _ IH E|st st' b _ IH E
                  |mode st st' _ IH E|st _ IH
                  |note dur vol st _ IH|freq dur vol st _ IH|st _ IH].
  - split; [apply wf_initial|]. unfold flags_ok. discriminate.
  - apply (play_invariant notes st st' IH E).
  - apply (playFromProgramSpace_invariant notes st st' IH E).
  - apply (playCheck_invariant st st' b IH E).
  - apply (playMode_invariant mode st st' IH E).
  - destruct IH as [Hw Hf]. split; [apply stopPlaying_wf, Hw|].
    unfold flags_ok, stopPlaying.
    destruct (s_timer (ledcWrite 0 st)); simpl; discriminate.
  - destruct IH as [Hw Hf]. split; [apply playNote_wf, Hw|].
    pose proof (playNote_timing hdr note dur vol st) as Ht.
    apply timing_view_fields in Ht. destruct Ht as (_ & Ht & _).
    unfold flags_ok. rewrite Ht. discriminate.
  - destruct IH as [Hw Hf]. split; [apply playFrequency_wf, Hw|].
    pose proof (playFrequency_timing hdr freq dur vol st) as Ht.
    apply timing_view_fields in Ht. destruct Ht as (_ & Ht & _).
    unfold flags_ok. rewrite Ht. discriminate.
  - destruct IH as [Hw Hf]. split; [apply onTimerDone_wf, Hw|].
    unfold flags_ok. simpl. discriminate.
Qed.

End Invariant.

(** * Further consequences *)

Lemma u32_add_l a b : u32 (u32 a + b) = u32 (a + b).
Proof. unfold u32. apply Z.add_mod_idemp_l. lia. Qed.

(** The dot rule for any number of dots. *)
Lemma dots_run k :
  forall tmp_duration dot_add rest,
    in_u32 tmp_duration ->
    fst (currentCharacter rest) <> "." ->
    dots tmp_duration dot_add (repeat "." k ++ rest) =
      (u32 (tmp_duration + dot_increments dot_add k),
       snd (currentCharacter rest)).
Proof.
  induction k as [|k IH]; intros t a rest Ht Hrest.
  - simpl. rewrite Z.add_0_r, (u32_id t Ht). apply dots_stop. exact Hrest.
  - simpl repeat. simpl app. rewrite dots_dot.
    rewrite IH by (try apply u32_range; exact Hrest).
    simpl dot_increments. rewrite u32_add_l, Z.add_assoc. reflexivity.
Qed.

Section Polling.

Variable hdr : Header.

(** When [playCheck] is what brings the parser to a character that starts
    no token, the finished flag is set, and [isPlaying] is false
    afterwards. *)
Lemma playCheck_unrecognized st c rest :
  flags_ok st ->
  buzzerSequence st = Some (c :: rest) ->
  tolower c <> " " ->
  token_start (tolower c) = false ->
  staccato st = 0 \/ staccato_rest_duration st = 0 ->
  automatic hdr st = true ->
  s_noteElapsed st = true \/ buzzerFinished st <> 0 ->
  exists st',
    playCheck hdr st = Ok (st', false) /\
    buzzerSequence st' = None /\
    isPlaying st' = false.
Proof.
  intros Hfl Hl Hsp Htok Hs Hauto Hcall.
  assert (Hfin : buzzerFinished st <> 0).
  { destruct Hcall as [E|N]; [apply Hfl; exact E | exact N]. }
  assert (Hplay : forall s,
            buzzerFinished s = buzzerFinished st ->
            isPlaying (set_buzzerSequence None s) = false).
  { intros s E. unfold isPlaying. simpl. rewrite E, orb_false_r.
    apply Z.eqb_neq. exact Hfin. }
  unfold playCheck. destruct (s_noteElapsed st) eqn:El.
  - set (s0 := set_s_noteElapsed false st).
    pose proof (nextNote_unrecognized hdr s0 c rest Hl Hsp Htok Hs) as H1.
    change (buzzerSequence s0) with (buzzerSequence st).
    change (automatic hdr s0) with (automatic hdr st).
    rewrite Hl, Hauto. cbn [non_null andb]. rewrite H1. cbn [bind].
    cbn [buzzerSequence set_buzzerSequence non_null andb].
    rewrite andb_false_r. cbn [andb].
    eexists. split; [reflexivity|]. split; [reflexivity|].
    apply Hplay. reflexivity.
  - cbn [bind].
    pose proof (nextNote_unrecognized hdr st c rest Hl Hsp Htok Hs) as H1.
    rewrite Hl, Hauto. cbn [non_null].
    destruct (Z.eqb_spec (buzzerFinished st) 0) as [E|_]; [contradiction|].
    cbn [negb andb]. rewrite H1. cbn [bind].
    eexists. split; [reflexivity|]. split; [reflexivity|].
    apply Hplay. reflexivity.
Qed.

End Polling.

(** * Worked examples with the Zumo header *)

(** ** C1 *)



(** ** C2 *)



(** ** C3 *)

Lemma dotted_quarter_note_witness :
  exists st',
    play zumo_header (melody "c4.") default_state = Ok st' /\
    buzzerTimeout_ms st' = 750 /\
    s_timer st' = Some (armed 750000) /\
    2 * buzzerTimeout_ms st' = 3 * (whole_note_duration default_state / 4) /\
    buzzerTimeout_ms st' =
      fst (dots (whole_note_duration default_state / 4)
             (whole_note_duration default_state / 4 / 2) ["."]) /\
    buzzerSequence st' = Some [].
Proof.
  apply (dotted_quarter_note zumo_header default_state); reflexivity.
Defined.

(** ** C4 *)

(** "t60" from the state at program start: 60 * 400 / 60 * 10 = 4000 ms
    for the whole note, instead of 2000 ms, and 4000 / 4 = 1000 ms for the
    default note, instead of 500 ms. *)
Lemma tempo_token_witness :
  let st' := set_duration 1000 (set_whole_note_duration 4000 default_state) in
  parse_token zumo_header default_state 4 (melody "t60c") =
    Continue st' 4 (melody "c") /\
  whole_note_duration st' = 60 * 400 / 60 * 10 /\
  duration st' = whole_note_duration st' / note_type st' /\
  parse_from zumo_header default_state 4 (melody "t60c") =
    parse_from zumo_header st' 4 (melody "c").
Proof.
  apply (tempo_token zumo_header default_state 4 "t" ["6"; "0"]
           (melody "c")).
  - reflexivity.
  - repeat constructor; unfold digit; lia.
  - reflexivity.
  - reflexivity.
  - discriminate.
Defined.

(** The number of a tempo token is read into an [unsigned int].  The
    number 4294967296 (2^32) is greater than 0 and 60 * 400 / 4294967296 *
    10 is 0, but the token reads 0 and the division faults.  The number
    4294967416 (2^32 + 120) reads as 120: after "t60" has set 4000 ms, the
    token sets 2000 ms for the whole note and 500 ms for the default note,
    not 0 ms. *)
Lemma tempo_number_wraps :
  parse_token zumo_header default_state 4 (melody "t4294967296c") =
    Crash DivByZero /\
  play zumo_header (melody "t4294967296c") default_state =
    Fault DivByZero /\
  (exists st',
     play zumo_header (melody "t60t4294967416c") default_state = Ok st' /\
     whole_note_duration st' = 2000 /\
     whole_note_duration st' <> 60 * 400 / 4294967416 * 10 /\
     duration st' = 500 /\
     buzzerTimeout_ms st' = 500).
Proof.
  split; [vm_compute; reflexivity|].
  split; [vm_compute; reflexivity|].
  eexists. split; [vm_compute; reflexivity|].
  cbn. repeat split. discriminate.
Qed.

(** ** C5 *)

(** A note of "c" has run out and its expiry has not been polled yet when
    the session is stopped: the [playCheck] that follows returns false and
    clears the note-elapsed flag, so the state is not the one it was given. *)
Lemma playCheck_after_stop_clears_flag :
  exists st1 s',
    play zumo_header (melody "c") default_state = Ok st1 /\
    let s := stopPlaying (onTimerDone st1) in
    playCheck zumo_header s = Ok (s', false) /\
    s_noteElapsed s = true /\
    s_noteElapsed s' = false /\
    s' <> s.
Proof.
  eexists. eexists. split; [vm_compute; reflexivity|].
  split; [vm_compute; reflexivity|].
  split; [reflexivity|]. split; [reflexivity|].
  intros E. apply (f_equal s_noteElapsed) in E. discriminate E.
Qed.

(** ** C6 *)

Lemma unrecognized_ends_session_witness :
  let st := set_buzzerSequence (Some (melody "$c")) default_state in
  nextNote zumo_header st = Ok (set_buzzerSequence None st) /\
  buzzerSequence (set_buzzerSequence None st) = None /\
  isPlaying (set_buzzerSequence None st) = (buzzerFinished st =? 0) /\
  nextNote zumo_header (set_buzzerSequence (Some []) st) =
    nextNote zumo_header st.
Proof.
  apply (unrecognized_ends_session zumo_header
           (set_buzzerSequence (Some (melody "$c")) default_state)
           "$" (melody "c")).
  - reflexivity.
  - discriminate.
  - reflexivity.
  - left. reflexivity.
Defined.

(** While the note of an earlier "c" is still sounding, [play] meets a
    character that starts no token: the cursor is cleared, but [isPlaying]
    stays true until that note has run out. *)
Lemma isPlaying_after_unrecognized :
  exists st1 st2,
    play zumo_header (melody "c") default_state = Ok st1 /\
    play zumo_header (melody "$") st1 = Ok st2 /\
    buzzerSequence st2 = None /\
    isPlaying st2 = true.
Proof.
  eexists. eexists. split; [vm_compute; reflexivity|].
  split; [vm_compute; reflexivity|]. split; reflexivity.
Qed.

(** ** C7 *)

Lemma silent_note_is_timed_witness :
  let st' := playFrequency zumo_header 440 300 0 default_state in
  pwm_duty (pwm st') = 0 /\
  s_timer st' = Some (armed (300 * 1000)) /\
  buzzerTimeout_ms st' = 300 /\
  buzzerFinished st' = 0 /\
  s_noteElapsed st' = false /\
  isPlaying st' = true /\
  forall vol,
    timing_view (playFrequency zumo_header 440 300 vol default_state) =
      timing_view st'.
Proof.
  apply (silent_note_is_timed zumo_header 440 300 default_state).
  unfold in_u32. lia.
Defined.

(** ** C8 *)

Lemma volume_is_clamped_witness :
  playFrequency zumo_header 440 300 20 default_state =
    playFrequency zumo_header 440 300 15 default_state /\
  pwm_duty (pwm (playFrequency zumo_header 440 300 20 default_state)) =
    15 * LEDC_DUTY_MAX / 15 /\
  pwm_duty (pwm (playFrequency zumo_header 440 300 20 default_state)) =
    LEDC_DUTY_MAX /\
  forall v, exists f' v',
    0 <= v' <= 15 /\
    playFrequency zumo_header 440 300 v default_state =
      armOneShotTimer (u32 300)
        (set_buzzerTimeout_ms (u32 300)
           (set_s_noteElapsed false
              (set_buzzerFinished 0
                 (ledcSetTone f' v' (init default_state))))).
Proof.
  apply (volume_is_clamped zumo_header 440 300 20 default_state). lia.
Defined.

(** ** C9 *)

(** From [play]: after "o0" the note of "<c" is computed with octave 255,
    played (at the top of the frequency table), and the octave setting is
    still 0. *)
Lemma octave_underflow_is_played :
  exists st',
    play zumo_header (melody "o0<c") default_state = Ok st' /\
    pwm_freq (pwm st') = note_frequency zumo_header (u8 (0 + 255 * 12)) /\
    pwm_duty (pwm st') = LEDC_DUTY_MAX /\
    octave st' = 0.
Proof.
  eexists. split; [vm_compute; reflexivity|]. repeat split.
Qed.

(** ** C10 *)

Lemma missing_number_divides_by_zero_witness :
  fst (getNumber (melody "c")) = 0 /\
  parse_token zumo_header default_state 4 (melody "lc") = Crash DivByZero /\
  play zumo_header (melody "lc") default_state = Fault DivByZero.
Proof.
  apply (missing_number_divides_by_zero zumo_header default_state 4 "l"
           (melody "c")).
  - left. reflexivity.
  - reflexivity.
Defined.

(** A space between the token and its number is skipped: in "l 8" the [l]
    is followed by a space, the number read is 8, and nothing is divided
    by zero. *)
Lemma spaced_number_is_read :
  fst (currentCharacter (melody "l 8")) = "l" /\
  is_digit (nth 1 (melody "l 8") 0) = false /\
  fst (getNumber (melody " 8")) = 8 /\
  exists st',
    play zumo_header (melody "l 8") default_state = Ok st' /\
    note_type st' = 8 /\
    duration st' = 250.
Proof.
  split; [reflexivity|]. split; [reflexivity|]. split; [reflexivity|].
  eexists. split; [vm_compute; reflexivity|]. split; reflexivity.
Qed.

(** * More about the sequencer *)

(** ** What a call of [nextNote] can lead to *)

Lemma sharps_length l :
  forall note, (List.length (snd (sharps note l)) <= List.length l)%nat.
Proof.
  induction l as [|c l IH]; intros note; simpl.
  - lia.
  - destruct (tolower c =? " "); [specialize (IH note); lia|].
    destruct ((tolower c =? "+") || (tolower c =? "#")); simpl;
      [specialize (IH (u8 (note + 1))); lia | lia].
Qed.

Lemma flats_length l :
  forall note, (List.length (snd (flats note l)) <= List.length l)%nat.
Proof.
  induction l as [|c l IH]; intros note; simpl.
  - lia.
  - destruct (tolower c =? " "); [specialize (IH note); lia|].
    destruct (tolower c =? "-"); simpl;
      [specialize (IH (u8 (note - 1))); lia | lia].
Qed.

Lemma dots_length l :
  forall t a, (List.length (snd (dots t a l)) <= List.length l)%nat.
Proof.
  induction l as [|c l IH]; intros t a; simpl.
  - lia.
  - destruct (tolower c =? " "); [specialize (IH t a); lia|].
    destruct (tolower c =? "."); simpl;
      [specialize (IH (u32 (t + a)) (a / 2)); lia | lia].
Qed.

Section Outcomes.

Variable hdr : Header.

(** The [switch] writes music settings and the cursor, nothing else. *)
Lemma parse_token_driver st o l :
  match parse_token hdr st o l with
  | Continue st' _ _ => driver_view st' = driver_view st
  | Note st' _ _ _ l' =>
      driver_view st' = driver_view st /\
      (List.length l' < List.length l)%nat
  | Stop st' => driver_view st' = driver_view st /\ buzzerSequence st' = None
  | Crash _ => True
  end.
Proof.
  unfold parse_token.
  pose proof (currentCharacter_length l) as Hlen.
  pose proof (currentCharacter_shape l) as Hshape.
  destruct (currentCharacter l) as [c l1]. simpl in Hlen, Hshape.
  destruct (getNumber (tl l1)) as [n l3].
  destruct (currentCharacter (tl l1)) as [c' l3'].
  destruct l1 as [|c0 l2].
  - subst c. simpl. split; reflexivity.
  - simpl tl in *. simpl in Hlen.
    repeat match goal with
           | |- context [if ?b then _ else _] => destruct b
           end;
      try (split; [reflexivity | lia]); try reflexivity; try exact I;
      try (split; reflexivity);
      destruct l3'; try exact I; reflexivity.
Qed.

Lemma dispatch_note_outcome st note rest d :
  let st' := dispatch_note hdr st note rest d in
  buzzerFinished st' = 0 /\
  s_noteElapsed st' = false /\
  buzzerSequence st' = buzzerSequence st /\
  play_mode_setting st' = play_mode_setting st /\
  staccato st' = staccato st.
Proof.
  intros st'. unfold st', dispatch_note.
  match goal with
  | |- context [playNote hdr ?n ?t ?v ?s] =>
      pose proof (playNote_timing hdr n t v s) as Ht;
      pose proof (playNote_view hdr n t v s) as Hv;
      assert (Hs : buzzerSequence s = buzzerSequence st /\
                   play_mode_setting s = play_mode_setting st /\
                   staccato s = staccato st)
        by (destruct (staccato st =? 0); repeat split; reflexivity)
  end.
  apply timing_view_fields in Ht. destruct Ht as (T1 & T2 & _).
  unfold sequencer_view in Hv. injection Hv as V1 _ V3 _ _ _ _ _ V9 _.
  destruct Hs as (S1 & S2 & S3).
  rewrite T1, T2, V1, V3, V9. auto.
Qed.

Lemma parse_note_outcome st o note rest l st' :
  parse_note hdr st o note rest l = Ok st' ->
  buzzerFinished st' = 0 /\
  s_noteElapsed st' = false /\
  play_mode_setting st' = play_mode_setting st /\
  exists l', buzzerSequence st' = Some l' /\
             (List.length l' <= List.length l)%nat.
Proof.
  unfold parse_note, explicit_duration.
  pose proof (sharps_length l (u8 (note + o * 12))) as H1.
  destruct (sharps _ l) as [n1 l1]. simpl in H1.
  pose proof (flats_length l1 n1) as H2.
  destruct (flats n1 l1) as [n2 l2]. simpl in H2.
  pose proof (getNumber_length l2) as H3.
  destruct (getNumber l2) as [n l3]. simpl in H3.
  assert (Hd : forall t l4, (List.length l4 <= List.length l)%nat ->
            Ok (dispatch_note hdr
                  (set_buzzerSequence (Some (snd (dots t (t / 2) l4))) st)
                  n2 rest (fst (dots t (t / 2) l4))) = Ok st' ->
            buzzerFinished st' = 0 /\
            s_noteElapsed st' = false /\
            play_mode_setting st' = play_mode_setting st /\
            exists l', buzzerSequence st' = Some l' /\
                       (List.length l' <= List.length l)%nat).
  { intros t l4 Hl E. injection E as <-.
    match goal with
    | |- context [dispatch_note hdr ?s ?n ?r ?d] =>
        destruct (dispatch_note_outcome s n r d) as (D1 & D2 & D3 & D4 & _)
    end.
    rewrite D1, D2, D3, D4. repeat split.
    eexists. split; [reflexivity|].
    pose proof (dots_length l4 t (t / 2)). simpl. lia. }
  destruct (("0" <? fst (currentCharacter l2)) &&
            (fst (currentCharacter l2) <? "9")).
  - destruct (n =? 0); [discriminate|]. cbn [bind].
    specialize (Hd (whole_note_duration st / n) l3).
    destruct (dots _ _ l3) as [t' l4]. apply Hd. lia.
  - cbn [bind]. specialize (Hd (duration st) l2).
    destruct (dots _ _ l2) as [t' l4]. apply Hd. lia.
Qed.

(** The parser either ends the session, leaving the driver side alone, or
    starts a note, and then the cursor has moved on. *)
Lemma parse_from_outcome :
  forall n st o l st',
    (List.length l < n)%nat ->
    parse_from hdr st o l = Ok st' ->
    play_mode_setting st' = play_mode_setting st /\
    ((buzzerSequence st' = None /\ driver_view st' = driver_view st) \/
     (buzzerFinished st' = 0 /\ s_noteElapsed st' = false /\
      exists l', buzzerSequence st' = Some l' /\
                 (List.length l' < List.length l)%nat)).
Proof.
  induction n as [|n IH]; intros st o l st' Hn; [lia|].
  rewrite parse_from_eq.
  pose proof (parse_token_driver st o l) as Hd.
  destruct (parse_token hdr st o l) as [s1 o1 l1|s1 o1 nt rs l1|s1|f] eqn:E.
  - apply parse_token_Continue_length in E. intros H.
    destruct (IH s1 o1 l1 st' ltac:(lia) H) as (P & C).
    assert (Hm : play_mode_setting s1 = play_mode_setting st).
    { unfold driver_view in Hd. injection Hd as _ _ _ M _ _ _ _ _ _.
      exact M. }
    split; [rewrite P; exact Hm|].
    destruct C as [[C1 C2]|(C1 & C2 & l' & C3 & C4)].
    + left. split; [exact C1|]. rewrite C2. exact Hd.
    + right. split; [exact C1|]. split; [exact C2|].
      exists l'. split; [exact C3|lia].
  - destruct Hd as [Hd Hl]. intros H.
    destruct (parse_note_outcome s1 o1 nt rs l1 st' H)
      as (N1 & N2 & N3 & l' & N4 & N5).
    split.
    + rewrite N3. unfold driver_view in Hd.
      injection Hd as _ _ _ M _ _ _ _ _ _. exact M.
    + right. split; [exact N1|]. split; [exact N2|].
      exists l'. split; [exact N4|lia].
  - destruct Hd as [Hd Hc]. intros H. injection H as <-.
    split.
    + unfold driver_view in Hd. injection Hd as _ _ _ M _ _ _ _ _ _.
      exact M.
    + left. split; assumption.
  - discriminate.
Qed.

Lemma parse_note_faults st o note rest l f :
  parse_note hdr st o note rest l = Fault f -> f = DivByZero.
Proof.
  unfold parse_note, explicit_duration.
  destruct (sharps _ l) as [n1 l1]. destruct (flats n1 l1) as [n2 l2].
  destruct (getNumber l2) as [n l3].
  destruct (("0" <? fst (currentCharacter l2)) &&
            (fst (currentCharacter l2) <? "9")).
  - destruct (n =? 0); cbn [bind].
    + intros E. injection E as <-. reflexivity.
    + destruct (dots _ _ l3). discriminate.
  - cbn [bind]. destruct (dots _ _ l2). discriminate.
Qed.

Lemma parse_from_faults :
  forall n st o l f,
    (List.length l < n)%nat ->
    parse_from hdr st o l = Fault f -> f = DivByZero \/ f = OutOfBounds.
Proof.
  induction n as [|n IH]; intros st o l f Hn; [lia|].
  rewrite parse_from_eq.
  destruct (parse_token hdr st o l) as [s1 o1 l1|s1 o1 nt rs l1|s1|f'] eqn:E.
  - apply parse_token_Continue_length in E. apply IH. lia.
  - intros H. left. apply (parse_note_faults _ _ _ _ _ _ H).
  - discriminate.
  - intros H. injection H as <-. apply (parse_token_Crash hdr _ _ _ _ E).
Qed.

(** One call of [nextNote] on a melody: see [nextNote_outcome]. *)
Lemma nextNote_step st l :
  buzzerSequence st = Some l ->
  match nextNote hdr st with
  | Fault f => f = DivByZero \/ f = OutOfBounds
  | Ok st' =>
      play_mode_setting st' = play_mode_setting st /\
      ((buzzerSequence st' = None /\ driver_view st' = driver_view st) \/
       (buzzerFinished st' = 0 /\ s_noteElapsed st' = false /\
        non_null (buzzerSequence st') = true /\
        (remaining_work st' < remaining_work st)%nat))
  end.
Proof.
  intros Hl. unfold nextNote. fold (rest_pending st).
  destruct (rest_pending st) eqn:Hp.
  - pose proof (playNote_timing hdr (SILENT_NOTE hdr)
                  (staccato_rest_duration st) 0 st) as Ht.
    pose proof (playNote_view hdr (SILENT_NOTE hdr)
                  (staccato_rest_duration st) 0 st) as Hv.
    apply timing_view_fields in Ht. destruct Ht as (T1 & T2 & _).
    unfold sequencer_view in Hv. injection Hv as V1 _ V3 _ _ _ _ _ V9 _.
    cbn [play_mode_setting buzzerSequence buzzerFinished s_noteElapsed
         set_staccato_rest_duration].
    split; [exact V3|]. right.
    rewrite T1, T2, V1, Hl. repeat split.
    unfold remaining_work, rest_pending.
    cbn [buzzerSequence staccato staccato_rest_duration
         set_staccato_rest_duration].
    rewrite V1, Hl. fold (rest_pending st). rewrite Hp.
    change (0 =? 0) with true. rewrite andb_false_r. lia.
  - rewrite Hl.
    destruct (parse_from hdr st (octave st) l) as [st'|f] eqn:E.
    + destruct (parse_from_outcome (S (List.length l)) st (octave st) l st'
                  ltac:(lia) E) as (P & C).
      split; [exact P|].
      destruct C as [C|(C1 & C2 & l' & C3 & C4)]; [left; exact C|].
      right. split; [exact C1|]. split; [exact C2|].
      rewrite C3. split; [reflexivity|].
      unfold remaining_work. rewrite C3, Hl, Hp.
      destruct (rest_pending st'); lia.
    + apply (parse_from_faults (S (List.length l)) st (octave st) l f);
        [lia | exact E].
Qed.

(** X1: with a melody under the cursor, [nextNote] can only fail by one of
    the two undefined behaviours of the parser, a division by zero or a
    read beyond the terminating NUL.  When it returns, the play mode is the
    one it found and one of two things has happened.  Either the session
    has ended: the cursor is null and nothing of the driver side (tone,
    timer, flags) was touched.  Or a note or rest has been started: the
    finished flag and the note-elapsed flag are cleared, the cursor is not
    null, and the work that remains (two steps per character, one per
    pending rest) has strictly decreased. *)
Theorem nextNote_outcome st l :
  buzzerSequence st = Some l ->
  match nextNote hdr st with
  | Fault f => f = DivByZero \/ f = OutOfBounds
  | Ok st' =>
      play_mode_setting st' = play_mode_setting st /\
      ((buzzerSequence st' = None /\ driver_view st' = driver_view st) \/
       (buzzerFinished st' = 0 /\ s_noteElapsed st' = false /\
        non_null (buzzerSequence st') = true /\
        (remaining_work st' < remaining_work st)%nat))
  end.
Proof. exact (nextNote_step st l). Qed.


(** ** Polling *)

(** [playCheck] in closed form: it clears the note-elapsed flag, and calls
    [nextNote] once when an expiry is pending or the finished flag is set,
    provided a session is active and the play mode is automatic. *)
Lemma playCheck_eq st :
  playCheck hdr st =
    let s0 := if s_noteElapsed st then set_s_noteElapsed false st else st in
    if (s_noteElapsed st || negb (buzzerFinished st =? 0))
       && non_null (buzzerSequence st) && automatic hdr st
    then st' <- nextNote hdr s0 ;; Ok (st', non_null (buzzerSequence st'))
    else Ok (s0, non_null (buzzerSequence s0)).
Proof.
  unfold playCheck. cbv zeta.
  assert (Hstep : forall s l, buzzerSequence s = Some l ->
            forall s', nextNote hdr s = Ok s' ->
              negb (buzzerFinished s' =? 0) && non_null (buzzerSequence s')
              = false).
  { intros s l Hl s' E. pose proof (nextNote_step s l Hl) as H.
    rewrite E in H. destruct H as (_ & [[C _]|(C & _)]).
    - rewrite C. apply andb_false_r.
    - rewrite C. reflexivity. }
  destruct (s_noteElapsed st) eqn:El.
  - change (buzzerSequence (set_s_noteElapsed false st))
      with (buzzerSequence st).
    change (automatic hdr (set_s_noteElapsed false st))
      with (automatic hdr st).
    cbn [orb].
    destruct (buzzerSequence st) as [l|] eqn:Hl; cbn [non_null andb].
    + destruct (automatic hdr st) eqn:Ha.
      * destruct (nextNote hdr (set_s_noteElapsed false st)) as [s'|f] eqn:E;
          cbn [bind]; [|reflexivity].
        rewrite (Hstep (set_s_noteElapsed false st) l Hl s' E).
        reflexivity.
      * cbn [bind].
        change (automatic hdr (set_s_noteElapsed false st))
          with (automatic hdr st).
        rewrite Ha, andb_false_r.
        cbn [bind buzzerSequence set_s_noteElapsed]. rewrite Hl.
        reflexivity.
    + cbn [bind].
      change (buzzerSequence (set_s_noteElapsed false st))
        with (buzzerSequence st).
      rewrite Hl. cbn [non_null]. rewrite andb_false_r.
      cbn [bind buzzerSequence set_s_noteElapsed andb]. rewrite Hl.
      reflexivity.
  - cbn [bind orb].
    destruct (negb (buzzerFinished st =? 0) && non_null (buzzerSequence st)
              && automatic hdr st); [|reflexivity].
    destruct (nextNote hdr st); reflexivity.
Qed.

(** X2: one call of [playCheck] advances the melody by at most one note:
    although its body has two places that call [nextNote], the second never
    fires after the first.  The call is made exactly when an expiry is
    pending or the finished flag is set, a session is active and the play
    mode is automatic; otherwise only the note-elapsed flag is cleared. *)
Theorem playCheck_advances_once st :
  playCheck hdr st =
    let s0 := if s_noteElapsed st then set_s_noteElapsed false st else st in
    if (s_noteElapsed st || negb (buzzerFinished st =? 0))
       && non_null (buzzerSequence st) && automatic hdr st
    then st' <- nextNote hdr s0 ;; Ok (st', non_null (buzzerSequence st'))
    else Ok (s0, non_null (buzzerSequence s0)).
Proof. exact (playCheck_eq st). Qed.

(** X3: polling again without a timer expiry in between does nothing:
    [playCheck] on the state a [playCheck] returned gives that state and
    the same answer back. *)
Theorem playCheck_idempotent st st' b :
  playCheck hdr st = Ok (st', b) ->
  playCheck hdr st' = Ok (st', b).
Proof.
  rewrite (playCheck_eq st). cbv zeta.
  destruct ((s_noteElapsed st || negb (buzzerFinished st =? 0))
            && non_null (buzzerSequence st) && automatic hdr st) eqn:C.
  - intros H. apply bind_Ok in H. destruct H as (r & E & H).
    injection H as <- <-.
    apply andb_true_iff in C. destruct C as [C _].
    apply andb_true_iff in C. destruct C as [_ C].
    set (s0 := if s_noteElapsed st then set_s_noteElapsed false st else st)
      in *.
    assert (Hl : exists l, buzzerSequence s0 = Some l).
    { assert (E0 : buzzerSequence s0 = buzzerSequence st)
        by (unfold s0; destruct (s_noteElapsed st); reflexivity).
      rewrite E0. destruct (buzzerSequence st) as [l|]; [|discriminate].
      exists l. reflexivity. }
    destruct Hl as [l Hl].
    assert (Hel : s_noteElapsed s0 = false)
      by (unfold s0; destruct (s_noteElapsed st) eqn:X; [reflexivity|exact X]).
    pose proof (nextNote_step s0 l Hl) as H. rewrite E in H.
    destruct H as (_ & [[C1 C2]|(C1 & C2 & C3 & _)]).
    + rewrite (playCheck_eq r). cbv zeta. rewrite C1.
      cbn [non_null]. rewrite andb_false_r. cbn [andb].
      assert (X : s_noteElapsed r = false).
      { unfold driver_view in C2. injection C2 as _ _ _ _ _ _ X _ _ _.
        rewrite X. exact Hel. }
      rewrite X, C1. reflexivity.
    + rewrite (playCheck_eq r). cbv zeta. rewrite C1, C2. reflexivity.
  - intros H. injection H as <- <-.
    set (s0 := if s_noteElapsed st then set_s_noteElapsed false st else st)
      in *.
    assert (E1 : s_noteElapsed s0 = false)
      by (unfold s0; destruct (s_noteElapsed st) eqn:X; [reflexivity|exact X]).
    assert (E2 : buzzerFinished s0 = buzzerFinished st)
      by (unfold s0; destruct (s_noteElapsed st); reflexivity).
    assert (E3 : buzzerSequence s0 = buzzerSequence st)
      by (unfold s0; destruct (s_noteElapsed st); reflexivity).
    assert (E4 : automatic hdr s0 = automatic hdr st)
      by (unfold s0; destruct (s_noteElapsed st); reflexivity).
    rewrite (playCheck_eq s0). cbv zeta. rewrite E1, E2, E3, E4.
    cbn [orb].
    destruct (negb (buzzerFinished st =? 0) && non_null (buzzerSequence st)
              && automatic hdr st) eqn:D.
    + apply andb_true_iff in D. destruct D as [D D3].
      apply andb_true_iff in D. destruct D as [D1 D2].
      rewrite D1, D2, D3, orb_true_r in C. discriminate.
    + reflexivity.
Qed.

(** ** A melody comes to an end *)

Lemma remaining_work_onTimerDone st :
  remaining_work (onTimerDone st) = remaining_work st.
Proof. reflexivity. Qed.

(** X4: in automatic mode every melody comes to an end.  Let the timer
    expire and poll [playCheck], again and again: after at most as many
    rounds as the remaining work of the state plus one (two per remaining
    character, one for a pending staccato rest), either the parser has run
    into one of its two undefined behaviours, or [playCheck] has returned
    false, and then the cursor is null and [isPlaying] is false. *)
Theorem melody_ends :
  forall n st,
    automatic hdr st = true ->
    (remaining_work st < n)%nat ->
    (exists f, run_melody hdr n st = Fault f /\
               (f = DivByZero \/ f = OutOfBounds)) \/
    (exists st', run_melody hdr n st = Ok (st', false) /\
                 buzzerSequence st' = None /\
                 isPlaying st' = false).
Proof.
  induction n as [|n IH]; intros st Ha Hn; [lia|].
  cbn [run_melody]. rewrite playCheck_eq. cbv zeta.
  change (s_noteElapsed (onTimerDone st)) with true.
  change (buzzerSequence (onTimerDone st)) with (buzzerSequence st).
  change (automatic hdr (onTimerDone st)) with (automatic hdr st).
  rewrite Ha. cbn [orb andb]. rewrite andb_true_r.
  set (s0 := set_s_noteElapsed false (onTimerDone st)).
  assert (Hfin : buzzerFinished s0 = 1) by reflexivity.
  destruct (buzzerSequence st) as [l|] eqn:Hl; cbn [non_null].
  - pose proof (nextNote_step s0 l Hl) as H.
    destruct (nextNote hdr s0) as [r|f]; cbn [bind].
    + destruct H as (P & [[C1 C2]|(C1 & C2 & C3 & C4)]).
      * rewrite C1. cbn [non_null snd]. right. exists r.
        split; [reflexivity|]. split; [exact C1|].
        unfold isPlaying. rewrite C1.
        unfold driver_view in C2. injection C2 as _ F _ _ _ _ _ _ _ _.
        rewrite F. reflexivity.
      * rewrite C3. cbn [snd fst]. apply IH.
        -- unfold automatic in *. rewrite P. exact Ha.
        -- assert (E : remaining_work s0 = remaining_work st)
             by reflexivity.
           lia.
    + left. exists f. split; [reflexivity|exact H].
  - cbn [bind snd]. change (buzzerSequence s0) with (buzzerSequence st).
    rewrite Hl. cbn [non_null]. right. exists s0.
    split; [reflexivity|]. split; [exact Hl|].
    unfold isPlaying.
    change (buzzerSequence s0) with (buzzerSequence st). rewrite Hl.
    reflexivity.
Qed.

End Outcomes.

(** ** The tone driver *)

Lemma clamp_frequency_range freq : 40 <= clamp_frequency freq <= 10000.
Proof.
  unfold clamp_frequency.
  destruct (Z.ltb_spec freq 40);
    match goal with |- context [?a >? 10000] => destruct (Z.gtb_spec a 10000) end;
    lia.
Qed.

Lemma ledc_duty_range v :
  0 <= v <= 15 -> 0 <= u32 (v * LEDC_DUTY_MAX) / 15 <= LEDC_DUTY_MAX.
Proof.
  intros Hv. change LEDC_DUTY_MAX with 4095.
  rewrite u32_id by (unfold in_u32; lia).
  split.
  - apply Z.div_pos; lia.
  - apply Z.div_le_upper_bound; lia.
Qed.

Lemma ledcEnsureSetup_ledc freq st :
  ledc_ok st ->
  let st' := ledcEnsureSetup freq st in
  s_ledcAttached st' = true /\
  s_currFreq st' = freq /\
  pwm_freq (pwm st') = freq /\
  0 <= pwm_duty (pwm st') <= LEDC_DUTY_MAX.
Proof.
  intros [Hf Hd] st'. unfold st', ledcEnsureSetup.
  destruct (s_ledcAttached st) eqn:Ha; cbn [negb].
  - destruct (Z.eqb_spec freq (s_currFreq st)) as [E|N]; cbn [negb].
    + destruct (Hf eq_refl) as [H1 _]. rewrite Ha, H1, E. auto.
    + simpl. auto.
  - simpl. repeat split; try reflexivity. change LEDC_DUTY_MAX with 4095. lia.
Qed.

Lemma ledcSetTone_ledc freq vol st :
  ledc_ok st ->
  0 <= vol <= 15 ->
  let st' := ledcSetTone freq vol st in
  s_ledcAttached st' = true /\
  s_currFreq st' = clamp_frequency freq /\
  pwm st' = {| pwm_freq := clamp_frequency freq;
               pwm_duty := u32 (vol * LEDC_DUTY_MAX) / 15 |}.
Proof.
  intros Hok Hv st'. unfold st', ledcSetTone. fold (clamp_frequency freq).
  destruct (ledcEnsureSetup_ledc (clamp_frequency freq) st Hok)
    as (H1 & H2 & H3 & _).
  generalize dependent (ledcEnsureSetup (clamp_frequency freq) st).
  intros s H1 H2 H3.
  destruct (Z.eqb_spec vol 0) as [->|_]; unfold ledcWrite; simpl;
    rewrite H3; auto.
Qed.

Lemma init_ledc st : ledc_ok st -> ledc_ok (init st).
Proof.
  intros Hok. unfold init.
  destruct (buzzerInitialized st =? 0); [|exact Hok].
  unfold init2.
  assert (Hok' : ledc_ok (set_buzzerInitialized 1 st)) by exact Hok.
  destruct (ledcEnsureSetup_ledc 1000 _ Hok') as (H1 & H2 & H3 & H4).
  generalize dependent (ledcEnsureSetup 1000 (set_buzzerInitialized 1 st)).
  intros s H1 H2 H3 H4.
  split; simpl.
  - intros _. rewrite H2, H3. split; [reflexivity|lia].
  - change LEDC_DUTY_MAX with 4095. lia.
Qed.

Lemma init_initialized st :
  buzzerInitialized (init st) =
    if buzzerInitialized st =? 0 then 1 else buzzerInitialized st.
Proof.
  unfold init. destruct (buzzerInitialized st =? 0); [|reflexivity].
  unfold init2. simpl.
  destruct (ledcEnsureSetup_view 1000 (set_buzzerInitialized 1 st))
    as (_ & _ & H).
  exact H.
Qed.

Section ToneDriver.

Variable hdr : Header.

(** The frequency and volume [playFrequency] hands to [ledcSetTone]. *)
Lemma playFrequency_tone freq dur vol st :
  ledc_ok st ->
  let st' := playFrequency hdr freq dur vol st in
  let v := clamp_volume (u8 vol) in
  let f := if v =? 0 then 1000
           else clamp_frequency (normalize_frequency hdr (u32 freq)) in
  s_ledcAttached st' = true /\
  s_currFreq st' = f /\
  pwm st' = {| pwm_freq := f; pwm_duty := u32 (v * LEDC_DUTY_MAX) / 15 |} /\
  buzzerInitialized st' =
    if buzzerInitialized st =? 0 then 1 else buzzerInitialized st.
Proof.
  intros Hok st' v f. unfold st', playFrequency. fold v.
  pose proof (init_ledc st Hok) as Hi.
  pose proof (init_initialized st) as Hb.
  pose proof (clamp_volume_range (u8 vol) (u8_range vol)) as Hv. fold v in Hv.
  generalize dependent (init st). intros s Hi Hb.
  unfold f. destruct (Z.eqb_spec v 0) as [E|N].
  - destruct (ledcSetTone_ledc 1000 0 s Hi ltac:(lia)) as (H1 & H2 & H3).
    destruct (ledcSetTone_view 1000 0 s) as (_ & _ & H4).
    change (clamp_frequency 1000) with 1000 in H2, H3.
    rewrite E.
    cbn [s_ledcAttached s_currFreq pwm buzzerInitialized armOneShotTimer
         set_s_timer set_buzzerTimeout_ms set_s_noteElapsed
         set_buzzerFinished].
    rewrite H1, H2, H3, H4, Hb. auto.
  - destruct (ledcSetTone_ledc (normalize_frequency hdr (u32 freq)) v s Hi Hv)
      as (H1 & H2 & H3).
    destruct (ledcSetTone_view (normalize_frequency hdr (u32 freq)) v s)
      as (_ & _ & H4).
    cbn [s_ledcAttached s_currFreq pwm buzzerInitialized armOneShotTimer
         set_s_timer set_buzzerTimeout_ms set_s_noteElapsed
         set_buzzerFinished].
    rewrite H1, H2, H3, H4, Hb. auto.
Qed.

Lemma playFrequency_ledc_ok freq dur vol st :
  ledc_ok st -> ledc_ok (playFrequency hdr freq dur vol st).
Proof.
  intros Hok.
  destruct (playFrequency_tone freq dur vol st Hok) as (H1 & H2 & H3 & _).
  pose proof (clamp_volume_range (u8 vol) (u8_range vol)) as Hv.
  split.
  - intros _. rewrite H2, H3. cbn [pwm_freq]. split; [reflexivity|].
    destruct (clamp_volume (u8 vol) =? 0); [lia|].
    apply clamp_frequency_range.
  - rewrite H3. cbn [pwm_duty]. apply ledc_duty_range. exact Hv.
Qed.

(** Two states with the same fields are the same state. *)
Lemma state_ext st1 st2 :
  sequencer_view st1 = sequencer_view st2 ->
  timing_view st1 = timing_view st2 ->
  buzzerInitialized st1 = buzzerInitialized st2 ->
  s_ledcAttached st1 = s_ledcAttached st2 ->
  s_currFreq st1 = s_currFreq st2 ->
  pwm st1 = pwm st2 ->
  st1 = st2.
Proof.
  destruct st1, st2. unfold sequencer_view, timing_view. simpl.
  intros H1 H2 H3 H4 H5 H6.
  injection H1. injection H2. intros. subst. reflexivity.
Qed.

(** X5: whatever frequency and volume [playFrequency] is given, the tone
    it sets lies in the band 40 Hz .. 10 kHz, the recorded frequency
    [s_currFreq] is the one the channel runs at, the duty lies between 0 and
    the 12-bit full scale, and the duty is 0 exactly when the volume, cut
    down to an [unsigned char] and clamped to 15, is 0. *)
Theorem tone_stays_in_band freq dur vol st :
  ledc_ok st ->
  let st' := playFrequency hdr freq dur vol st in
  s_ledcAttached st' = true /\
  pwm_freq (pwm st') = s_currFreq st' /\
  40 <= pwm_freq (pwm st') <= 10000 /\
  0 <= pwm_duty (pwm st') <= LEDC_DUTY_MAX /\
  (pwm_duty (pwm st') = 0 <-> clamp_volume (u8 vol) = 0).
Proof.
  intros Hok st'.
  destruct (playFrequency_tone freq dur vol st Hok) as (H1 & H2 & H3 & _).
  destruct (playFrequency_ledc_ok freq dur vol st Hok) as [Hf Hd].
  fold st' in H1, H2, H3, Hf, Hd.
  destruct (Hf H1) as [F1 F2].
  split; [exact H1|]. split; [exact F1|]. split; [rewrite F1; exact F2|].
  split; [exact Hd|].
  rewrite H3. cbn [pwm_duty].
  pose proof (clamp_volume_range (u8 vol) (u8_range vol)) as Hv.
  change LEDC_DUTY_MAX with 4095.
  rewrite u32_id by (unfold in_u32; lia).
  split.
  - intros E.
    destruct (Z.eq_dec (clamp_volume (u8 vol)) 0) as [Z0|N]; [exact Z0|].
    assert (1 <= clamp_volume (u8 vol) * 4095 / 15)
      by (apply Z.div_le_lower_bound; lia).
    lia.
  - intros ->. reflexivity.
Qed.

(** X6: a new tone replaces the one before it completely: calling
    [playFrequency] twice in a row leaves the state the second call alone
    would have left.  Nothing of the first call, its frequency, volume or
    alarm, survives. *)
Theorem last_tone_wins f1 d1 v1 f2 d2 v2 st :
  ledc_ok st ->
  playFrequency hdr f2 d2 v2 (playFrequency hdr f1 d1 v1 st) =
    playFrequency hdr f2 d2 v2 st.
Proof.
  intros Hok.
  pose proof (playFrequency_ledc_ok f1 d1 v1 st Hok) as Hok1.
  destruct (playFrequency_tone f2 d2 v2 _ Hok1) as (A1 & A2 & A3 & A4).
  destruct (playFrequency_tone f2 d2 v2 st Hok) as (B1 & B2 & B3 & B4).
  destruct (playFrequency_tone f1 d1 v1 st Hok) as (_ & _ & _ & C4).
  apply state_ext.
  - rewrite !playFrequency_view. reflexivity.
  - rewrite !playFrequency_timing. reflexivity.
  - rewrite A4, B4, C4.
    destruct (Z.eqb_spec (buzzerInitialized st) 0) as [E|N].
    + reflexivity.
    + destruct (Z.eqb_spec (buzzerInitialized st) 0); [contradiction|].
      reflexivity.
  - rewrite A1, B1. reflexivity.
  - rewrite A2, B2. reflexivity.
  - rewrite A3, B3. reflexivity.
Qed.

End ToneDriver.

(** ** Pitch and volume of a note *)

(** A property checked on every [unsigned char] holds for every one. *)
Lemma forall_u8 (p : Z -> bool) :
  forallb p (map Z.of_nat (seq 0 256)) = true ->
  forall n, in_u8 n -> p n = true.
Proof.
  intros H n Hn. rewrite forallb_forall in H. apply H.
  apply in_map_iff. exists (Z.to_nat n). unfold in_u8 in Hn. split.
  - lia.
  - apply in_seq. lia.
Qed.

Section Pitch.

Variable hdr : Header.

(** The pitch depends on the header only through the tenths-of-hertz
    flag. *)
Lemma note_hz_flag (hdr' : Header) note :
  DIV_BY_10 hdr = DIV_BY_10 hdr' -> note_hz hdr note = note_hz hdr' note.
Proof.
  intros H. unfold note_hz, normalize_frequency, note_frequency.
  rewrite H. reflexivity.
Qed.

(** X7: a sounded note (not the silent note, volume not 0 as an [unsigned
    char]) is played at the table frequency of its note number, and louder
    than silence. *)
Theorem playNote_pitch note dur vol st :
  ledc_ok st ->
  u8 note <> SILENT_NOTE hdr ->
  u8 vol <> 0 ->
  let st' := playNote hdr note dur vol st in
  pwm_freq (pwm st') = note_hz hdr (u8 note) /\
  0 < pwm_duty (pwm st') <= LEDC_DUTY_MAX.
Proof.
  intros Hok Hn Hv st'. unfold st', playNote.
  destruct (Z.eqb_spec (u8 note) (SILENT_NOTE hdr)) as [E|_]; [contradiction|].
  destruct (Z.eqb_spec (u8 vol) 0) as [E|_]; [contradiction|].
  cbn [orb].
  set (v := if u8 vol >? 15 then 15 else u8 vol).
  assert (Hvr : 1 <= v <= 15).
  { pose proof (u8_range vol) as H. unfold in_u8 in H. unfold v.
    destruct (Z.gtb_spec (u8 vol) 15); lia. }
  destruct (playFrequency_tone hdr (note_frequency hdr (u8 note)) (u32 dur) v
              st Hok) as (_ & _ & H3 & _).
  assert (Hc : clamp_volume (u8 v) = v).
  { rewrite u8_id by (unfold in_u8; lia). unfold clamp_volume.
    destruct (Z.gtb_spec v 15); lia. }
  rewrite Hc in H3.
  destruct (Z.eqb_spec v 0) as [E|_]; [lia|].
  rewrite H3. cbn [pwm_freq pwm_duty]. split; [reflexivity|].
  change LEDC_DUTY_MAX with 4095.
  rewrite u32_id by (unfold in_u32; lia).
  split.
  - apply Z.lt_le_trans with 1; [lia|]. apply Z.div_le_lower_bound; lia.
  - apply Z.div_le_upper_bound; lia.
Qed.

(** What reaches the channel for a sounded note: the table frequency of the
    note number and the duty of the clamped volume. *)
Lemma playNote_sounded_pwm note dur vol st :
  ledc_ok st ->
  u8 note <> SILENT_NOTE hdr ->
  u8 vol <> 0 ->
  pwm (playNote hdr note dur vol st) =
    {| pwm_freq := note_hz hdr (u8 note);
       pwm_duty := u32 (clamp_volume (u8 vol) * LEDC_DUTY_MAX) / 15 |}.
Proof.
  intros Hok Hn Hv. unfold playNote.
  destruct (Z.eqb_spec (u8 note) (SILENT_NOTE hdr)) as [E|_]; [contradiction|].
  destruct (Z.eqb_spec (u8 vol) 0) as [E|_]; [contradiction|].
  cbn [orb].
  pose proof (u8_range vol) as Hr. unfold in_u8 in Hr.
  set (v := if u8 vol >? 15 then 15 else u8 vol).
  assert (Hvr : 1 <= v <= 15)
    by (unfold v; destruct (Z.gtb_spec (u8 vol) 15); lia).
  destruct (playFrequency_tone hdr (note_frequency hdr (u8 note)) (u32 dur) v
              st Hok) as (_ & _ & H3 & _).
  assert (Hc : clamp_volume (u8 v) = v).
  { rewrite u8_id by (unfold in_u8; lia). unfold clamp_volume.
    destruct (Z.gtb_spec v 15); lia. }
  rewrite Hc in H3.
  destruct (Z.eqb_spec v 0) as [E|_]; [lia|].
  rewrite H3. reflexivity.
Qed.

(** With the tenths-of-hertz flag on bit 15, the table frequency never
    falls as the note number rises: the table is cut off below note 16
    (41 Hz) and above note 111 (9958 Hz), and grows in between. *)
Lemma note_hz_monotone a b :
  DIV_BY_10 hdr = 32768 ->
  in_u8 a -> in_u8 b -> a <= b ->
  note_hz hdr a <= note_hz hdr b /\
  41 <= note_hz hdr a /\ note_hz hdr b <= 9958 /\
  (a <= 16 -> note_hz hdr a = 41) /\
  (111 <= b -> note_hz hdr b = 9958).
Proof.
  intros Hflag Ha Hb Hab.
  assert (Hz : forall n, note_hz hdr n = note_hz zumo_header n)
    by (intros n; apply note_hz_flag; rewrite Hflag; reflexivity).
  rewrite !Hz.
  assert (Hstep : forall n, in_u8 n ->
            (note_hz zumo_header n <=? note_hz zumo_header (n + 1)) = true).
  { apply forall_u8. vm_compute. reflexivity. }
  assert (Hband : forall n, in_u8 n ->
            ((41 <=? note_hz zumo_header n)
             && (note_hz zumo_header n <=? 9958)
             && ((16 <? n) || (note_hz zumo_header n =? 41))
             && ((n <? 111) || (note_hz zumo_header n =? 9958))) = true).
  { apply forall_u8. vm_compute. reflexivity. }
  assert (Hmono : forall k, (0 <= k)%Z -> forall n, in_u8 n -> in_u8 (n + k) ->
            note_hz zumo_header n <= note_hz zumo_header (n + k)).
  { intros k Hk. pattern k. apply natlike_ind; [| |exact Hk].
    - intros n _ _. rewrite Z.add_0_r. lia.
    - intros j Hj IH n Hn Hnj.
      assert (Hn1 : in_u8 (n + j)) by (unfold in_u8 in *; lia).
      specialize (IH n Hn Hn1). specialize (Hstep (n + j) Hn1).
      apply Z.leb_le in Hstep.
      replace (n + Z.succ j) with (n + j + 1) by lia. lia. }
  pose proof (Hband a Ha) as Ba. pose proof (Hband b Hb) as Bb.
  repeat (apply andb_true_iff in Ba; destruct Ba as [Ba ?]).
  repeat (apply andb_true_iff in Bb; destruct Bb as [Bb ?]).
  split.
  - specialize (Hmono (b - a) ltac:(lia) a Ha).
    replace (a + (b - a)) with b in Hmono by lia. apply Hmono. exact Hb.
  - split; [lia|]. split; [lia|]. split.
    + intros Hlow.
      match goal with
      | H : (16 <? a) || _ = true |- _ =>
          apply orb_true_iff in H; destruct H as [H|H]; [lia|lia]
      end.
    + intros Hhigh.
      match goal with
      | H : (b <? 111) || _ = true |- _ =>
          apply orb_true_iff in H; destruct H as [H|H]; [lia|lia]
      end.
Qed.

(** X8: with the tenths-of-hertz flag on bit 15, the frequency [playNote]
    sets for a sounded note (not the silent note, volume not 0 as an
    [unsigned char]) never falls as the note number rises: of two sounded
    notes the one with the higher number is played at least as high,
    whatever the durations, volumes and states of the two calls.  The
    frequency is 41 Hz for every sounded note up to 16 and 9958 Hz for every
    sounded note from 111 on, and lies between these for all others. *)
Theorem pitch_is_monotone a b dur_a dur_b vol_a vol_b st_a st_b :
  DIV_BY_10 hdr = 32768 ->
  ledc_ok st_a -> ledc_ok st_b ->
  in_u8 a -> in_u8 b -> a <= b ->
  a <> SILENT_NOTE hdr -> b <> SILENT_NOTE hdr ->
  u8 vol_a <> 0 -> u8 vol_b <> 0 ->
  let fa := pwm_freq (pwm (playNote hdr a dur_a vol_a st_a)) in
  let fb := pwm_freq (pwm (playNote hdr b dur_b vol_b st_b)) in
  fa <= fb /\
  41 <= fa /\ fb <= 9958 /\
  (a <= 16 -> fa = 41) /\
  (111 <= b -> fb = 9958).
Proof.
  intros Hflag Hoa Hob Ha Hb Hab Hsa Hsb Hva Hvb fa fb.
  assert (Ea : fa = note_hz hdr a).
  { unfold fa. rewrite playNote_sounded_pwm;
      rewrite ?(u8_id a Ha); try assumption. reflexivity. }
  assert (Eb : fb = note_hz hdr b).
  { unfold fb. rewrite playNote_sounded_pwm;
      rewrite ?(u8_id b Hb); try assumption. reflexivity. }
  rewrite Ea, Eb.
  exact (note_hz_monotone a b Hflag Ha Hb Hab).
Qed.

(** X9: with the tenths-of-hertz flag on bit 15, a note twelve semitones
    up sounds at twice the frequency, to within 1 Hz of rounding, wherever
    both notes lie inside the table (notes 16 to 99). *)
Theorem octave_doubles_pitch n :
  DIV_BY_10 hdr = 32768 ->
  16 <= n <= 99 ->
  Z.abs (note_hz hdr (n + 12) - 2 * note_hz hdr n) <= 1.
Proof.
  intros Hflag Hn.
  assert (Hz : forall k, note_hz hdr k = note_hz zumo_header k)
    by (intros k; apply note_hz_flag; rewrite Hflag; reflexivity).
  rewrite !Hz.
  assert (H : forall k, in_u8 k ->
            ((k <? 16) || (99 <? k) ||
             (Z.abs (note_hz zumo_header (k + 12) - 2 * note_hz zumo_header k)
              <=? 1)) = true).
  { apply forall_u8. vm_compute. reflexivity. }
  specialize (H n ltac:(unfold in_u8; lia)).
  apply orb_true_iff in H. destruct H as [H|H]; [|lia].
  apply orb_true_iff in H. destruct H as [H|H]; lia.
Qed.

End Pitch.

(** ** More about notes *)

Lemma sharps_run sh :
  Forall sharp_sign sh ->
  forall note l,
    in_u8 note ->
    sharps note (sh ++ l) = sharps (u8 (note + Z.of_nat (List.length sh))) l.
Proof.
  induction 1 as [|c sh Hc _ IH]; intros note l Hn.
  - simpl. rewrite Z.add_0_r, (u8_id note Hn). reflexivity.
  - simpl app. simpl List.length.
    replace (sharps note (c :: sh ++ l))
      with (sharps (u8 (note + 1)) (sh ++ l))
      by (destruct Hc as [-> | ->]; reflexivity).
    rewrite IH by apply u8_range. rewrite u8_add_l. f_equal. f_equal. lia.
Qed.

Lemma u8_sub_l a b : u8 (u8 a - b) = u8 (a - b).
Proof. unfold u8. apply Zminus_mod_idemp_l. Qed.

Lemma flats_run fl :
  Forall flat_sign fl ->
  forall note l,
    in_u8 note ->
    flats note (fl ++ l) = flats (u8 (note - Z.of_nat (List.length fl))) l.
Proof.
  induction 1 as [|c fl Hc _ IH]; intros note l Hn.
  - simpl. rewrite Z.sub_0_r, (u8_id note Hn). reflexivity.
  - simpl app. simpl List.length.
    replace (flats note (c :: fl ++ l))
      with (flats (u8 (note - 1)) (fl ++ l))
      by (rewrite Hc; reflexivity).
    rewrite IH by apply u8_range. rewrite u8_sub_l. f_equal. f_equal. lia.
Qed.

Section MoreNotes.

Variable hdr : Header.

(** X10: sharps and flats add up.  A note followed by a run of sharp signs
    ([+] or [#]) and then a run of flat signs ([-]) is parsed exactly as
    the note whose number is higher by the number of sharps and lower by
    the number of flats, modulo 256, would be without them. *)
Theorem accidentals_add_up st o note rest sh fl tail :
  Forall sharp_sign sh ->
  Forall flat_sign fl ->
  ~ sharp_sign (fst (currentCharacter tail)) ->
  ~ flat_sign (fst (currentCharacter tail)) ->
  parse_note hdr st o note rest (sh ++ fl ++ tail) =
    parse_note hdr st 0
      (u8 (note + o * 12 + Z.of_nat (List.length sh)
           - Z.of_nat (List.length fl)))
      rest tail.
Proof.
  intros Hsh Hfl Hns Hnf. unfold parse_note.
  set (N := u8 (note + o * 12 + Z.of_nat (List.length sh)
                - Z.of_nat (List.length fl))).
  assert (Hs : forall n, sharps n tail = (n, snd (currentCharacter tail))).
  { intros n. apply sharps_stop; intros E; apply Hns; [left|right]; exact E. }
  assert (Hf : forall n l, snd (currentCharacter l) = l ->
             fst (currentCharacter l) = fst (currentCharacter tail) ->
             flats n l = (n, l)).
  { intros n l E1 E2. rewrite flats_stop, E1; [reflexivity|].
    rewrite E2. exact Hnf. }
  assert (Hidem : snd (currentCharacter (snd (currentCharacter tail)))
                  = snd (currentCharacter tail))
    by (rewrite currentCharacter_idem; reflexivity).
  assert (Hidem2 : fst (currentCharacter (snd (currentCharacter tail)))
                   = fst (currentCharacter tail))
    by (rewrite currentCharacter_idem; reflexivity).
  (* right-hand side *)
  replace (u8 (N + 0 * 12)) with N
    by (rewrite Z.add_0_r; symmetry; apply u8_idem).
  rewrite (Hs N), (Hf N _ Hidem Hidem2).
  (* left-hand side *)
  rewrite (sharps_run sh Hsh) by apply u8_range.
  rewrite u8_add_l.
  assert (Hl : sharps (u8 (note + o * 12 + Z.of_nat (List.length sh)))
                 (fl ++ tail)
               = (u8 (note + o * 12 + Z.of_nat (List.length sh)),
                  snd (currentCharacter (fl ++ tail)))).
  { destruct Hfl as [|c fl Hc Hfl'].
    - apply Hs.
    - rewrite Hc. reflexivity. }
  rewrite Hl.
  assert (Hfl2 : flats (u8 (note + o * 12 + Z.of_nat (List.length sh)))
                   (snd (currentCharacter (fl ++ tail)))
                 = (N, snd (currentCharacter tail))).
  { destruct Hfl as [|c fl Hc Hfl'].
    - simpl app. rewrite (Hf _ _ Hidem Hidem2).
      unfold N. change (Z.of_nat (List.length (@nil Z))) with 0.
      rewrite Z.sub_0_r. reflexivity.
    - assert (Hcc : currentCharacter ((c :: fl) ++ tail)
                    = (c, (c :: fl) ++ tail)) by (rewrite Hc; reflexivity).
      rewrite Hcc. cbn [snd].
      rewrite (flats_run (c :: fl) (Forall_cons _ Hc Hfl')) by apply u8_range.
      rewrite u8_sub_l. fold N.
      rewrite flats_stop by exact Hnf. reflexivity. }
  rewrite Hfl2. reflexivity.
Qed.

(** X11: the volume a melody note is played with is the volume setting
    cut down to an [unsigned char] and then clamped to 15: the duty is the
    one of [min (volume mod 256) 15].  So a setting that is a multiple of 256
    plays silently, although the settings just below play at full scale. *)
Theorem note_volume_wraps st note d :
  u8 note <> SILENT_NOTE hdr ->
  let st' := dispatch_note hdr st note 0 d in
  pwm_duty (pwm st') =
    u32 (clamp_volume (u8 (volume st)) * LEDC_DUTY_MAX) / 15 /\
  (u8 (volume st) = 0 -> pwm_duty (pwm st') = 0) /\
  (15 <= u8 (volume st) -> pwm_duty (pwm st') = LEDC_DUTY_MAX).
Proof.
  intros Hn st'.
  assert (H : pwm_duty (pwm st') =
              u32 (clamp_volume (u8 (volume st)) * LEDC_DUTY_MAX) / 15).
  { unfold st', dispatch_note. change (0 =? 0) with true. cbv iota.
    set (s := if staccato st =? 0 then st else _).
    assert (Hv : volume s = volume st)
      by (unfold s; destruct (staccato st =? 0); reflexivity).
    rewrite Hv. generalize (if staccato s =? 0 then d
                            else u32 (d - staccato_rest_duration s)).
    intros t. unfold playNote.
    destruct (Z.eqb_spec (u8 note) (SILENT_NOTE hdr)) as [E|_];
      [contradiction|].
    cbn [orb].
    destruct (Z.eqb_spec (u8 (volume st)) 0) as [E|N].
    - rewrite playFrequency_duty, E. reflexivity.
    - rewrite playFrequency_duty. f_equal. f_equal. f_equal.
      pose proof (u8_range (volume st)) as Hr. unfold in_u8 in Hr.
      unfold clamp_volume.
      destruct (Z.gtb_spec (u8 (volume st)) 15).
      + reflexivity.
      + rewrite u8_id by (unfold in_u8; lia).
        destruct (Z.gtb_spec (u8 (volume st)) 15); [lia|reflexivity]. }
  split; [exact H|]. split.
  - intros E. rewrite H, E. reflexivity.
  - intros E. rewrite H. unfold clamp_volume.
    destruct (Z.gtb_spec (u8 (volume st)) 15).
    + reflexivity.
    + replace (u8 (volume st)) with 15 by lia. reflexivity.
Qed.

(** X12: staccato never changes how long a note takes.  With staccato on,
    the time the note sounds and the rest held back for the next call add
    up to the computed duration, for every duration an [unsigned int] can
    hold: the rest is at most half the duration and at most 255 ms, and the
    note sounds for at least half the duration. *)
Theorem staccato_keeps_total st note rest d :
  staccato st <> 0 ->
  in_u32 d ->
  let st1 := dispatch_note hdr st note rest d in
  buzzerTimeout_ms st1 + staccato_rest_duration st1 = d /\
  0 <= staccato_rest_duration st1 <= 255 /\
  staccato_rest_duration st1 <= d / 2 /\
  d - d / 2 <= buzzerTimeout_ms st1.
Proof.
  intros Hs Hd st1.
  destruct (dispatch_note_staccato hdr st note rest d Hs Hd)
    as (H1 & H2 & _ & _).
  fold st1 in H1, H2. rewrite H1, H2.
  pose proof (u8_range (d / 2)) as Hr. unfold in_u8 in Hr.
  assert (Hle : u8 (d / 2) <= d / 2).
  { unfold u8. apply Z.mod_le; [|lia].
    apply Z.div_pos; unfold in_u32 in Hd; lia. }
  lia.
Qed.

(** X13: a staccato token at the very end of a melody reads beyond the
    string.  When nothing but spaces follows an [m], the parser looks at the
    terminating NUL for the letter after the [m], steps over it, and jumps
    back to read the next character, which lies behind the terminator. *)
Theorem staccato_token_at_end st o c l :
  tolower c = "m" ->
  snd (currentCharacter l) = [] ->
  parse_token hdr st o (c :: l) = Crash OutOfBounds /\
  play hdr (c :: l) st = Fault OutOfBounds.
Proof.
  intros Hc Hl.
  assert (Htok : forall s o',
            parse_token hdr s o' (c :: l) = Crash OutOfBounds).
  { intros s o'.
    destruct (parse_token_head hdr s o' c l) as [-> _].
    { rewrite Hc. discriminate. }
    rewrite Hc. unfold parse_token.
    rewrite currentCharacter_cons by discriminate.
    simpl tl. destruct (currentCharacter l) as [c' l3]. simpl in Hl.
    subst l3. reflexivity. }
  split; [apply Htok|].
  rewrite play_parses, parse_from_eq, Htok. reflexivity.
Qed.

(** A note letter with nothing attached: no accidental, no digit from 1
    to 8, no dot.  It is dispatched with the default duration. *)
Lemma parse_note_bare st o note rest l :
  let c := fst (currentCharacter l) in
  ~ sharp_sign c -> ~ flat_sign c -> c <> "." ->
  (("0" <? c) && (c <? "9")) = false ->
  parse_note hdr st o note rest l =
    Ok (dispatch_note hdr
          (set_buzzerSequence (Some (snd (currentCharacter l))) st)
          (u8 (note + o * 12)) rest (duration st)).
Proof.
  intros c H1 H2 H3 H4. unfold parse_note, explicit_duration.
  rewrite sharps_stop;
    [| intros E; apply H1; left; exact E
     | intros E; apply H1; right; exact E].
  rewrite flats_stop by (rewrite currentCharacter_idem; exact H2).
  rewrite !currentCharacter_idem. fold c. rewrite H4. cbn [bind].
  rewrite dots_stop by (rewrite currentCharacter_idem; exact H3).
  rewrite currentCharacter_idem. reflexivity.
Qed.

(** X14: a length token [l<number>] whose number reads as n, not 0, makes n
    the note type and the whole note divided by n the default duration; a
    note letter right behind it, with nothing attached, is then played for
    exactly that long (staccato off). *)
Theorem length_token_sets_default st o c ds letter rest :
  tolower c = "l" ->
  Forall digit ds ->
  u32 (digits_value ds) <> 0 ->
  note_letter (tolower letter) = true ->
  let k := fst (currentCharacter rest) in
  ~ sharp_sign k -> ~ flat_sign k -> k <> "." ->
  (("0" <? k) && (k <? "9")) = false ->
  staccato st = 0 ->
  in_u32 (whole_note_duration st) ->
  let n := u32 (digits_value ds) in
  let st1 := set_duration (whole_note_duration st / n)
               (set_note_type n st) in
  parse_token hdr st o (c :: ds ++ letter :: rest) =
    Continue st1 o (letter :: rest) /\
  exists st',
    parse_from hdr st o (c :: ds ++ letter :: rest) = Ok st' /\
    buzzerTimeout_ms st' = whole_note_duration st / n /\
    note_type st' = n /\
    duration st' = whole_note_duration st / n /\
    buzzerSequence st' = Some (snd (currentCharacter rest)).
Proof.
  intros Hc Hds Hn0 Hlet k K1 K2 K3 K4 Hs Hw n st1.
  assert (Hsp : tolower letter <> " ").
  { intros E. rewrite E in Hlet. discriminate. }
  assert (Hnd : is_digit (fst (currentCharacter (letter :: rest))) = false).
  { rewrite currentCharacter_cons by exact Hsp. cbn [fst].
    unfold note_letter in Hlet. simpl in Hlet.
    repeat (apply orb_true_iff in Hlet; destruct Hlet as [Hlet|Hlet]);
      try discriminate; apply Z.eqb_eq in Hlet; rewrite Hlet; reflexivity. }
  assert (Htok : parse_token hdr st o (c :: ds ++ letter :: rest) =
                 Continue st1 o (letter :: rest)).
  { destruct (parse_token_head hdr st o c (ds ++ letter :: rest)) as [-> _].
    { rewrite Hc. discriminate. }
    rewrite Hc. unfold parse_token.
    rewrite currentCharacter_cons by discriminate.
    change (tolower "l") with "l". simpl tl.
    rewrite (getNumber_digits ds (letter :: rest) Hds Hnd). fold n.
    rewrite currentCharacter_cons by exact Hsp. cbn [snd].
    cbn -[Z.div u32 getNumber currentCharacter].
    destruct (Z.eqb_spec n 0) as [E|_]; [contradiction|]. reflexivity. }
  split; [exact Htok|].
  rewrite parse_from_eq, Htok, parse_from_eq.
  destruct (parse_token_note hdr st1 o letter rest Hlet) as (nt & rs & ->).
  rewrite (parse_note_bare st1 o nt rs rest K1 K2 K3 K4).
  set (s2 := set_buzzerSequence _ st1).
  assert (Hn : 0 < n).
  { pose proof (u32_range (digits_value ds)) as H. unfold in_u32 in H.
    unfold n in *. lia. }
  destruct (dispatch_note_plain hdr s2 (u8 (nt + o * 12)) rs
              (whole_note_duration st / n)) as (H1 & _ & H3).
  { exact Hs. }
  { apply in_u32_div; assumption. }
  apply sequencer_view_fields in H3.
  destruct H3 as (V1 & _ & _ & V4 & V5 & _).
  eexists. split; [reflexivity|].
  change (duration st1) with (whole_note_duration st / n).
  rewrite H1, V1, V4, V5. repeat split.
Qed.

(** X15: an octave token [o<number>] sets the octave to the number read,
    modulo 256, for this note and the following ones: shifts by [>] and [<]
    made before it in the same call are dropped.  Without a number the
    octave becomes 0. *)
Theorem octave_token st o c ds rest :
  tolower c = "o" ->
  Forall digit ds ->
  is_digit (fst (currentCharacter rest)) = false ->
  let n := u8 (digits_value ds) in
  parse_token hdr st o (c :: ds ++ rest) =
    Continue (set_octave n st) n (snd (currentCharacter rest)) /\
  parse_token hdr st o (c :: rest) =
    Continue (set_octave 0 st) 0 (snd (currentCharacter rest)).
Proof.
  intros Hc Hds Hrest n.
  assert (Hmod : u8 (u32 (digits_value ds)) = n).
  { unfold n, u8, u32. apply Z.mod_mod_divide.
    exists 16777216. reflexivity. }
  split.
  - destruct (parse_token_head hdr st o c (ds ++ rest)) as [-> _].
    { rewrite Hc. discriminate. }
    rewrite Hc. unfold parse_token.
    rewrite currentCharacter_cons by discriminate.
    change (tolower "o") with "o". simpl tl.
    rewrite (getNumber_digits ds rest Hds Hrest).
    cbn -[u8 u32 getNumber currentCharacter]. rewrite Hmod. reflexivity.
  - destruct (parse_token_head hdr st o c rest) as [-> _].
    { rewrite Hc. discriminate. }
    rewrite Hc. unfold parse_token.
    rewrite currentCharacter_cons by discriminate.
    change (tolower "o") with "o". simpl tl.
    rewrite (getNumber_no_digit rest Hrest). reflexivity.
Qed.

End MoreNotes.

(** ** Octave shifts and the stored octave *)

Section OctaveShifts.

Variable hdr : Header.

(** A note letter, in either case, leaves the [switch] with its note number
    of octave 0 and everything else as it was. *)
Lemma parse_token_letter st o c l base :
  letter_note hdr (tolower c) = Some base ->
  parse_token hdr st o (c :: l) = Note st o (u8 base) 0 l.
Proof.
  intros H.
  assert (Hsp : tolower c <> " ").
  { intros E. rewrite E in H. discriminate. }
  destruct (parse_token_head hdr st o c l Hsp) as [-> _].
  unfold parse_token.
  rewrite currentCharacter_cons by (rewrite tolower_idem; exact Hsp).
  rewrite tolower_idem. simpl tl.
  unfold letter_note in H.
  destruct (tolower c =? ">") eqn:E1;
    [apply Z.eqb_eq in E1; rewrite E1 in H; discriminate|].
  destruct (tolower c =? "<") eqn:E2;
    [apply Z.eqb_eq in E2; rewrite E2 in H; discriminate|].
  repeat match type of H with
         | (if ?b then _ else _) = _ =>
             destruct b; [injection H as <-; reflexivity|]
         end.
  discriminate.
Qed.

(** C9, as the code has it: [>] and [<] change the working octave of the
    current call of [nextNote], an [unsigned char] that starts from the
    stored octave, and never the stored octave itself.  A run of such tokens
    in front of a bare note letter (no accidental, number or dot attached),
    with no staccato rest pending, makes the working octave the stored one
    plus the net shift, modulo 256, without clamping or rejecting it; the
    note number is the letter's number plus twelve times that working
    octave, modulo 256, and this is the note that is played, at its table
    frequency, when it is not the silent note and the volume is not 0.  The
    stored octave is afterwards what it was, so the next call starts from it
    again.  In particular [<] at working octave 0 gives 255, the largest
    value of the type, and [>] at 255 gives 0, and neither changes the
    state. *)
Theorem octave_wraps st ts c rest base :
  buzzerSequence st = Some (ts ++ c :: rest) ->
  Forall (fun t => t = ">" \/ t = "<") ts ->
  letter_note hdr (tolower c) = Some base ->
  let k := fst (currentCharacter rest) in
  ~ sharp_sign k -> ~ flat_sign k -> k <> "." ->
  (("0" <? k) && (k <? "9")) = false ->
  staccato st = 0 \/ staccato_rest_duration st = 0 ->
  in_u8 (octave st) ->
  ledc_ok st ->
  u8 (volume st) <> 0 ->
  let tmp_octave := u8 (octave st + octave_shift ts) in
  let note := u8 (base + tmp_octave * 12) in
  note <> SILENT_NOTE hdr ->
  (exists st',
     nextNote hdr st = Ok st' /\
     octave st' = octave st /\
     pwm_freq (pwm st') = note_hz hdr note /\
     0 < pwm_duty (pwm st') /\
     buzzerSequence st' = Some (snd (currentCharacter rest))) /\
  parse_token hdr st 0 ("<" :: rest) = Continue st 255 rest /\
  parse_token hdr st 255 (">" :: rest) = Continue st 0 rest.
Proof.
  intros Hl Hts Hc k K1 K2 K3 K4 Hs Ho Hok Hv w note Hn.
  split; [|split; reflexivity].
  rewrite (nextNote_parses hdr st _ Hl Hs).
  rewrite (parse_from_octave_run hdr st (octave st) ts (c :: rest) Ho Hts).
  fold w.
  rewrite parse_from_eq, (parse_token_letter st w c rest base Hc).
  rewrite (parse_note_bare hdr st w (u8 base) 0 rest K1 K2 K3 K4).
  rewrite u8_add_l. fold note.
  set (st1 := set_buzzerSequence (Some (snd (currentCharacter rest))) st).
  unfold dispatch_note. change (0 =? 0) with true. cbv iota.
  match goal with
  | |- context [playNote hdr note ?d ?v ?s] =>
      set (dur := d); set (vol := v); set (st2 := s)
  end.
  assert (Hvol : vol = volume st)
    by (unfold vol; destruct (staccato st1 =? 0); reflexivity).
  assert (Hok2 : ledc_ok st2)
    by (unfold st2; destruct (staccato st1 =? 0); exact Hok).
  assert (Hoct : octave st2 = octave st)
    by (unfold st2; destruct (staccato st1 =? 0); reflexivity).
  assert (Hseq : buzzerSequence st2 = Some (snd (currentCharacter rest)))
    by (unfold st2; destruct (staccato st1 =? 0); reflexivity).
  assert (Hnote : u8 note = note) by (unfold note; apply u8_idem).
  pose proof (playNote_sounded_pwm hdr note dur vol st2 Hok2) as Hp.
  rewrite Hnote in Hp. specialize (Hp Hn).
  assert (Hv2 : u8 vol <> 0) by (rewrite Hvol; exact Hv).
  specialize (Hp Hv2).
  pose proof (playNote_view hdr note dur vol st2) as Hview.
  apply sequencer_view_fields in Hview.
  destruct Hview as (V1 & V2 & _).
  eexists. split; [reflexivity|].
  rewrite V1, V2, Hp, Hoct, Hseq, Hvol. cbn [pwm_freq pwm_duty].
  split; [reflexivity|]. split; [reflexivity|]. split; [|reflexivity].
  pose proof (u8_range (volume st)) as Hr. unfold in_u8 in Hr.
  assert (Hcl : 1 <= clamp_volume (u8 (volume st)) <= 15)
    by (unfold clamp_volume; destruct (Z.gtb_spec (u8 (volume st)) 15); lia).
  change LEDC_DUTY_MAX with 4095.
  rewrite u32_id by (unfold in_u32; lia).
  apply Z.lt_le_trans with 1; [lia|]. apply Z.div_le_lower_bound; lia.
Qed.

End OctaveShifts.

(** "<c" with the stored octave at 0: the working octave becomes 255, the
    note number (0 + 255 * 12) mod 256 = 244 is played, at the top of the
    frequency table, and the stored octave is still 0. *)
Lemma octave_wraps_witness :
  let st :=
    set_buzzerSequence (Some (melody "<c")) (set_octave 0 default_state) in
  (exists st',
     nextNote zumo_header st = Ok st' /\
     octave st' = 0 /\
     pwm_freq (pwm st') = note_hz zumo_header 244 /\
     0 < pwm_duty (pwm st') /\
     buzzerSequence st' = Some []) /\
  parse_token zumo_header st 0 ["<"] = Continue st 255 [] /\
  parse_token zumo_header st 255 [">"] = Continue st 0 [].
Proof.
  intros st.
  apply (octave_wraps zumo_header st ["<"] "c" [] 0).
  - reflexivity.
  - apply Forall_cons; [right; reflexivity | apply Forall_nil].
  - reflexivity.
  - intros [H|H]; discriminate.
  - intros H; discriminate.
  - discriminate.
  - reflexivity.
  - left. reflexivity.
  - unfold in_u8. simpl. lia.
  - split; [discriminate|]. simpl. change LEDC_DUTY_MAX with 4095. lia.
  - discriminate.
  - discriminate.
Defined.

(** The octave of the session does not wrap.  In "o0<cc" the [<] at octave
    0 makes the first note sound at the top of the table (9958 Hz), but the
    stored octave stays 0, not 255, and the second note is played from
    octave 0 again (41 Hz).  In "<c<c<c<c<c<c", from octave 4, the six
    unbalanced [<] never add up: the first and the sixth note are both
    played one octave down (131 Hz) and the stored octave is still 4; nothing
    underflows. *)
Lemma session_octave_is_not_wrapped :
  (exists s1 s2,
     play zumo_header (melody "o0<cc") default_state = Ok s1 /\
     pwm_freq (pwm s1) = 9958 /\
     octave s1 = 0 /\ octave s1 <> 255 /\
     playCheck zumo_header (onTimerDone s1) = Ok (s2, true) /\
     pwm_freq (pwm s2) = 41 /\
     octave s2 = 0) /\
  (exists s1 s6,
     play zumo_header (melody "<c<c<c<c<c<c") default_state = Ok s1 /\
     pwm_freq (pwm s1) = 131 /\
     run_melody zumo_header 5 s1 = Ok (s6, true) /\
     buzzerSequence s6 = Some [] /\
     pwm_freq (pwm s6) = 131 /\
     octave s6 = 4).
Proof.
  split.
  - eexists. eexists. split; [vm_compute; reflexivity|].
    split; [reflexivity|]. split; [reflexivity|].
    split; [discriminate|].
    split; [vm_compute; reflexivity|].
    split; reflexivity.
  - eexists. eexists. split; [vm_compute; reflexivity|].
    split; [reflexivity|].
    split; [vm_compute; reflexivity|].
    repeat split.
Qed.

(** ** More that holds in every reachable state *)

Lemma ledc_ok_driver st st' :
  driver_view st' = driver_view st -> ledc_ok st -> ledc_ok st'.
Proof.
  unfold driver_view, ledc_ok. intros H.
  injection H as _ _ _ _ _ _ _ -> -> ->. auto.
Qed.

Section ReachableMore.

Variable hdr : Header.

Lemma parse_token_default st o l :
  default_duration_ok st ->
  match parse_token hdr st o l with
  | Continue st' _ _ => default_duration_ok st'
  | Note st' _ _ _ _ => default_duration_ok st'
  | Stop st' => default_duration_ok st'
  | Crash _ => True
  end.
Proof.
  intros H. unfold parse_token.
  destruct (currentCharacter l) as [c l1].
  destruct (getNumber (tl l1)) as [n l3].
  destruct (currentCharacter (tl l1)) as [c' l3'].
  repeat match goal with
         | |- context [if ?b then _ else _] => destruct b
         end;
    try exact H; try exact I; try reflexivity;
    destruct l3'; try exact I; exact H.
Qed.

Lemma playNote_settled note dur vol st :
  settled st -> settled (playNote hdr note dur vol st).
Proof.
  intros [H1 H2]. split.
  - unfold playNote. case_ifs; apply playFrequency_ledc_ok; exact H1.
  - pose proof (playNote_view hdr note dur vol st) as Hv.
    apply sequencer_view_fields in Hv.
    destruct Hv as (_ & _ & V3 & V4 & V5 & _).
    unfold default_duration_ok. rewrite V3, V4, V5. exact H2.
Qed.

Lemma dispatch_note_settled st note rest d :
  settled st -> settled (dispatch_note hdr st note rest d).
Proof.
  intros H. unfold dispatch_note. apply playNote_settled.
  destruct (staccato st =? 0); exact H.
Qed.

Lemma parse_note_settled st o note rest l st' :
  settled st -> parse_note hdr st o note rest l = Ok st' -> settled st'.
Proof.
  intros H. unfold parse_note.
  destruct (sharps _ l) as [n1 l1]. destruct (flats n1 l1) as [n2 l2].
  destruct (explicit_duration st l2) as [[t l3]|f]; [|discriminate].
  cbn [bind]. destruct (dots t (t / 2) l3) as [t' l4].
  intros E. injection E as <-. apply dispatch_note_settled. exact H.
Qed.

Lemma parse_from_settled :
  forall n st o l st',
    (List.length l < n)%nat ->
    settled st -> parse_from hdr st o l = Ok st' -> settled st'.
Proof.
  induction n as [|n IH]; intros st o l st' Hn [H1 H2]; [lia|].
  rewrite parse_from_eq.
  pose proof (parse_token_default st o l H2) as Hd.
  pose proof (parse_token_driver hdr st o l) as Hv.
  destruct (parse_token hdr st o l) as [s1 o1 l1|s1 o1 nt rs l1|s1|f] eqn:E.
  - apply parse_token_Continue_length in E. apply IH; [lia|].
    split; [apply (ledc_ok_driver st s1 Hv H1)|exact Hd].
  - destruct Hv as [Hv _]. apply parse_note_settled.
    split; [apply (ledc_ok_driver st s1 Hv H1)|exact Hd].
  - destruct Hv as [Hv _]. intros H. injection H as <-.
    split; [apply (ledc_ok_driver st s1 Hv H1)|exact Hd].
  - discriminate.
Qed.

Lemma nextNote_settled st st' :
  settled st -> nextNote hdr st = Ok st' -> settled st'.
Proof.
  intros H. unfold nextNote.
  destruct (negb (staccato st =? 0) && negb (staccato_rest_duration st =? 0)).
  - intros E. injection E as <-.
    exact (playNote_settled (SILENT_NOTE hdr) (staccato_rest_duration st) 0
             st H).
  - destruct (buzzerSequence st) as [l|]; [|discriminate].
    apply parse_from_settled with (S (List.length l)); [lia|exact H].
Qed.

Lemma playCheck_settled st st' b :
  settled st -> playCheck hdr st = Ok (st', b) -> settled st'.
Proof.
  intros H. rewrite playCheck_eq. cbv zeta.
  assert (H0 : settled (if s_noteElapsed st
                        then set_s_noteElapsed false st else st))
    by (destruct (s_noteElapsed st); exact H).
  destruct ((s_noteElapsed st || negb (buzzerFinished st =? 0))
            && non_null (buzzerSequence st) && automatic hdr st).
  - intros E. apply bind_Ok in E. destruct E as (r & E1 & E2).
    injection E2 as <- _. apply (nextNote_settled _ _ H0 E1).
  - intros E. injection E as <- _. exact H0.
Qed.

Lemma stopPlaying_settled st : settled st -> settled (stopPlaying st).
Proof.
  intros [[Hf Hd] H2]. unfold stopPlaying.
  destruct (s_timer (ledcWrite 0 st)); (split; [|exact H2]);
    (split; [exact Hf | simpl; change LEDC_DUTY_MAX with 4095; lia]).
Qed.

(** X16: in every state the program can reach without a fault, the music
    settings fit their C types, the note type is not 0, the default
    duration is the whole note divided by the note type, a pending expiry
    comes with the finished flag, and the LEDC bookkeeping is consistent:
    once attached, the channel runs at [s_currFreq], between 40 Hz and
    10 kHz, and the duty never exceeds the full scale. *)
Theorem reachable_state_ok st :
  reachable hdr st ->
  wf_state st /\
  note_type st <> 0 /\
  duration st = whole_note_duration st / note_type st /\
  (s_noteElapsed st = true -> buzzerFinished st <> 0) /\
  ledc_ok st.
Proof.
  intros Hr.
  destruct (reachable_invariant hdr st Hr) as [Hwf Hfl].
  assert (Hs : settled st).
  { clear Hwf Hfl.
    induction Hr as [|notes st st' _ IH E|notes st st' _ IH E|st st' b _ IH E
                     |mode st st' _ IH E|st _ IH
                     |note dur vol st _ IH|freq dur vol st _ IH|st _ IH].
    - split; [|reflexivity]. split; [discriminate|].
      simpl. change LEDC_DUTY_MAX with 4095. lia.
    - unfold play in E. refine (nextNote_settled _ _ _ E). exact IH.
    - unfold playFromProgramSpace in E.
      refine (nextNote_settled _ _ _ E). exact IH.
    - apply (playCheck_settled st st' b IH E).
    - unfold playMode in E.
      assert (H0 : settled (set_play_mode_setting (u8 mode) st)) by exact IH.
      destruct (u8 mode =? PLAY_AUTOMATIC hdr).
      + apply bind_Ok in E. destruct E as ([s b] & E1 & E2).
        injection E2 as <-. apply (playCheck_settled _ _ _ H0 E1).
      + injection E as <-. exact H0.
    - apply stopPlaying_settled. exact IH.
    - apply playNote_settled. exact IH.
    - destruct IH as [H1 H2]. split.
      + apply playFrequency_ledc_ok. exact H1.
      + pose proof (playFrequency_view hdr freq dur vol st) as Hv.
        apply sequencer_view_fields in Hv.
        destruct Hv as (_ & _ & V3 & V4 & V5 & _).
        unfold default_duration_ok. rewrite V3, V4, V5. exact H2.
    - destruct IH as [[Hf Hd] H2]. split; [|exact H2].
      split; [exact Hf | simpl; change LEDC_DUTY_MAX with 4095; lia]. }
  destruct Hs as [H1 H2].
  split; [exact Hwf|].
  split; [destruct Hwf as [_ _ H _ _ _ _ _]; lia|].
  split; [exact H2|]. split; [exact Hfl|exact H1].
Qed.

End ReachableMore.

(** ** Case and spaces do not matter *)

Lemma currentCharacter_canon l :
  currentCharacter (canon l) =
    (fst (currentCharacter l), canon (snd (currentCharacter l))).
Proof.
  induction l as [|c l IH]; simpl.
  - reflexivity.
  - destruct (Z.eqb_spec (tolower c) " ") as [E|N]; [exact IH|].
    simpl. rewrite tolower_idem.
    destruct (Z.eqb_spec (tolower c) " "); [contradiction|reflexivity].
Qed.

Lemma tl_canon_currentCharacter l :
  tl (canon (snd (currentCharacter l))) = canon (tl (snd (currentCharacter l))).
Proof.
  induction l as [|c l IH]; simpl.
  - reflexivity.
  - destruct (Z.eqb_spec (tolower c) " ") as [E|N]; [exact IH|].
    simpl. destruct (Z.eqb_spec (tolower c) " "); [contradiction|reflexivity].
Qed.

Lemma currentCharacter_head l :
  match snd (currentCharacter l) with
  | [] => True
  | x :: _ => tolower x <> " "
  end.
Proof.
  induction l as [|c l IH]; simpl.
  - exact I.
  - destruct (Z.eqb_spec (tolower c) " ") as [E|N]; [exact IH|exact N].
Qed.

Lemma getNumber_from_canon l :
  forall arg,
    getNumber_from arg (canon l) =
      (fst (getNumber_from arg l), canon (snd (getNumber_from arg l))).
Proof.
  induction l as [|c l IH]; intros arg; simpl.
  - reflexivity.
  - destruct (Z.eqb_spec (tolower c) " ") as [E|N]; [apply IH|].
    simpl. rewrite tolower_idem.
    destruct (Z.eqb_spec (tolower c) " "); [contradiction|].
    destruct (is_digit (tolower c)); [apply IH|].
    simpl. destruct (Z.eqb_spec (tolower c) " "); [contradiction|reflexivity].
Qed.

Lemma sharps_canon l :
  forall note,
    sharps note (canon l) =
      (fst (sharps note l), canon (snd (sharps note l))).
Proof.
  induction l as [|c l IH]; intros note; simpl.
  - reflexivity.
  - destruct (Z.eqb_spec (tolower c) " ") as [E|N]; [apply IH|].
    simpl. rewrite tolower_idem.
    destruct (Z.eqb_spec (tolower c) " "); [contradiction|].
    destruct ((tolower c =? "+") || (tolower c =? "#")); [apply IH|].
    simpl. destruct (Z.eqb_spec (tolower c) " "); [contradiction|reflexivity].
Qed.

Lemma flats_canon l :
  forall note,
    flats note (canon l) = (fst (flats note l), canon (snd (flats note l))).
Proof.
  induction l as [|c l IH]; intros note; simpl.
  - reflexivity.
  - destruct (Z.eqb_spec (tolower c) " ") as [E|N]; [apply IH|].
    simpl. rewrite tolower_idem.
    destruct (Z.eqb_spec (tolower c) " "); [contradiction|].
    destruct (tolower c =? "-"); [apply IH|].
    simpl. destruct (Z.eqb_spec (tolower c) " "); [contradiction|reflexivity].
Qed.

Lemma dots_canon l :
  forall t a,
    dots t a (canon l) = (fst (dots t a l), canon (snd (dots t a l))).
Proof.
  induction l as [|c l IH]; intros t a; simpl.
  - reflexivity.
  - destruct (Z.eqb_spec (tolower c) " ") as [E|N]; [apply IH|].
    simpl. rewrite tolower_idem.
    destruct (Z.eqb_spec (tolower c) " "); [contradiction|].
    destruct (tolower c =? "."); [apply IH|].
    simpl. destruct (Z.eqb_spec (tolower c) " "); [contradiction|reflexivity].
Qed.

Lemma canon_length l : (List.length (canon l) <= List.length l)%nat.
Proof.
  induction l as [|c l IH]; simpl; [lia|].
  destruct (tolower c =? " "); simpl; lia.
Qed.

Section Canonical.

Variable hdr : Header.

(** The [switch] on the canonical melody does what it does on the melody
    itself, with canonical cursors in the result. *)
Lemma parse_token_canon st o l :
  parse_token hdr st o (canon l) =
    map_token (fun s => s) canon (parse_token hdr st o l).
Proof.
  unfold parse_token.
  rewrite currentCharacter_canon.
  pose proof (tl_canon_currentCharacter l) as Htl.
  destruct (currentCharacter l) as [c l1]. cbn [fst snd] in *.
  rewrite Htl. clear Htl.
  unfold getNumber. rewrite getNumber_from_canon, currentCharacter_canon.
  pose proof (currentCharacter_head (tl l1)) as Hhead.
  destruct (getNumber_from 0 (tl l1)) as [n l3].
  destruct (currentCharacter (tl l1)) as [c' l3']. cbn [fst snd] in *.
  assert (Hm : forall s,
            match canon l3' with
            | _ :: l4 => Continue s o l4
            | [] => Crash OutOfBounds
            end =
            map_token (fun s => s) canon
              match l3' with
              | _ :: l4 => Continue s o l4
              | [] => Crash OutOfBounds
              end).
  { intros s. destruct l3' as [|x l4]; [reflexivity|]. simpl.
    destruct (Z.eqb_spec (tolower x) " "); [contradiction|reflexivity]. }
  repeat match goal with
         | |- context [if ?b then _ else _] => destruct b
         end; try reflexivity; apply Hm.
Qed.

(** The playback primitives do not look at the cursor. *)
Lemma ledcEnsureSetup_cursor p freq st :
  ledcEnsureSetup freq (set_buzzerSequence p st) =
    set_buzzerSequence p (ledcEnsureSetup freq st).
Proof.
  unfold ledcEnsureSetup.
  cbn [s_ledcAttached s_currFreq set_buzzerSequence].
  destruct (s_ledcAttached st); cbn [negb].
  - destruct (freq =? s_currFreq st); reflexivity.
  - reflexivity.
Qed.

Lemma ledcSetTone_cursor p freq vol st :
  ledcSetTone freq vol (set_buzzerSequence p st) =
    set_buzzerSequence p (ledcSetTone freq vol st).
Proof.
  unfold ledcSetTone. rewrite ledcEnsureSetup_cursor.
  destruct (vol =? 0); reflexivity.
Qed.

Lemma init_cursor p st :
  init (set_buzzerSequence p st) = set_buzzerSequence p (init st).
Proof.
  unfold init. cbn [buzzerInitialized set_buzzerSequence].
  destruct (buzzerInitialized st =? 0); [|reflexivity].
  unfold init2.
  change (set_buzzerInitialized 1 (set_buzzerSequence p st))
    with (set_buzzerSequence p (set_buzzerInitialized 1 st)).
  rewrite ledcEnsureSetup_cursor. reflexivity.
Qed.

Lemma playFrequency_cursor p freq dur vol st :
  playFrequency hdr freq dur vol (set_buzzerSequence p st) =
    set_buzzerSequence p (playFrequency hdr freq dur vol st).
Proof.
  unfold playFrequency. rewrite init_cursor.
  destruct (clamp_volume (u8 vol) =? 0); rewrite ledcSetTone_cursor;
    reflexivity.
Qed.

Lemma playNote_cursor p note dur vol st :
  playNote hdr note dur vol (set_buzzerSequence p st) =
    set_buzzerSequence p (playNote hdr note dur vol st).
Proof.
  unfold playNote. case_ifs; apply playFrequency_cursor.
Qed.

Lemma dispatch_note_cursor p st note rest d :
  dispatch_note hdr (set_buzzerSequence p st) note rest d =
    set_buzzerSequence p (dispatch_note hdr st note rest d).
Proof.
  unfold dispatch_note. cbn [staccato set_buzzerSequence].
  destruct (staccato st =? 0).
  - apply playNote_cursor.
  - change (set_staccato_rest_duration (u8 (d / 2)) (set_buzzerSequence p st))
      with (set_buzzerSequence p (set_staccato_rest_duration (u8 (d / 2)) st)).
    apply playNote_cursor.
Qed.

Lemma set_buzzerSequence_same st :
  set_buzzerSequence (buzzerSequence st) st = st.
Proof. destruct st. reflexivity. Qed.

(** The parser never reads the cursor field of the state it is given: it
    works on the characters it is handed and writes the field on the way
    out. *)
Lemma parse_token_cursor p st o l :
  parse_token hdr (set_buzzerSequence p st) o l =
    match parse_token hdr st o l with
    | Continue s o' l' => Continue (set_buzzerSequence p s) o' l'
    | Note s o' note rest l' => Note (set_buzzerSequence p s) o' note rest l'
    | Stop s => Stop s
    | Crash f => Crash f
    end.
Proof.
  unfold parse_token.
  destruct (currentCharacter l) as [c l1].
  destruct (getNumber (tl l1)) as [n l3].
  destruct (currentCharacter (tl l1)) as [c' l3'].
  cbn [note_type whole_note_duration octave set_buzzerSequence set_note_type
       set_whole_note_duration set_octave].
  repeat match goal with
         | |- context [if ?b then _ else _] => destruct b
         end; try reflexivity;
    destruct l3'; reflexivity.
Qed.

Lemma parse_note_cursor p st o note rest l :
  parse_note hdr (set_buzzerSequence p st) o note rest l =
    parse_note hdr st o note rest l.
Proof. reflexivity. Qed.

Lemma parse_from_cursor p :
  forall n st o l,
    (List.length l < n)%nat ->
    parse_from hdr (set_buzzerSequence p st) o l = parse_from hdr st o l.
Proof.
  induction n as [|n IH]; intros st o l Hn; [lia|].
  rewrite !parse_from_eq, parse_token_cursor.
  destruct (parse_token hdr st o l) as [s1 o1 l1|s1 o1 nt rs l1|s1|f] eqn:E.
  - apply parse_token_Continue_length in E. apply IH. lia.
  - apply parse_note_cursor.
  - reflexivity.
  - reflexivity.
Qed.

Lemma parse_note_canon st o note rest l :
  parse_note hdr st o note rest (canon l) =
    map_result canon_state (parse_note hdr st o note rest l).
Proof.
  unfold parse_note, explicit_duration.
  rewrite sharps_canon. destruct (sharps _ l) as [n1 l1]. cbn [fst snd].
  rewrite flats_canon. destruct (flats n1 l1) as [n2 l2]. cbn [fst snd].
  rewrite currentCharacter_canon. cbn [fst].
  unfold getNumber. rewrite getNumber_from_canon.
  destruct (getNumber_from 0 l2) as [n l3]. cbn [fst snd].
  assert (Hd : forall t lx,
            (let '(t', l4) := dots t (t / 2) (canon lx) in
             Ok (dispatch_note hdr (set_buzzerSequence (Some l4) st)
                   n2 rest t')) =
            map_result canon_state
              (let '(t', l4) := dots t (t / 2) lx in
               Ok (dispatch_note hdr (set_buzzerSequence (Some l4) st)
                     n2 rest t'))).
  { intros t lx. rewrite dots_canon.
    destruct (dots t (t / 2) lx) as [t' l4]. cbn [fst snd map_result].
    f_equal. unfold canon_state.
    rewrite !dispatch_note_cursor. reflexivity. }
  destruct (("0" <? fst (currentCharacter l2)) &&
            (fst (currentCharacter l2) <? "9")).
  - destruct (n =? 0); [reflexivity|]. cbn [bind]. apply Hd.
  - cbn [bind]. apply Hd.
Qed.

Lemma parse_from_canon :
  forall n st o l,
    (List.length l < n)%nat ->
    parse_from hdr st o (canon l) =
      map_result canon_state (parse_from hdr st o l).
Proof.
  induction n as [|n IH]; intros st o l Hn; [lia|].
  rewrite !parse_from_eq, parse_token_canon.
  pose proof (parse_token_driver hdr st o l) as Hv.
  destruct (parse_token hdr st o l) as [s1 o1 l1|s1 o1 nt rs l1|s1|f] eqn:E;
    cbn [map_token].
  - apply parse_token_Continue_length in E. apply IH. lia.
  - apply parse_note_canon.
  - destruct Hv as [_ Hc]. cbn [map_result]. f_equal.
    unfold canon_state. rewrite Hc. cbn [option_map].
    rewrite <- Hc at 1. symmetry. apply set_buzzerSequence_same.
  - reflexivity.
Qed.

(** X17: case and spaces do not matter to the sequencer.  Bring the rest
    of the melody into canonical form (spaces removed, upper-case letters
    turned into lower case) before or after a call of [nextNote]: the
    outcome is the same, fault or state, and so it is for [play].  Two
    melodies that differ only in case and spaces are therefore played alike,
    note for note. *)
Theorem case_and_spaces_do_not_matter st l :
  nextNote hdr (canon_state st) = map_result canon_state (nextNote hdr st) /\
  play hdr (canon l) st = map_result canon_state (play hdr l st).
Proof.
  assert (Hstep : forall s,
            nextNote hdr (canon_state s) =
              map_result canon_state (nextNote hdr s)).
  { intros s. unfold nextNote.
    change (staccato (canon_state s)) with (staccato s).
    change (staccato_rest_duration (canon_state s))
      with (staccato_rest_duration s).
    destruct (negb (staccato s =? 0) && negb (staccato_rest_duration s =? 0)).
    - cbn [map_result]. f_equal. unfold canon_state at 1.
      rewrite playNote_cursor.
      pose proof (playNote_view hdr (SILENT_NOTE hdr)
                    (staccato_rest_duration s) 0 s) as Hv.
      apply sequencer_view_fields in Hv. destruct Hv as (V1 & _).
      unfold canon_state.
      cbn [buzzerSequence set_staccato_rest_duration]. rewrite V1.
      reflexivity.
    - change (buzzerSequence (canon_state s))
        with (option_map canon (buzzerSequence s)).
      change (octave (canon_state s)) with (octave s).
      destruct (buzzerSequence s) as [m|]; cbn [option_map]; [|reflexivity].
      unfold canon_state.
      rewrite (parse_from_cursor _ (S (List.length (canon m))))
        by lia.
      apply (parse_from_canon (S (List.length m))). lia. }
  split; [apply Hstep|].
  unfold play. rewrite <- Hstep. reflexivity.
Qed.

End Canonical.

(** * The UART link *)

Lemma u16_add_l a b : u16 (u16 a + b) = u16 (a + b).
Proof. unfold u16. apply Z.add_mod_idemp_l. lia. Qed.

Lemma wait_byte_arrival k :
  forall r b rest,
    (k <= r)%nat -> 0 <= b ->
    wait_byte r (repeat (-1) k ++ b :: rest) = (Some b, rest).
Proof.
  induction k as [|k IH]; intros r b rest Hk Hb.
  - destruct r; simpl; destruct (Z.geb_spec b 0); try lia; reflexivity.
  - destruct r as [|r]; [lia|]. simpl. apply IH; lia.
Qed.

Lemma wait_byte_silence r :
  forall l,
    Forall (fun c => c < 0) (firstn (S r) l) ->
    wait_byte r l = (None, skipn (S r) l).
Proof.
  induction r as [|r IH]; intros l Hl.
  - destruct l as [|c l]; [reflexivity|].
    simpl in Hl. inversion Hl as [|? ? Hc _]; subst.
    simpl. destruct (Z.geb_spec c 0); [lia|reflexivity].
  - destruct l as [|c l].
    + simpl. rewrite (IH []); [reflexivity|constructor].
    + change (firstn (S (S r)) (c :: l)) with (c :: firstn (S r) l) in Hl.
      inversion Hl as [|? ? Hc Hl']; subst.
      simpl. destruct (Z.geb_spec c 0); [lia|].
      rewrite (IH l Hl'). reflexivity.
Qed.

(** The loop on bytes that all arrive in time, with [m] more to come. *)
Lemma recv_loop_arrivals items :
  Forall in_time items ->
  forall len m buf acc rest,
    recv_loop len (List.length items + m) buf (u16 acc)
      (flat_map arrival items ++ rest) =
    recv_loop len m (buf ++ map snd items)
      (u16 (fold_left Z.add (map snd items) acc)) rest.
Proof.
  induction 1 as [|[k b] items [Hk Hb] _ IH]; intros len m buf acc rest.
  - simpl. rewrite app_nil_r. reflexivity.
  - simpl in Hk, Hb. unfold in_u8 in Hb.
    cbn [List.length flat_map map fold_left snd Nat.add].
    unfold arrival at 1. cbn [fst snd].
    replace (((repeat (-1) k ++ [b]) ++ flat_map arrival items) ++ rest)
      with (repeat (-1) k ++ b :: flat_map arrival items ++ rest)
      by (rewrite <- !app_assoc; reflexivity).
    cbn [recv_loop].
    rewrite (wait_byte_arrival k 200 b) by lia.
    rewrite (u8_id b) by exact Hb.
    rewrite u16_add_l, IH, <- app_assoc. reflexivity.
Qed.

(** X18: when every byte asked for arrives within 200 empty polls of the
    one before, [recv] returns the length, has written exactly these bytes
    in order, has accumulated their sum modulo 2^16 as the checksum, and has
    consumed nothing of what arrives after them. *)
Theorem recv_delivers items rest :
  Forall in_time items ->
  (List.length items <= 255)%nat ->
  recv (Z.of_nat (List.length items)) (flat_map arrival items ++ rest) =
    {| recv_ret := Z.of_nat (List.length items);
       recv_buf := map snd items;
       recv_cs := checksum (map snd items);
       recv_rx := rest |}.
Proof.
  intros Hit Hlen. unfold recv.
  rewrite u8_id by (unfold in_u8; lia). rewrite Nat2Z.id.
  change 0 with (u16 0) at 1.
  replace (List.length items) with (List.length items + 0)%nat at 2 by lia.
  rewrite (recv_loop_arrivals items Hit). reflexivity.
Qed.

(** X19: when a byte fails to arrive during 201 polls in a row, [recv]
    gives up with -1: the bytes that came before it are in the buffer and
    in the checksum, the 201 polls are spent, and what the port delivers
    later is left for the next call.  A port that has run dry counts as
    delivering nothing for ever. *)
Theorem recv_times_out len items silence :
  Forall in_time items ->
  Z.of_nat (List.length items) < u8 len ->
  Forall (fun c => c < 0) (firstn 201 silence) ->
  recv len (flat_map arrival items ++ silence) =
    {| recv_ret := -1;
       recv_buf := map snd items;
       recv_cs := checksum (map snd items);
       recv_rx := skipn 201 silence |}.
Proof.
  intros Hit Hlen Hsil. unfold recv.
  pose proof (u8_range len) as Hr. unfold in_u8 in Hr.
  destruct (Z.to_nat (u8 len) - List.length items)%nat as [|m] eqn:Em; [lia|].
  replace (Z.to_nat (u8 len)) with (List.length items + S m)%nat by lia.
  change 0 with (u16 0) at 1.
  rewrite (recv_loop_arrivals items Hit).
  cbn [recv_loop]. rewrite (wait_byte_silence 200 silence Hsil).
  reflexivity.
Qed.

Lemma wait_byte_reads r :
  forall rx,
    (List.length rx <= List.length (snd (wait_byte r rx)) + S r)%nat.
Proof.
  induction r as [|r IH]; intros rx.
  - destruct rx as [|c rx]; simpl; [lia|].
    destruct (c >=? 0); simpl; lia.
  - destruct rx as [|c rx].
    + simpl. lia.
    + simpl. destruct (c >=? 0); simpl; [lia|].
      specialize (IH rx). lia.
Qed.

Lemma recv_loop_general len n :
  forall buf acc rx,
    let r := recv_loop len n buf (u16 acc) rx in
    exists more,
      recv_buf r = buf ++ more /\
      Forall in_u8 more /\
      recv_cs r = u16 (fold_left Z.add more acc) /\
      ((recv_ret r = len /\ List.length more = n) \/
       (recv_ret r = -1 /\ (List.length more < n)%nat)) /\
      (List.length rx <= List.length (recv_rx r) + 201 * n)%nat.
Proof.
  induction n as [|n IH]; intros buf acc rx r.
  - exists []. unfold r. simpl. rewrite app_nil_r.
    split; [reflexivity|]. split; [constructor|]. split; [reflexivity|].
    split; [left; split; reflexivity|lia].
  - unfold r. cbn [recv_loop].
    pose proof (wait_byte_reads 200 rx) as Hreads.
    destruct (wait_byte 200 rx) as [[c|] rx']; cbn [snd] in Hreads.
    + rewrite u16_add_l.
      destruct (IH (buf ++ [u8 c]) (acc + u8 c) rx')
        as (more & H1 & H2 & H3 & H4 & H5).
      exists (u8 c :: more). rewrite H1, <- app_assoc.
      split; [reflexivity|].
      split; [constructor; [apply u8_range|exact H2]|].
      split; [exact H3|].
      split.
      * destruct H4 as [[A B]|[A B]]; [left|right]; simpl; split; auto; lia.
      * lia.
    + exists []. simpl. rewrite app_nil_r.
      split; [reflexivity|]. split; [constructor|]. split; [reflexivity|].
      split; [right; split; [reflexivity|lia]|lia].
Qed.

(** X20: whatever the port delivers, [recv] either returns the length
    with exactly that many bytes written, or -1 with fewer; the bytes
    written are bytes, the checksum is their sum modulo 2^16, and no more
    than 201 polls per byte asked for have been spent. *)
Theorem recv_is_bounded len rx :
  let r := recv len rx in
  ((recv_ret r = u8 len /\
    Z.of_nat (List.length (recv_buf r)) = u8 len) \/
   (recv_ret r = -1 /\
    Z.of_nat (List.length (recv_buf r)) < u8 len)) /\
  Forall in_u8 (recv_buf r) /\
  recv_cs r = checksum (recv_buf r) /\
  (List.length rx <=
   List.length (recv_rx r) + 201 * Z.to_nat (u8 len))%nat.
Proof.
  intros r. unfold r, recv.
  pose proof (u8_range len) as Hr. unfold in_u8 in Hr.
  destruct (recv_loop_general (u8 len) (Z.to_nat (u8 len)) [] 0 rx)
    as (more & H1 & H2 & H3 & H4 & H5).
  change (u16 0) with 0 in *. simpl app in H1.
  rewrite H1. split; [|split; [exact H2|split; [exact H3|exact H5]]].
  destruct H4 as [[A B]|[A B]]; [left|right]; split; auto; lia.
Qed.

(** * Numbers with spaces in them *)

(** X22: [getNumber] reads a decimal number through spaces: if the
    melody, spaces removed, starts with the digits [ds] followed by
    something that is not a digit, the number read is the one [ds] denotes,
    modulo 2^32.  So "4 8" is read as 48. *)
Theorem getNumber_reads_through_spaces l ds rest :
  canon l = ds ++ rest ->
  Forall digit ds ->
  is_digit (fst (currentCharacter rest)) = false ->
  fst (getNumber l) = u32 (digits_value ds).
Proof.
  intros Hl Hds Hrest.
  pose proof (getNumber_from_canon l 0) as H.
  rewrite Hl in H. fold (getNumber (ds ++ rest)) in H.
  rewrite (getNumber_digits ds rest Hds Hrest) in H.
  injection H as H _. symmetry. exact H.
Qed.

(** * Worked examples, continued *)

(** "c d" from the state at program start: the call starts the note c and
    leaves less to do. *)
Lemma nextNote_outcome_witness :
  let st := set_buzzerSequence (Some (melody "c d")) default_state in
  match nextNote zumo_header st with
  | Fault f => f = DivByZero \/ f = OutOfBounds
  | Ok st' =>
      play_mode_setting st' = play_mode_setting st /\
      ((buzzerSequence st' = None /\ driver_view st' = driver_view st) \/
       (buzzerFinished st' = 0 /\ s_noteElapsed st' = false /\
        non_null (buzzerSequence st') = true /\
        (remaining_work st' < remaining_work st)%nat))
  end.
Proof.
  apply (nextNote_outcome zumo_header
           (set_buzzerSequence (Some (melody "c d")) default_state)
           (melody "c d")).
  reflexivity.
Defined.

(** The note c of "c d" has run out: the first poll starts d, a second
    poll right after it changes nothing. *)
Lemma playCheck_idempotent_witness :
  let st0 :=
    match play zumo_header (melody "c d") default_state with
    | Ok s => s
    | Fault _ => default_state
    end in
  let st' :=
    match playCheck zumo_header (onTimerDone st0) with
    | Ok (s, _) => s
    | Fault _ => st0
    end in
  buzzerSequence st' = Some (melody "") /\
  playCheck zumo_header st' = Ok (st', true).
Proof.
  intros st0 st'. split; [reflexivity|].
  apply (playCheck_idempotent zumo_header (onTimerDone st0) st' true).
  vm_compute. reflexivity.
Defined.

(** "ms c d" is over after at most 13 rounds of expiry and poll. *)
Lemma melody_ends_witness :
  let st := set_buzzerSequence (Some (melody "ms c d")) default_state in
  (exists f, run_melody zumo_header 13 st = Fault f /\
             (f = DivByZero \/ f = OutOfBounds)) \/
  (exists st', run_melody zumo_header 13 st = Ok (st', false) /\
               buzzerSequence st' = None /\
               isPlaying st' = false).
Proof.
  apply (melody_ends zumo_header 13
           (set_buzzerSequence (Some (melody "ms c d")) default_state)).
  - reflexivity.
  - vm_compute. lia.
Defined.

Lemma tone_stays_in_band_witness :
  let st' := playFrequency zumo_header 20000 100 200 default_state in
  s_ledcAttached st' = true /\
  pwm_freq (pwm st') = s_currFreq st' /\
  40 <= pwm_freq (pwm st') <= 10000 /\
  0 <= pwm_duty (pwm st') <= LEDC_DUTY_MAX /\
  (pwm_duty (pwm st') = 0 <-> clamp_volume (u8 200) = 0).
Proof.
  apply (tone_stays_in_band zumo_header 20000 100 200 default_state).
  split; [discriminate|]. simpl. change LEDC_DUTY_MAX with 4095. lia.
Defined.

Lemma last_tone_wins_witness :
  playFrequency zumo_header 880 50 7
    (playFrequency zumo_header 440 100 15 default_state) =
  playFrequency zumo_header 880 50 7 default_state.
Proof.
  apply (last_tone_wins zumo_header 440 100 15 880 50 7 default_state).
  split; [discriminate|]. simpl. change LEDC_DUTY_MAX with 4095. lia.
Defined.

(** Note 57 (the a of octave 4) at volume 15: 440 Hz. *)
Lemma playNote_pitch_witness :
  let st' := playNote zumo_header 57 100 15 default_state in
  pwm_freq (pwm st') = note_hz zumo_header (u8 57) /\
  0 < pwm_duty (pwm st') <= LEDC_DUTY_MAX.
Proof.
  apply (playNote_pitch zumo_header 57 100 15 default_state).
  - split; [discriminate|]. simpl. change LEDC_DUTY_MAX with 4095. lia.
  - discriminate.
  - discriminate.
Defined.

(** The c and the a of octave 4, notes 48 and 57, each played from the
    state at program start: 262 Hz and 440 Hz. *)
Lemma pitch_is_monotone_witness :
  let fa := pwm_freq (pwm (playNote zumo_header 48 100 15 default_state)) in
  let fb := pwm_freq (pwm (playNote zumo_header 57 200 9 default_state)) in
  fa <= fb /\
  41 <= fa /\ fb <= 9958 /\
  (48 <= 16 -> fa = 41) /\
  (111 <= 57 -> fb = 9958).
Proof.
  apply (pitch_is_monotone zumo_header 48 57 100 200 15 9
           default_state default_state).
  - reflexivity.
  - split; [discriminate|]. simpl. change LEDC_DUTY_MAX with 4095. lia.
  - split; [discriminate|]. simpl. change LEDC_DUTY_MAX with 4095. lia.
  - unfold in_u8. lia.
  - unfold in_u8. lia.
  - lia.
  - discriminate.
  - discriminate.
  - discriminate.
  - discriminate.
Defined.

(** The a of octave 5 against the a of octave 4: 880 Hz and 440 Hz. *)
Lemma octave_doubles_pitch_witness :
  Z.abs (note_hz zumo_header (57 + 12) - 2 * note_hz zumo_header 57) <= 1.
Proof.
  apply (octave_doubles_pitch zumo_header 57).
  - reflexivity.
  - lia.
Defined.

(** "c+#-" is "c" one semitone up. *)
Lemma accidentals_add_up_witness :
  parse_note zumo_header default_state 4 0 0 (melody "+#-8") =
    parse_note zumo_header default_state 0 (u8 (0 + 4 * 12 + 2 - 1)) 0
      (melody "8").
Proof.
  apply (accidentals_add_up zumo_header default_state 4 0 0
           ["+"; "#"] ["-"] (melody "8")).
  - apply Forall_cons; [left; reflexivity|].
    apply Forall_cons; [right; reflexivity|apply Forall_nil].
  - apply Forall_cons; [reflexivity|apply Forall_nil].
  - intros [H|H]; discriminate H.
  - intros H. discriminate H.
Defined.

(** Volume 256 is silent, volume 255 is full scale. *)
Lemma note_volume_wraps_witness :
  let st := set_volume 256 default_state in
  let st' := dispatch_note zumo_header st 48 0 500 in
  pwm_duty (pwm st') =
    u32 (clamp_volume (u8 (volume st)) * LEDC_DUTY_MAX) / 15 /\
  (u8 (volume st) = 0 -> pwm_duty (pwm st') = 0) /\
  (15 <= u8 (volume st) -> pwm_duty (pwm st') = LEDC_DUTY_MAX).
Proof.
  apply (note_volume_wraps zumo_header (set_volume 256 default_state) 48 500).
  discriminate.
Defined.

(** A whole note in staccato: 1768 ms of sound and 232 ms of rest. *)
Lemma staccato_keeps_total_witness :
  let st1 := dispatch_note zumo_header (set_staccato 1 default_state)
               48 0 2000 in
  buzzerTimeout_ms st1 + staccato_rest_duration st1 = 2000 /\
  0 <= staccato_rest_duration st1 <= 255 /\
  staccato_rest_duration st1 <= 2000 / 2 /\
  2000 - 2000 / 2 <= buzzerTimeout_ms st1.
Proof.
  apply (staccato_keeps_total zumo_header (set_staccato 1 default_state)
           48 0 2000).
  - discriminate.
  - unfold in_u32. lia.
Defined.

Lemma staccato_token_at_end_witness :
  parse_token zumo_header default_state 4 (melody "m  ") =
    Crash OutOfBounds /\
  play zumo_header (melody "m  ") default_state = Fault OutOfBounds.
Proof.
  apply (staccato_token_at_end zumo_header default_state 4 "m" (melody "  "));
    reflexivity.
Defined.

(** "l8c": an eighth note, 2000 / 8 = 250 ms. *)
Lemma length_token_sets_default_witness :
  let st1 := set_duration 250 (set_note_type 8 default_state) in
  parse_token zumo_header default_state 4 (melody "l8c") =
    Continue st1 4 (melody "c") /\
  exists st',
    parse_from zumo_header default_state 4 (melody "l8c") = Ok st' /\
    buzzerTimeout_ms st' = 250 /\
    note_type st' = 8 /\
    duration st' = 250 /\
    buzzerSequence st' = Some [].
Proof.
  apply (length_token_sets_default zumo_header default_state 4 "l" ["8"]
           "c" []).
  - reflexivity.
  - repeat constructor; unfold digit; lia.
  - discriminate.
  - reflexivity.
  - intros [H|H]; discriminate H.
  - intros H. discriminate H.
  - discriminate.
  - reflexivity.
  - reflexivity.
  - unfold in_u32. simpl. lia.
Defined.

(** "o260" sets octave 4, "o" alone octave 0. *)
Lemma octave_token_witness :
  parse_token zumo_header default_state 7 (melody "o260c") =
    Continue (set_octave 4 default_state) 4 (melody "c") /\
  parse_token zumo_header default_state 7 (melody "oc") =
    Continue (set_octave 0 default_state) 0 (melody "c").
Proof.
  apply (octave_token zumo_header default_state 7 "o" ["2"; "6"; "0"]
           (melody "c")).
  - reflexivity.
  - repeat constructor; unfold digit; lia.
  - reflexivity.
Defined.

(** The state after "t90 l16 ms c" has been started and stopped. *)
Lemma reachable_state_ok_witness :
  exists st,
    play zumo_header (melody "t90 l16 ms c") default_state = Ok st /\
    wf_state (stopPlaying st) /\
    note_type (stopPlaying st) <> 0 /\
    duration (stopPlaying st) =
      whole_note_duration (stopPlaying st) / note_type (stopPlaying st) /\
    (s_noteElapsed (stopPlaying st) = true ->
     buzzerFinished (stopPlaying st) <> 0) /\
    ledc_ok (stopPlaying st).
Proof.
  destruct (play zumo_header (melody "t90 l16 ms c") default_state)
    as [st|f] eqn:E; [|vm_compute in E; discriminate E].
  exists st. split; [reflexivity|].
  apply (reachable_state_ok zumo_header (stopPlaying st)).
  apply reach_stopPlaying.
  apply (reach_play zumo_header (melody "t90 l16 ms c") default_state st).
  - apply reach_start.
  - exact E.
Defined.

(** Three bytes, the second one after 5 empty polls. *)
Lemma recv_delivers_witness :
  recv 3 ([1] ++ (repeat (-1) 5 ++ [2]) ++ [255] ++ [9]) =
    {| recv_ret := 3; recv_buf := [1; 2; 255]; recv_cs := 258;
       recv_rx := [9] |}.
Proof.
  apply (recv_delivers [(0%nat, 1); (5%nat, 2); (0%nat, 255)] [9]).
  - repeat constructor; simpl; unfold in_u8; lia.
  - simpl. lia.
Defined.

(** Two of three bytes, then nothing: the port has run dry. *)
Lemma recv_times_out_witness :
  recv 3 [7; 8] =
    {| recv_ret := -1; recv_buf := [7; 8]; recv_cs := 15; recv_rx := [] |}.
Proof.
  apply (recv_times_out 3 [(0%nat, 7); (0%nat, 8)] []).
  - repeat constructor; simpl; unfold in_u8; lia.
  - vm_compute. reflexivity.
  - constructor.
Defined.

(** "c4 8" : the divisor is read as 48. *)
Lemma getNumber_reads_through_spaces_witness :
  fst (getNumber (melody "4 8 d")) = u32 (digits_value ["4"; "8"]).
Proof.
  apply (getNumber_reads_through_spaces (melody "4 8 d") ["4"; "8"] ["d"]).
  - reflexivity.
  - repeat constructor; unfold digit; lia.
  - reflexivity.
Defined.

(** * Dotted notes *)

Lemma dot_increments_bound k :
  forall a, 0 <= a -> 0 <= dot_increments a k <= 2 * a.
Proof.
  induction k as [|k IH]; intros a Ha; cbn [dot_increments].
  - lia.
  - assert (H2 : 0 <= a / 2) by (apply Z.div_pos; lia).
    specialize (IH (a / 2) H2).
    assert (2 * (a / 2) <= a) by (apply Z.mul_div_le; lia).
    lia.
Qed.

(** X23: a note of duration d followed by k dots lasts d plus d/2 plus
    d/4 and so on for k terms, each a truncating division of the one
    before; that is never less than d and never more than twice d.  (For
    d below 2^31 nothing wraps around.) *)
Theorem dotted_note_duration k d rest :
  0 <= d < 2147483648 ->
  fst (currentCharacter rest) <> "." ->
  dots d (d / 2) (repeat "." k ++ rest) =
    (d + dot_increments (d / 2) k, snd (currentCharacter rest)) /\
  d <= d + dot_increments (d / 2) k <= 2 * d.
Proof.
  intros Hd Hrest.
  assert (H2 : 0 <= d / 2) by (apply Z.div_pos; lia).
  pose proof (dot_increments_bound k (d / 2) H2) as Hb.
  assert (2 * (d / 2) <= d) by (apply Z.mul_div_le; lia).
  split; [|lia].
  rewrite (dots_run k d (d / 2) rest) by (try (unfold in_u32; lia); exact Hrest).
  rewrite u32_id by (unfold in_u32; lia). reflexivity.
Qed.

(** A double-dotted quarter note: 500 + 250 + 125 ms. *)
Lemma dotted_note_duration_witness :
  dots 500 (500 / 2) (repeat "." 2 ++ melody " d") =
    (500 + dot_increments (500 / 2) 2, melody "d") /\
  500 <= 500 + dot_increments (500 / 2) 2 <= 2 * 500.
Proof.
  apply (dotted_note_duration 2 500 (melody " d")).
  - lia.
  - discriminate.
Defined.
